(** * A substitution-permutation network and its differential cryptanalysis

    Shallow embedding of [sp_network.py] and [differential_cryptanalysis.py].
    Python integers are unbounded, so they are [Z]; the bit operators
    [^], [|], [&], [>>] and [<<] are [Z.lxor], [Z.lor], [Z.land],
    [Z.shiftr] and [Z.shiftl], with the [ValueError] Python raises on a
    negative shift count written out.  Dictionaries keep insertion order,
    which [max] over a dictionary observes, so they are association lists
    with unique keys.  Every operation that can raise returns in [res]. *)

From Stdlib Require Import ZArith List Lia Bool Permutation Sorted QArith Qpower.
From Stdlib Require Import Floats.SpecFloat.
From Stdlib Require Ascii String.
Import ListNotations.
Open Scope Z_scope.

(** ** The fragment of the Python runtime the two classes use *)

Module Py.

Inductive exn : Type :=
| ValueError
| KeyError
| IndexError
| ZeroDivisionError.

Inductive res (A : Type) : Type :=
| Ok (a : A)
| Raise (e : exn).

Arguments Ok {A} a.
Arguments Raise {A} e.

Definition bind {A B : Type} (m : res A) (k : A -> res B) : res B :=
  match m with
  | Ok a => k a
  | Raise e => Raise e
  end.

(** [for x in l: acc = body(acc, x)], stopping at the first exception. *)
Fixpoint for_each {A X : Type} (l : list X) (body : A -> X -> res A) (acc : A)
  : res A :=
  match l with
  | [] => Ok acc
  | x :: rest => bind (body acc x) (for_each rest body)
  end.

(** [a >> n] and [a << n]: a negative count is a [ValueError]. *)
Definition rshift (a n : Z) : res Z :=
  if n <? 0 then Raise ValueError else Ok (Z.shiftr a n).

Definition lshift (a n : Z) : res Z :=
  if n <? 0 then Raise ValueError else Ok (Z.shiftl a n).

(** [range(start, stop, step)] for a non-zero [step], and its two short forms. *)
Fixpoint count_from (n : nat) (start step : Z) : list Z :=
  match n with
  | O => []
  | S n' => start :: count_from n' (start + step) step
  end.

Definition range3 (start stop step : Z) : list Z :=
  let n := if 0 <? step
           then (stop - start + step - 1) / step
           else (start - stop - step - 1) / (- step) in
  count_from (Z.to_nat n) start step.

Definition range2 (start stop : Z) : list Z := range3 start stop 1.

Definition range (stop : Z) : list Z := range3 0 stop 1.

(** [l[i]] on a list: negative indices count from the end. *)
Definition list_item {A : Type} (l : list A) (i : Z) : res A :=
  let n := Z.of_nat (length l) in
  let j := if i <? 0 then i + n else i in
  if (j <? 0) || (n <=? j) then Raise IndexError
  else match nth_error l (Z.to_nat j) with
       | Some a => Ok a
       | None => Raise IndexError
       end.

(** [l.insert(0, a)] and [l.append(a)]. *)
Definition insert0 {A : Type} (l : list A) (a : A) : list A := a :: l.

Definition append {A : Type} (l : list A) (a : A) : list A := l ++ [a].

(** Dictionaries with integer keys, in insertion order. *)
Definition dict (V : Type) : Type := list (Z * V).

Fixpoint get {V : Type} (d : dict V) (k : Z) : option V :=
  match d with
  | [] => None
  | (k', v) :: rest => if k' =? k then Some v else get rest k
  end.

(** [d[k] = v]: an existing key keeps its place, a new one goes last. *)
Fixpoint set {V : Type} (d : dict V) (k : Z) (v : V) : dict V :=
  match d with
  | [] => [(k, v)]
  | (k', v') :: rest =>
      if k' =? k then (k', v) :: rest else (k', v') :: set rest k v
  end.

(** [d[k]] raises [KeyError] on a miss; [d.get(k, dflt)] does not. *)
Definition item {V : Type} (d : dict V) (k : Z) : res V :=
  match get d k with
  | Some v => Ok v
  | None => Raise KeyError
  end.

Definition get_default {V : Type} (d : dict V) (k : Z) (dflt : V) : V :=
  match get d k with
  | Some v => v
  | None => dflt
  end.

Definition len {V : Type} (d : dict V) : Z := Z.of_nat (length d).

Definition keys {V : Type} (d : dict V) : list Z := map fst d.

(** [dict(pairs)] and the comprehension [{k: v for ...}]: later pairs win. *)
Definition of_items {V : Type} (l : list (Z * V)) : dict V :=
  fold_left (fun d kv => set d (fst kv) (snd kv)) l [].

(** A dictionary never holds a key twice. *)
Definition wf {V : Type} (d : dict V) : Prop := NoDup (keys d).

(** [max(l, key=f)]: the first element whose key is not exceeded later;
    [ValueError] on an empty sequence. *)
Fixpoint max_from {A : Type} (key : A -> Z) (best : A) (l : list A) : A :=
  match l with
  | [] => best
  | x :: rest =>
      if key best <? key x then max_from key x rest else max_from key best rest
  end.

Definition max_by {A : Type} (key : A -> Z) (l : list A) : res A :=
  match l with
  | [] => Raise ValueError
  | x :: rest => Ok (max_from key x rest)
  end.

(** [max(d, key=d.get)]: iterates the keys of [d]; [d.get] of a key of [d]
    is its value. *)
Definition max_key (d : dict Z) : res Z :=
  max_by (fun k => get_default d k 0) (keys d).

End Py.

Import Py.

Notation "x <- m ;; k" := (bind m (fun x => k))
  (at level 61, m at next level, right associativity).

(** ** Strings

    What [extract_subkey_bits] and [get_binary_rep_of_subkey] use of
    Python's [str]: [format] with the presentation type [b] and a
    zero-padded width, slices, and [int] with base 2. *)

Module PyStr.

Import Stdlib.Strings.Ascii Stdlib.Strings.String.
Local Open Scope string_scope.

(** The binary digits of a positive number, most significant first. *)
Fixpoint bin_pos (p : positive) (acc : string) : string :=
  match p with
  | xH => String "1" acc
  | xO p' => bin_pos p' (String "0" acc)
  | xI p' => bin_pos p' (String "1" acc)
  end.

(** The digits of the absolute value. *)
Definition bin_digits (n : Z) : string :=
  match n with
  | Z0 => "0"
  | Zpos p => bin_pos p ""
  | Zneg p => bin_pos p ""
  end.

Fixpoint zeros (n : nat) : string :=
  match n with
  | O => ""
  | S n' => String "0" (zeros n')
  end.

(** [format(n, '0Wb')]: the sign of a negative number, then zeros up to
    the width [W], then the digits; a longer number is not cut. *)
Definition format_b (width : nat) (n : Z) : string :=
  let sign := if (n <? 0)%Z then "-" else "" in
  let digits := bin_digits n in
  sign ++ zeros (width - length sign - length digits)%nat ++ digits.

(** [s[i:j]] for [0 <= i <= j]: cut short where the string ends. *)
Definition slice (s : string) (i j : Z) : string :=
  substring (Z.to_nat i) (Z.to_nat (j - i)) s.

(** [int(s, 2)] on a string of binary digits with an optional minus sign,
    which is all a slice of [format_b] can hold; without a digit it is a
    [ValueError]. *)
Fixpoint int_digits (s : string) (acc : Z) : res Z :=
  match s with
  | EmptyString => Ok acc
  | String c rest =>
      if (c =? "0")%char then int_digits rest (2 * acc)
      else if (c =? "1")%char then int_digits rest (2 * acc + 1)
      else Raise ValueError
  end.

Definition int_base2 (s : string) : res Z :=
  match s with
  | EmptyString => Raise ValueError
  | String c rest =>
      if (c =? "-")%char then
        match rest with
        | EmptyString => Raise ValueError
        | String _ _ => n <- int_digits rest 0 ;; Ok (- n)
        end
      else int_digits s 0
  end.

End PyStr.

(** ** sp_network.py *)

Module SPN.

Record SP_Network : Type := mkSP {
  keys : list Z;
  substitution : dict Z;
  inv_substitution : dict Z;
  permutation : dict Z;
  rounds : Z;
  data_size : Z
}.

(** [SP_Network.__init__] *)
Definition init (ks : list Z) (sub perm : dict Z) : res SP_Network :=
  if negb (len sub =? len perm) then Raise ValueError
  else Ok {| keys := ks;
             substitution := sub;
             inv_substitution := of_items (map (fun kv => (snd kv, fst kv)) sub);
             permutation := perm;
             rounds := Z.of_nat (length ks) - 1;
             data_size := len sub |}.

Section Cipher.

Variable self : SP_Network.

Definition keymix (round_num input_data : Z) : res Z :=
  k <- list_item (keys self) round_num ;;
  Ok (Z.lxor k input_data).

Definition sbox (input_data : Z) (invert : bool) : Z :=
  let sbox_dict := if invert then inv_substitution self else substitution self in
  get_default sbox_dict input_data 0.

Definition permute (input_data : Z) : res Z :=
  for_each (range2 1 (data_size self + 1))
    (fun output_data i =>
       p <- item (permutation self) i ;;
       b <- rshift input_data (data_size self - p) ;;
       s <- lshift (Z.land b 1) (data_size self - i) ;;
       Ok (Z.lor output_data s))
    0.

Definition substitute (input_data : Z) (invert : bool) : res Z :=
  for_each (range3 0 (data_size self) 4)
    (fun output_data i =>
       g <- rshift input_data (data_size self - i - 4) ;;
       let group := Z.land g 15 in
       let sbox_result := sbox group invert in
       Ok (Z.lor (Z.shiftl output_data 4) sbox_result))
    0.

Definition run_round (index input_data : Z) : res Z :=
  buffer <- keymix index input_data ;;
  buffer <- substitute buffer false ;;
  permute buffer.

Definition run_reverse_round (index input_data : Z) : res Z :=
  buffer <- permute input_data ;;
  buffer <- substitute buffer true ;;
  keymix index buffer.

Definition run_last_round (input_data : Z) : res Z :=
  buffer <- keymix (rounds self - 1) input_data ;;
  buffer <- substitute buffer false ;;
  keymix (rounds self) buffer.

Definition run_reverse_last_round (input_data : Z) : res Z :=
  buffer <- keymix (rounds self) input_data ;;
  buffer <- substitute buffer true ;;
  keymix (rounds self - 1) buffer.

Definition encrypt (plain : Z) : res Z :=
  buffer <- for_each (range (rounds self - 1))
              (fun buffer i => run_round i buffer) plain ;;
  run_last_round buffer.

Definition decrypt (cipher : Z) : res Z :=
  buffer <- run_reverse_last_round cipher ;;
  for_each (range3 (rounds self - 2) (-1) (-1))
    (fun buffer i => run_reverse_round i buffer) buffer.

End Cipher.

End SPN.

(** ** Python numbers: [int], and [float] over an arithmetic

    [get_difference_pair_probability] starts from the [int] 1 and multiplies
    by the result of a true division, which is a [float].  The arithmetic of
    [float] is an interface, so that what does not depend on rounding is
    proved once for every arithmetic; its instance [binary64] is IEEE 754
    double precision, what CPython computes. *)

Module Num.

Class FloatOps (F : Type) : Type := {
  of_int : Z -> F;
  fmul : F -> F -> F;
  fdiv : F -> F -> F
}.

Inductive num (F : Type) : Type :=
| PyInt (z : Z)
| PyFloat (f : F).

Arguments PyInt {F} z.
Arguments PyFloat {F} f.

Section Ops.

Context {F : Type} `{FloatOps F}.

(** [a / b] on two ints small enough to convert exactly. *)
Definition truediv (a b : Z) : res (num F) :=
  if b =? 0 then Raise ZeroDivisionError
  else Ok (PyFloat (fdiv (of_int a) (of_int b))).

Definition mul (a b : num F) : num F :=
  match a, b with
  | PyInt x, PyInt y => PyInt (x * y)
  | PyInt x, PyFloat g => PyFloat (fmul (of_int x) g)
  | PyFloat f, PyInt y => PyFloat (fmul f (of_int y))
  | PyFloat f, PyFloat g => PyFloat (fmul f g)
  end.

End Ops.

#[global] Instance binary64 : FloatOps spec_float := {
  of_int z := binary_normalize 53 1024 z 0 false;
  fmul := SFmul 53 1024;
  fdiv := SFdiv 53 1024
}.

End Num.

(** ** differential_cryptanalysis.py *)

Module DCA.

Import Num.

Record DifferentialCryptanalysis : Type := mkDC {
  sp_network : SPN.SP_Network;
  difference_distribution : dict (dict Z);
  data_size : Z
}.

(** [DifferentialCryptanalysis.__init__] *)
Definition init (net : SPN.SP_Network) : DifferentialCryptanalysis :=
  {| sp_network := net;
     difference_distribution := [];
     data_size := SPN.data_size net |}.

Section Analysis.

Variable self : DifferentialCryptanalysis.

(** [self.difference_distribution[delta_x][delta_y] = c] on the nested store. *)
Definition set_cell (dd : dict (dict Z)) (delta_x delta_y c : Z)
  : res (dict (dict Z)) :=
  row <- item dd delta_x ;;
  Ok (set dd delta_x (set row delta_y c)).

Definition calculate_difference_distribution : res DifferentialCryptanalysis :=
  dd <- for_each (range (data_size self))
          (fun dd delta_x =>
             let dd := set dd delta_x [] in
             for_each (range (data_size self))
               (fun dd delta_y =>
                  dd <- set_cell dd delta_x delta_y 0 ;;
                  for_each (range (data_size self))
                    (fun dd x =>
                       let y := SPN.sbox (sp_network self) x false in
                       let x2 := Z.lxor x delta_x in
                       let y2 := SPN.sbox (sp_network self) x2 false in
                       let pred_delta_y := Z.lxor y y2 in
                       if pred_delta_y =? delta_y then
                         row <- item dd delta_x ;;
                         c <- item row delta_y ;;
                         set_cell dd delta_x delta_y (c + 1)
                       else Ok dd)
                    dd)
               dd)
          (difference_distribution self) ;;
  Ok {| sp_network := sp_network self;
        difference_distribution := dd;
        data_size := data_size self |}.

Definition get_max_delta_y (delta_x : Z) : res Z :=
  delta_y_dict <- item (difference_distribution self) delta_x ;;
  max_key delta_y_dict.

(** The shift count [i * 4] is never negative here. *)
Definition get_active_sboxes (input_data : Z) : list Z :=
  fold_left
    (fun active_sboxes i =>
       if 0 <? Z.land (Z.shiftr input_data (i * 4)) 15
       then append active_sboxes (4 - i)
       else active_sboxes)
    (range 4) [].

Definition get_output_difference (input_difference : Z) : res Z :=
  for_each (get_active_sboxes input_difference)
    (fun output i =>
       d <- rshift input_difference (data_size self - i * 4) ;;
       let delta_x := Z.land d 15 in
       delta_y <- get_max_delta_y delta_x ;;
       s <- lshift delta_y (data_size self - i * 4) ;;
       Ok (Z.lor output s))
    0.

Definition get_difference_pair_probability {F : Type} `{FloatOps F} (u v : Z)
  : res (num F) :=
  for_each (range 4)
    (fun probability i =>
       let delta_x := Z.land (Z.shiftr u (i * 4)) 15 in
       let delta_y := Z.land (Z.shiftr v (i * 4)) 15 in
       if (delta_x =? 0) && (delta_y =? 0) then Ok probability
       else
         row <- item (difference_distribution self) delta_x ;;
         c <- item row delta_y ;;
         q <- truediv c (data_size self) ;;
         Ok (mul probability q))
    (PyInt 1).

Definition get_delta_p (delta_x target_sbox : Z) : res Z :=
  lshift delta_x (data_size self - target_sbox * 4).

Definition get_differential_characteristic {F : Type} `{FloatOps F} (delta_p : Z)
  : res (Z * num F) :=
  for_each (range (SPN.rounds (sp_network self) - 1))
    (fun (st : Z * num F) (_ : Z) =>
       let (u, probability) := st in
       v <- get_output_difference u ;;
       q <- get_difference_pair_probability u v ;;
       u <- SPN.permute (sp_network self) v ;;
       Ok (u, mul probability q))
    (delta_p, PyInt 1).

Definition convert_to_block (active_sboxes : list Z) (data : Z) : res Z :=
  let n := Z.of_nat (length active_sboxes) in
  let groups :=
    fold_left (fun groups i => insert0 groups (Z.land (Z.shiftr data (4 * i)) 15))
      (range n) [] in
  for_each (range n)
    (fun output i =>
       sbox_index <- list_item active_sboxes i ;;
       group <- list_item groups i ;;
       s <- lshift group (data_size self - sbox_index * 4) ;;
       Ok (Z.lor output s))
    0.

Definition check_expected_difference
  (partial_decryption_1 partial_decryption_2 diff_characteristic : Z) : bool :=
  Z.lxor partial_decryption_1 partial_decryption_2 =? diff_characteristic.

Definition partial_decrypt (ciphertext subkey_value : Z) : res Z :=
  let partially_decrypted_ciphertext := Z.lxor ciphertext subkey_value in
  SPN.substitute (sp_network self) partially_decrypted_ciphertext true.

(** The generator expression under [sum]: one boolean per ciphertext pair. *)
Definition count_pairs (ciphertext_pairs : list (Z * Z))
  (subkey diff_characteristic : Z) : res Z :=
  for_each ciphertext_pairs
    (fun count (pair : Z * Z) =>
       let (ciphertext_1, ciphertext_2) := pair in
       p1 <- partial_decrypt ciphertext_1 subkey ;;
       p2 <- partial_decrypt ciphertext_2 subkey ;;
       Ok (count + (if check_expected_difference p1 p2 diff_characteristic
                    then 1 else 0)))
    0.

(** The loop of [perform_attack] that fills [subkey_counts]. *)
Definition subkey_counts (ciphertext_pairs : list (Z * Z))
  (diff_characteristic : Z) : res (dict Z) :=
  let active_sboxes := get_active_sboxes diff_characteristic in
  let num_of_keys := (2 ^ 4) ^ Z.of_nat (length active_sboxes) in
  for_each (range2 1 num_of_keys)
    (fun counts i =>
       subkey <- convert_to_block active_sboxes i ;;
       count <- count_pairs ciphertext_pairs subkey diff_characteristic ;;
       Ok (set counts subkey count))
    [].

(** [None] is Python's implicit result when the final [if] is not taken. *)
Definition perform_attack (ciphertext_pairs : list (Z * Z))
  (diff_characteristic : Z) : res (option Z) :=
  counts <- subkey_counts ciphertext_pairs diff_characteristic ;;
  match counts with
  | [] => Ok None
  | _ :: _ => k <- max_key counts ;; Ok (Some k)
  end.

(** [generate_plaintext_and_ciphertext_pairs], with the values drawn by
    [random.randint] given as the list [draws]. *)
Definition generate_plaintext_and_ciphertext_pairs (delta_p : Z) (draws : list Z)
  : res (list (Z * Z)) :=
  for_each draws
    (fun ciphertext_pairs plaintext_1 =>
       let plaintext_2 := Z.lxor plaintext_1 delta_p in
       ciphertext_1 <- SPN.encrypt (sp_network self) plaintext_1 ;;
       ciphertext_2 <- SPN.encrypt (sp_network self) plaintext_2 ;;
       Ok (append ciphertext_pairs (ciphertext_1, ciphertext_2)))
    [].

(** [get_max_frequency_difference]: [None] stands for Python's [None], the
    value of the two differences while no count has exceeded 0. *)
Definition get_max_frequency_difference : option Z * option Z * Z :=
  fold_left
    (fun st (kv : Z * dict Z) =>
       let (delta_x, delta_y_counts) := kv in
       fold_left
         (fun st (kc : Z * Z) =>
            let (delta_y, count) := kc in
            if (delta_x =? 0) && (delta_y =? 0) then st
            else
              let '(_, _, max_frequency) := st in
              if max_frequency <? count
              then (Some delta_x, Some delta_y, count)
              else st)
         delta_y_counts st)
    (difference_distribution self) (None, None, 0).

Import Stdlib.Strings.String.

Definition extract_subkey_bits (subkey_value : Z) : res (list Z) :=
  let subkey_str := PyStr.format_b 16 subkey_value in
  for_each (range3 0 (data_size self) 4)
    (fun extracted_subkey_bits i =>
       if negb (PyStr.slice subkey_str i (i + 4) =? "0000")%string then
         n <- PyStr.int_base2 (PyStr.slice subkey_str i (i + 4)) ;;
         Ok (Py.append extracted_subkey_bits n)
       else Ok extracted_subkey_bits)
    [].

(** The shift count [16 - i * 4] is never negative for [i] in 1 .. 4. *)
Definition get_binary_rep_of_subkey (subkey_value : Z) (active_sboxes : list Z)
  : string :=
  fold_left
    (fun subkey_str i =>
       let sub_bits := Z.land (Z.shiftr subkey_value (16 - i * 4)) 15 in
       (subkey_str
        ++ (if existsb (Z.eqb i) active_sboxes
            then PyStr.format_b 4 sub_bits ++ " "
            else "XXXX "))%string)
    (range2 1 5) ""%string.

End Analysis.

End DCA.

(** ** main.py: the tables of the example driver *)

Definition main_keys : list Z := [1; 2; 3; 4; 516].

Definition main_permutation : dict Z :=
  of_items [(1, 1); (2, 5); (3, 9); (4, 13); (5, 2); (6, 6);
            (7, 10); (8, 14); (9, 3); (10, 7); (11, 11); (12, 15);
            (13, 4); (14, 8); (15, 12); (16, 16)].

Definition main_substitution : dict Z :=
  of_items [(0, 14); (1, 4); (2, 13); (3, 1); (4, 2); (5, 15); (6, 11);
            (7, 8); (8, 3); (9, 10); (10, 6); (11, 12); (12, 5);
            (13, 9); (14, 0); (15, 7)].

(** A cipher description outside the driver: the identity substitution
    with the permutation that moves every position to the next one. *)
Definition identity_substitution : dict Z :=
  of_items [(0, 0); (1, 1); (2, 2); (3, 3); (4, 4); (5, 5); (6, 6); (7, 7);
            (8, 8); (9, 9); (10, 10); (11, 11); (12, 12); (13, 13);
            (14, 14); (15, 15)].

Definition rotation_permutation : dict Z :=
  of_items [(1, 2); (2, 3); (3, 4); (4, 5); (5, 6); (6, 7); (7, 8); (8, 9);
            (9, 10); (10, 11); (11, 12); (12, 13); (13, 14); (14, 15);
            (15, 16); (16, 1)].

(** The substitution table of the driver with the key 15 replaced by 100:
    its values are still the nibble values. *)
Definition stray_substitution : dict Z :=
  of_items [(0, 14); (1, 4); (2, 13); (3, 1); (4, 2); (5, 15); (6, 11);
            (7, 8); (8, 3); (9, 10); (10, 6); (11, 12); (12, 5);
            (13, 9); (14, 0); (100, 7)].

(** A bijective substitution table in whose rows 4, 2 and 14 no count
    exceeds 2, and the permutation that leaves every position in place. *)
Definition flat_substitution : dict Z :=
  of_items [(0, 15); (1, 13); (2, 14); (3, 4); (4, 9); (5, 6); (6, 11);
            (7, 3); (8, 2); (9, 5); (10, 10); (11, 8); (12, 12);
            (13, 1); (14, 0); (15, 7)].

Definition identity_permutation : dict Z :=
  of_items [(1, 1); (2, 2); (3, 3); (4, 4); (5, 5); (6, 6); (7, 7); (8, 8);
            (9, 9); (10, 10); (11, 11); (12, 12); (13, 13); (14, 14);
            (15, 15); (16, 16)].

(** The network and the analysis the driver builds, by evaluation. *)
Definition network_of (ks : list Z) (sub perm : dict Z) : SPN.SP_Network :=
  match SPN.init ks sub perm with
  | Ok n => n
  | Raise _ => SPN.mkSP [] [] [] [] 0 0
  end.

Definition main_network : SPN.SP_Network :=
  Eval vm_compute in network_of main_keys main_substitution main_permutation.

Definition analysis_of (net : SPN.SP_Network) : DCA.DifferentialCryptanalysis :=
  match DCA.calculate_difference_distribution (DCA.init net) with
  | Ok a => a
  | Raise _ => DCA.init net
  end.

Definition main_analysis : DCA.DifferentialCryptanalysis :=
  Eval vm_compute in analysis_of main_network.

(** ** Well-formed cipher descriptions

    The conditions under which the spec calls a cipher description valid,
    as predicates on the embedded network. *)

(** The permutation table is defined on the positions 1 .. N, with values
    among the same positions. *)
Definition perm_defined (net : SPN.SP_Network) : Prop :=
  forall i, 1 <= i <= SPN.data_size net ->
    exists p, get (SPN.permutation net) i = Some p /\ 1 <= p <= SPN.data_size net.

(** [self.permutation[i]], for stating which bit goes where. *)
Definition perm_at (net : SPN.SP_Network) (i : Z) : Z :=
  get_default (SPN.permutation net) i 0.

(** The four-bit group of [x] that starts at bit [4 * k]. *)
Definition nibble (x k : Z) : Z := Z.land (Z.shiftr x (4 * k)) 15.

(** Keys and values of the substitution table are nibble values. *)
Definition sub_in_nibbles (sub : dict Z) : Prop :=
  Forall (fun kv => (0 <= fst kv < 16) /\ (0 <= snd kv < 16)) sub.

(** The values of a table lie in the domain of size [d]. *)
Definition values_below (sub : dict Z) (d : Z) : Prop :=
  Forall (fun kv => 0 <= snd kv < d) sub.

Definition values_below_check (sub : dict Z) (d : Z) : bool :=
  forallb (fun kv => (0 <=? snd kv) && (snd kv <? d)) sub.

(** The round keys fit the block width. *)
Definition keys_in_block (ks : list Z) (n : Z) : Prop :=
  Forall (fun k => 0 <= k < 2 ^ n) ks.

(** A value fits the block width of the network. *)
Definition in_block (net : SPN.SP_Network) (x : Z) : Prop :=
  0 <= x < 2 ^ SPN.data_size net.

(** The difference distribution table in closed form: entry (delta_x,
    delta_y) counts the inputs [x] of the domain whose outputs differ by
    [delta_y] when the inputs differ by [delta_x]. *)
Definition output_difference (net : SPN.SP_Network) (delta_x x : Z) : Z :=
  Z.lxor (SPN.sbox net x false) (SPN.sbox net (Z.lxor x delta_x) false).

Definition count_if (p : Z -> bool) (l : list Z) : Z :=
  Z.of_nat (length (filter p l)).

Definition ddt_count (net : SPN.SP_Network) (delta_x delta_y : Z) : Z :=
  count_if (fun x => output_difference net delta_x x =? delta_y)
    (range (SPN.data_size net)).

Definition ddt_row (net : SPN.SP_Network) (delta_x : Z) : dict Z :=
  map (fun delta_y => (delta_y, ddt_count net delta_x delta_y))
    (range (SPN.data_size net)).

Definition ddt_table (net : SPN.SP_Network) : dict (dict Z) :=
  map (fun delta_x => (delta_x, ddt_row net delta_x)) (range (SPN.data_size net)).

(** The sum of the counts a row holds. *)
Definition sum_values (row : dict Z) : Z := fold_right Z.add 0 (map snd row).

(** [self.difference_distribution[delta_x][delta_y]], read as a number. *)
Definition table_at (a : DCA.DifferentialCryptanalysis) (delta_x delta_y : Z) : Z :=
  match get (DCA.difference_distribution a) delta_x with
  | Some row => get_default row delta_y 0
  | None => 0
  end.

(** The candidate [convert_to_block] returns for the index [i], and the
    count [perform_attack] stores for a candidate, as plain values. *)
Definition block_of (a : DCA.DifferentialCryptanalysis) (active_sboxes : list Z)
  (i : Z) : Z :=
  match DCA.convert_to_block a active_sboxes i with
  | Ok b => b
  | Raise _ => 0
  end.

Definition count_of (a : DCA.DifferentialCryptanalysis)
  (ciphertext_pairs : list (Z * Z)) (diff_characteristic subkey : Z) : Z :=
  match DCA.count_pairs a ciphertext_pairs subkey diff_characteristic with
  | Ok c => c
  | Raise _ => 0
  end.

(** Reads the index back from a candidate: the nibbles at the active
    positions, in the order of the list, most significant first. *)
Definition block_to_index (size : Z) (active_sboxes : list Z) (block : Z) : Z :=
  fold_left
    (fun acc s => Z.lor (Z.shiftl acc 4) (Z.land (Z.shiftr block (size - s * 4)) 15))
    active_sboxes 0.

(** The lists [get_active_sboxes] can return. *)
Definition active_lists : list (list Z) :=
  [ []; [1]; [2]; [2; 1]; [3]; [3; 1]; [3; 2]; [3; 2; 1];
    [4]; [4; 1]; [4; 2]; [4; 2; 1]; [4; 3]; [4; 3; 1]; [4; 3; 2]; [4; 3; 2; 1] ].

(** [p] holds of 0, 1, ..., n - 1; iterated without building the list. *)
Definition all_below (n : Z) (p : Z -> bool) : bool :=
  snd (Z.iter n (fun st => (fst st + 1, snd st && p (fst st))) (0, true)).

(** For the active lists of [lists], every index of the enumeration of
    [perform_attack] yields a candidate, and the candidate determines the
    index. *)
Definition candidates_check (a : DCA.DifferentialCryptanalysis)
  (lists : list (list Z)) : bool :=
  forallb
    (fun active_sboxes =>
       all_below ((2 ^ 4) ^ Z.of_nat (length active_sboxes))
         (fun i =>
            (i =? 0) ||
            match DCA.convert_to_block a active_sboxes i with
            | Ok b => block_to_index (DCA.data_size a) active_sboxes b =? i
            | Raise _ => false
            end))
    lists.

(** An analysis over 16-bit blocks, for evaluating what depends on the
    block width only. *)
Definition analysis_16 : DCA.DifferentialCryptanalysis :=
  DCA.mkDC (SPN.mkSP [] [] [] [] 0 0) [] 16.

(** The column [get_max_delta_y] selects, as a plain value. *)
Definition max_delta_y_of (a : DCA.DifferentialCryptanalysis) (delta_x : Z) : Z :=
  match DCA.get_max_delta_y a delta_x with
  | Ok delta_y => delta_y
  | Raise _ => 0
  end.

(** The nibble [get_output_difference] writes at group [i] of its result:
    the selected output difference where the input nibble is active. *)
Definition predicted_nibble (a : DCA.DifferentialCryptanalysis) (u i : Z) : Z :=
  if 0 <? nibble u i then max_delta_y_of a (nibble u i) else 0.

(** *** Doubles of the unit interval *)

(** The double 1.0. *)
Definition one_double : spec_float := S754_finite false (2 ^ 52) (-52).

(** The value of the finite double with mantissa [m] and exponent [e], in
    units of the smallest positive double, 2^-1074. *)
Definition in_units (m : positive) (e : Z) : Z := Zpos m * 2 ^ (e + 1074).

(** A positive double below 1 that is at least 2^-k. *)
Definition below_one (k : Z) (f : spec_float) : Prop :=
  exists m e,
    f = S754_finite false m e /\ -1074 <= e /\
    2 ^ (1074 - k) <= in_units m e < 2 ^ 1074.

(** A double in [2^-k, 1]. *)
Definition unit_double (k : Z) (f : spec_float) : Prop :=
  f = one_double \/ below_one k f.

(** A double in [0, 1], and in [2^-b, 1] while [b] does not exceed 1074. *)
Definition graded (b : Z) (f : spec_float) : Prop :=
  (b <= 1074 -> unit_double b f) /\
  (f = S754_zero false \/ unit_double 1074 f).

(** The probability of the analysis as Python holds it: the [int] 1 it
    starts from, or a double graded as above. *)
Definition graded_num (b : Z) (x : Num.num spec_float) : Prop :=
  x = Num.PyInt 1 \/ exists f, x = Num.PyFloat f /\ graded b f.

(** The rational a finite double stands for; infinities and NaN stand for
    none. *)
Definition float_value (f : spec_float) : option Q :=
  match f with
  | S754_zero _ => Some 0%Q
  | S754_finite s m e =>
      Some ((if s then inject_Z (Zneg m) else inject_Z (Zpos m)) * 2 ^ e)%Q
  | S754_infinity _ => None
  | S754_nan => None
  end.

Definition double_value (x : Num.num spec_float) : option Q :=
  match x with
  | Num.PyInt z => Some (inject_Z z)
  | Num.PyFloat f => float_value f
  end.

(** Decides [unit_double]. *)
Definition unit_double_check (k : Z) (f : spec_float) : bool :=
  match f with
  | S754_finite false m e =>
      ((m =? 2 ^ 52)%positive && (e =? -52))
      || (((-1074 <=? e) && (2 ^ (1074 - k) <=? in_units m e))
          && (in_units m e <? 2 ^ 1074))
  | _ => false
  end.

(** The factors count / 16 of the probability, for the even counts. *)
Definition factors_check (counts : list Z) : bool :=
  forallb
    (fun c =>
       unit_double_check 3
         (Num.fdiv (F := spec_float) (Num.of_int c) (Num.of_int 16)))
    counts.

(** The substitution table is a bijection of the nibble values: sixteen
    entries, distinct keys and distinct values among 0 .. 15. *)
Definition sub_bijective (sub : dict Z) : Prop :=
  wf sub /\ NoDup (map snd sub) /\ sub_in_nibbles sub /\ len sub = 16.

(** The permutation table is its own inverse. *)
Definition perm_involutive (net : SPN.SP_Network) : Prop :=
  forall i, 1 <= i <= SPN.data_size net -> perm_at net (perm_at net i) = i.

(** Decidable forms, for evaluating the conditions on concrete tables. *)
Definition perm_defined_check (net : SPN.SP_Network) : bool :=
  forallb (fun i => match get (SPN.permutation net) i with
                    | Some p => (1 <=? p) && (p <=? SPN.data_size net)
                    | None => false
                    end)
    (range2 1 (SPN.data_size net + 1)).

Definition sub_in_nibbles_check (sub : dict Z) : bool :=
  forallb (fun kv => ((0 <=? fst kv) && (fst kv <? 16))
                     && ((0 <=? snd kv) && (snd kv <? 16))) sub.

Definition keys_in_block_check (ks : list Z) (n : Z) : bool :=
  forallb (fun k => (0 <=? k) && (k <? 2 ^ n)) ks.

Fixpoint distinct (l : list Z) : bool :=
  match l with
  | [] => true
  | x :: rest => negb (existsb (Z.eqb x) rest) && distinct rest
  end.

Definition sub_bijective_check (sub : dict Z) : bool :=
  distinct (Py.keys sub) && distinct (map snd sub)
  && sub_in_nibbles_check sub && (len sub =? 16).

Definition perm_involutive_check (net : SPN.SP_Network) : bool :=
  forallb (fun i => perm_at net (perm_at net i) =? i)
    (range2 1 (SPN.data_size net + 1)).

(** The permutation table reaches every position 1 .. N. *)
Definition perm_onto (net : SPN.SP_Network) : Prop :=
  forall p, 1 <= p <= SPN.data_size net ->
    exists i, 1 <= i <= SPN.data_size net /\ get (SPN.permutation net) i = Some p.

Definition perm_onto_check (net : SPN.SP_Network) : bool :=
  forallb
    (fun p =>
       existsb (fun i => match get (SPN.permutation net) i with
                         | Some q => q =? p
                         | None => false
                         end)
         (range2 1 (SPN.data_size net + 1)))
    (range2 1 (SPN.data_size net + 1)).

(** The cells (delta_x, delta_y, count) of a table in the order a nested
    iteration over its rows visits them, and those among them that
    [get_max_frequency_difference] does not skip. *)
Definition cells (dd : dict (dict Z)) : list (Z * Z * Z) :=
  flat_map (fun kv => map (fun kc => (fst kv, fst kc, snd kc)) (snd kv)) dd.

Definition skipped (cell : Z * Z * Z) : bool :=
  (fst (fst cell) =? 0) && (snd (fst cell) =? 0).

Definition counted_cells (a : DCA.DifferentialCryptanalysis) : list (Z * Z * Z) :=
  filter (fun cell => negb (skipped cell)) (cells (DCA.difference_distribution a)).

(** For the active lists of [lists], every candidate of the enumeration of
    [perform_attack] is a non-zero block whose non-zero nibbles lie at the
    active positions. *)
Definition confined_check (a : DCA.DifferentialCryptanalysis)
  (lists : list (list Z)) : bool :=
  forallb
    (fun active_sboxes =>
       all_below ((2 ^ 4) ^ Z.of_nat (length active_sboxes))
         (fun i =>
            (i =? 0) ||
            let b := block_of a active_sboxes i in
            ((0 <? b) && (b <? 2 ^ 16))
            && forallb
                 (fun k => (nibble b k =? 0)
                           || existsb (Z.eqb (4 - k)) active_sboxes)
                 [0; 1; 2; 3]))
    lists.

(** Equality of two lists of integers, decided. *)
Fixpoint list_eqb (l l' : list Z) : bool :=
  match l, l' with
  | [], [] => true
  | x :: r, x' :: r' => (x =? x') && list_eqb r r'
  | _, _ => false
  end.

(** The non-zero nibbles of a 16-bit value, most significant first. *)
Definition nonzero_nibbles (x : Z) : list Z :=
  filter (fun w => negb (w =? 0)) [nibble x 3; nibble x 2; nibble x 1; nibble x 0].

(** On every value below [n], [extract_subkey_bits] returns the non-zero
    nibbles, and the formatted value has sixteen characters. *)
Definition extract_check (a : DCA.DifferentialCryptanalysis) (n : Z) : bool :=
  all_below n
    (fun v =>
       match DCA.extract_subkey_bits a v with
       | Ok l => list_eqb l (nonzero_nibbles v)
                 && (String.length (PyStr.format_b 16 v) =? 16)%nat
       | Raise _ => false
       end).

(** The pieces of the text [get_binary_rep_of_subkey] builds. *)
Section Display.

Import Stdlib.Strings.String.

Definition masked_group : string := "XXXX"%string.

Definition separator : string := " "%string.

(** A nibble formatted with four digits reads back as the nibble. *)
Definition format_check : bool :=
  forallb
    (fun w =>
       match PyStr.int_base2 (PyStr.format_b 4 w) with
       | Ok w' => (w' =? w) && (length (PyStr.format_b 4 w) =? 4)%nat
       | Raise _ => false
       end)
    (range 16).

End Display.

(** * Properties *)

(** ** Facts about the runtime fragment *)

Section PyFacts.

Lemma bind_ok {A B : Type} (m : res A) (k : A -> res B) (b : B) :
  bind m k = Ok b <-> exists a, m = Ok a /\ k a = Ok b.
Proof.
  destruct m as [a|e]; simpl; split.
  - intros Hk. exists a. auto.
  - intros [a' [Ha Hk]]. inversion Ha. subst. exact Hk.
  - discriminate.
  - intros [a' [Ha _]]. discriminate.
Qed.

Lemma for_each_app {A X : Type} (l1 l2 : list X) (body : A -> X -> res A) (a : A) :
  for_each (l1 ++ l2) body a = bind (for_each l1 body a) (for_each l2 body).
Proof.
  revert a. induction l1 as [|x l1 IH]; intros a; simpl.
  - reflexivity.
  - destruct (body a x) as [a'|e]; simpl; [apply IH | reflexivity].
Qed.

(** The loop rule: an invariant indexed by the elements already visited. *)
Lemma for_each_prefix_inv {A X : Type} (I : list X -> A -> Prop)
  (body : A -> X -> res A) (l pre : list X) (a : A) :
  I pre a ->
  (forall pre' x acc post, pre ++ l = pre' ++ x :: post -> I pre' acc ->
     exists acc', body acc x = Ok acc' /\ I (pre' ++ [x]) acc') ->
  exists r, for_each l body a = Ok r /\ I (pre ++ l) r.
Proof.
  revert pre a. induction l as [|x l IH]; intros pre a Ha Hstep; simpl.
  - exists a. rewrite app_nil_r. auto.
  - destruct (Hstep pre x a l eq_refl Ha) as [a' [Hb Ha']].
    rewrite Hb. simpl.
    destruct (IH (pre ++ [x]) a' Ha') as [r [Hr HI]].
    + intros pre' y acc post Heq. apply (Hstep pre' y acc post).
      rewrite <- Heq, <- app_assoc. reflexivity.
    + exists r. split; [exact Hr|].
      rewrite <- app_assoc in HI. exact HI.
Qed.

Lemma for_each_inv {A X : Type} (I : list X -> A -> Prop)
  (body : A -> X -> res A) (l : list X) (a : A) :
  I [] a ->
  (forall pre x acc post, l = pre ++ x :: post -> I pre acc ->
     exists acc', body acc x = Ok acc' /\ I (pre ++ [x]) acc') ->
  exists r, for_each l body a = Ok r /\ I l r.
Proof.
  intros Ha Hstep.
  exact (for_each_prefix_inv I body l [] a Ha Hstep).
Qed.

(** A loop whose body cannot raise is a left fold. *)
Lemma for_each_pure {A X : Type} (f : A -> X -> A) (l : list X) (a : A) :
  for_each l (fun acc x => Ok (f acc x)) a = Ok (fold_left f l a).
Proof.
  revert a. induction l as [|x l IH]; intros a; simpl; [reflexivity | apply IH].
Qed.

Lemma count_from_eq (n : nat) (start step : Z) :
  count_from n start step = map (fun i => start + Z.of_nat i * step) (seq 0 n).
Proof.
  revert start. induction n as [|n IH]; intros start; simpl.
  - reflexivity.
  - f_equal; [lia|].
    rewrite IH, <- seq_shift, map_map. apply map_ext. intros i. lia.
Qed.

Lemma range3_eq (start stop step : Z) :
  range3 start stop step
  = map (fun i => start + Z.of_nat i * step)
      (seq 0 (Z.to_nat (if 0 <? step
                        then (stop - start + step - 1) / step
                        else (start - stop - step - 1) / (- step)))).
Proof. unfold range3. apply count_from_eq. Qed.

Lemma range_eq (n : Z) : range n = map Z.of_nat (seq 0 (Z.to_nat n)).
Proof.
  unfold range. rewrite range3_eq. simpl.
  replace (n - 0 + 1 - 1) with n by lia.
  rewrite Z.div_1_r.
  apply map_ext. intros i. lia.
Qed.

Lemma range2_eq (a b : Z) :
  range2 a b = map (fun i => a + Z.of_nat i) (seq 0 (Z.to_nat (b - a))).
Proof.
  unfold range2. rewrite range3_eq. simpl.
  replace (b - a + 1 - 1) with (b - a) by lia.
  rewrite Z.div_1_r.
  apply map_ext. intros i. lia.
Qed.

Lemma in_range (n i : Z) : In i (range n) <-> 0 <= i < n.
Proof.
  rewrite range_eq, in_map_iff. split.
  - intros [k [Hk Hin]]. apply in_seq in Hin. lia.
  - intros Hi. exists (Z.to_nat i). split; [lia|]. apply in_seq. lia.
Qed.

Lemma in_range2 (a b i : Z) : In i (range2 a b) <-> a <= i < b.
Proof.
  rewrite range2_eq, in_map_iff. split.
  - intros [k [Hk Hin]]. apply in_seq in Hin. lia.
  - intros Hi. exists (Z.to_nat (i - a)). split; [lia|]. apply in_seq. lia.
Qed.

Lemma length_range (n : Z) : length (range n) = Z.to_nat n.
Proof. rewrite range_eq, length_map, length_seq. reflexivity. Qed.

Lemma NoDup_range (n : Z) : NoDup (range n).
Proof.
  rewrite range_eq. apply Finite.Injective_map_NoDup.
  - intros x y Hxy. lia.
  - apply seq_NoDup.
Qed.

Lemma seq_from_zero (len s : nat) : seq s len = map (Nat.add s) (seq 0 len).
Proof.
  revert s. induction len as [|len IH]; intros s; simpl.
  - reflexivity.
  - f_equal; [lia|].
    rewrite (IH (S s)), <- (seq_shift len 0), map_map.
    apply map_ext. intros k. lia.
Qed.

(** Split of a range around one of its elements. *)
Lemma range_split (n i : Z) :
  0 <= i < n -> range n = range i ++ i :: range2 (i + 1) n.
Proof.
  intros Hi. rewrite !range_eq, range2_eq.
  replace (Z.to_nat n) with (Z.to_nat i + S (Z.to_nat (n - (i + 1))))%nat by lia.
  rewrite seq_app, map_app. f_equal. simpl. f_equal; [lia|].
  rewrite (seq_from_zero _ (S (Z.to_nat i))), !map_map. apply map_ext.
  intros k. lia.
Qed.

Lemma range_prefix (n : Z) (pre post : list Z) (x : Z) :
  range n = pre ++ x :: post -> pre = range x /\ 0 <= x < n.
Proof.
  intros Heq.
  assert (Hx : 0 <= x < n).
  { apply in_range. rewrite Heq. apply in_or_app. right. left. reflexivity. }
  split; [|exact Hx].
  pose proof (range_split n x Hx) as Hs. rewrite Hs in Heq.
  assert (Hlen : length pre = length (range x)).
  { pose proof (NoDup_range n) as Hnd. rewrite Hs in Hnd.
    destruct (Nat.lt_trichotomy (length pre) (length (range x))) as [Hlt|[He|Hgt]].
    - exfalso.
      assert (Hn : nth_error (range x ++ x :: range2 (x + 1) n) (length pre) = Some x).
      { rewrite Heq, nth_error_app2, Nat.sub_diag by lia. reflexivity. }
      rewrite nth_error_app1 in Hn by lia.
      apply nth_error_In in Hn. apply in_range in Hn. lia.
    - exact He.
    - exfalso.
      assert (Hn : nth_error (pre ++ x :: post) (length (range x)) = Some x).
      { rewrite <- Heq, nth_error_app2, Nat.sub_diag by lia. reflexivity. }
      rewrite nth_error_app1 in Hn by lia.
      assert (Hin : In x pre) by (eapply nth_error_In; eauto).
      pose proof (NoDup_range n) as Hnd'. rewrite Hs, Heq in Hnd'.
      apply NoDup_remove_2 in Hnd'. apply Hnd'. apply in_or_app. left. exact Hin. }
  symmetry in Heq. apply app_eq_app in Heq.
  destruct Heq as [l2 [[H1 H2]|[H1 H2]]].
  - rewrite H1, length_app in Hlen.
    destruct l2; [rewrite app_nil_r in H1; auto | simpl in Hlen; lia].
  - rewrite H1, length_app in Hlen.
    destruct l2; [rewrite app_nil_r in H1; auto | simpl in Hlen; lia].
Qed.

End PyFacts.

(** ** Bits *)

Section BitFacts.

Lemma testbit_one (m : Z) : Z.testbit 1 m = (m =? 0).
Proof.
  destruct (Z.eqb_spec m 0) as [->|Hm]; [reflexivity|].
  destruct (Z_lt_le_dec m 0) as [Hneg|Hpos].
  - apply Z.testbit_neg_r. exact Hneg.
  - apply Z.bits_above_log2; simpl; lia.
Qed.

(** The single bit the loop of [permute] contributes at each step. *)
Lemma testbit_moved_bit (x s t b : Z) :
  0 <= s -> 0 <= t ->
  Z.testbit (Z.shiftl (Z.land (Z.shiftr x s) 1) t) b = (b =? t) && Z.testbit x s.
Proof.
  intros Hs Ht.
  destruct (Z_lt_le_dec b 0) as [Hneg|Hpos].
  - rewrite Z.testbit_neg_r by exact Hneg.
    destruct (Z.eqb_spec b t); [lia | reflexivity].
  - rewrite Z.shiftl_spec by exact Hpos.
    rewrite Z.land_spec, testbit_one.
    destruct (Z.eqb_spec b t) as [->|Hne].
    + rewrite Z.sub_diag, Z.shiftr_spec by lia. simpl.
      rewrite andb_true_r. reflexivity.
    + destruct (Z.eqb_spec (b - t) 0); [lia|].
      rewrite andb_false_r. reflexivity.
Qed.

(** A number all of whose set bits are below position [n] fits in [n] bits. *)
Lemma bits_below_bound (a n : Z) :
  0 <= n ->
  (forall b, Z.testbit a b = true -> 0 <= b < n) ->
  0 <= a < 2 ^ n.
Proof.
  intros Hn Hbits.
  assert (Hmod : a = a mod 2 ^ n).
  { apply Z.bits_inj'. intros b Hb.
    destruct (Z_lt_le_dec b n) as [Hlt|Hge].
    - rewrite Z.mod_pow2_bits_low by lia. reflexivity.
    - rewrite Z.mod_pow2_bits_high by lia.
      destruct (Z.testbit a b) eqn:E; [|reflexivity].
      apply Hbits in E. lia. }
  rewrite Hmod. apply Z.mod_pos_bound. apply Z.pow_pos_nonneg; lia.
Qed.

Lemma testbit_above_bound (a n b : Z) :
  0 <= a < 2 ^ n -> n <= b -> Z.testbit a b = false.
Proof.
  intros Ha Hb.
  destruct (Z_lt_le_dec n 0) as [Hn|Hn].
  - rewrite Z.pow_neg_r in Ha by exact Hn. lia.
  - rewrite <- (Z.mod_small a (2 ^ n)) by exact Ha.
    apply Z.mod_pow2_bits_high. lia.
Qed.

Lemma existsb_select (f : Z -> bool) (n b : Z) (l : list Z) :
  existsb (fun i => (b =? n - i) && f i) l
  = existsb (fun i => i =? n - b) l && f (n - b).
Proof.
  induction l as [|i l IH]; simpl.
  - reflexivity.
  - rewrite IH.
    destruct (Z.eqb_spec b (n - i)) as [Hb|Hb];
      destruct (Z.eqb_spec i (n - b)) as [Hi|Hi]; try lia; simpl.
    + subst i. destruct (f (n - b)); simpl; [reflexivity|].
      rewrite andb_false_r. reflexivity.
    + reflexivity.
Qed.

Lemma existsb_eqb_in (k : Z) (l : list Z) :
  existsb (fun i => i =? k) l = true <-> In k l.
Proof.
  rewrite existsb_exists. split.
  - intros [i [Hin Hi]]. apply Z.eqb_eq in Hi. subst. exact Hin.
  - intros Hin. exists k. split; [exact Hin | apply Z.eqb_refl].
Qed.

End BitFacts.

(** ** [permute] *)

Section PermuteFacts.

Variable self : SPN.SP_Network.
Hypothesis Hperm : perm_defined self.

Let N := SPN.data_size self.

(** Every bit of the result of [permute], also those it leaves clear. *)
Lemma permute_bits (x : Z) :
  exists out,
    SPN.permute self x = Ok out /\
    forall b, Z.testbit out b
              = ((0 <=? b) && (b <? N)) && Z.testbit x (N - perm_at self (N - b)).
Proof.
  unfold SPN.permute. fold N.
  destruct (for_each_inv
    (fun pre acc => forall b,
       Z.testbit acc b
       = existsb (fun i => (b =? N - i) && Z.testbit x (N - perm_at self i)) pre)
    (fun output_data i =>
       p <- item (SPN.permutation self) i ;;
       b <- rshift x (N - p) ;;
       s <- lshift (Z.land b 1) (N - i) ;;
       Ok (Z.lor output_data s))
    (range2 1 (N + 1)) 0) as [out [Hout Hinv]].
  - intros b. simpl. apply Z.bits_0.
  - intros pre i acc post Heq Hacc.
    assert (Hi : 1 <= i < N + 1).
    { apply in_range2. rewrite Heq. apply in_or_app. right. left. reflexivity. }
    destruct (Hperm i) as [p [Hp Hpr]]; [fold N; lia|]. fold N in Hpr.
    unfold item. rewrite Hp. simpl.
    unfold rshift, lshift.
    destruct (Z.ltb_spec (N - p) 0) as [?|_]; [lia|]. simpl.
    destruct (Z.ltb_spec (N - i) 0) as [?|_]; [lia|]. simpl.
    eexists. split; [reflexivity|].
    intros b. rewrite Z.lor_spec, Hacc, existsb_app. simpl.
    rewrite testbit_moved_bit by lia.
    unfold perm_at, get_default. rewrite Hp, orb_false_r. reflexivity.
  - exists out. split; [exact Hout|].
    intros b. rewrite Hinv, existsb_select.
    destruct (existsb (fun i => i =? N - b) (range2 1 (N + 1))) eqn:E.
    + apply existsb_eqb_in, in_range2 in E.
      destruct (Z.leb_spec 0 b); [|lia].
      destruct (Z.ltb_spec b N); [|lia]. reflexivity.
    + destruct (Z.leb_spec 0 b) as [H0|H0]; [|reflexivity].
      destruct (Z.ltb_spec b N) as [H1|H1]; [|reflexivity].
      exfalso.
      assert (Hin : In (N - b) (range2 1 (N + 1))) by (apply in_range2; lia).
      apply existsb_eqb_in in Hin. congruence.
Qed.

End PermuteFacts.

(** C5. For a permutation table defined on the positions 1 .. N and every
    input (in particular every input of [0, 2^N)), [permute] returns, and
    for every i from 1 to N the bit of the result at position N - i
    (counted from the least significant bit) is the bit of the input at
    position N - permutation[i]. *)
Theorem permute_moves_bits (self : SPN.SP_Network) (data : Z) :
  perm_defined self ->
  exists out,
    SPN.permute self data = Ok out /\
    forall i p, 1 <= i <= SPN.data_size self ->
      get (SPN.permutation self) i = Some p ->
      Z.testbit out (SPN.data_size self - i)
      = Z.testbit data (SPN.data_size self - p).
Proof.
  intros Hperm.
  destruct (permute_bits self Hperm data) as [out [Hout Hbits]].
  exists out. split; [exact Hout|].
  intros i p Hi Hp. rewrite Hbits.
  replace (SPN.data_size self - (SPN.data_size self - i)) with i by lia.
  unfold perm_at, get_default. rewrite Hp.
  destruct (Z.leb_spec 0 (SPN.data_size self - i)); [|lia].
  destruct (Z.ltb_spec (SPN.data_size self - i) (SPN.data_size self)); [|lia].
  reflexivity.
Qed.

(** ** The decidable forms of the conditions are sound *)

Lemma perm_defined_check_ok (net : SPN.SP_Network) :
  perm_defined_check net = true -> perm_defined net.
Proof.
  unfold perm_defined_check, perm_defined. intros H i Hi.
  rewrite forallb_forall in H.
  specialize (H i). rewrite in_range2 in H.
  specialize (H ltac:(lia)).
  destruct (get (SPN.permutation net) i) as [p|]; [|discriminate].
  exists p. split; [reflexivity | lia].
Qed.

Lemma sub_in_nibbles_check_ok (sub : dict Z) :
  sub_in_nibbles_check sub = true -> sub_in_nibbles sub.
Proof.
  unfold sub_in_nibbles_check, sub_in_nibbles. intros H.
  rewrite forallb_forall in H. apply Forall_forall.
  intros kv Hin. specialize (H kv Hin). lia.
Qed.

Lemma values_below_check_ok (sub : dict Z) (d : Z) :
  values_below_check sub d = true -> values_below sub d.
Proof.
  unfold values_below_check, values_below. intros H.
  rewrite forallb_forall in H. apply Forall_forall.
  intros kv Hin. specialize (H kv Hin). lia.
Qed.

Lemma keys_in_block_check_ok (ks : list Z) (n : Z) :
  keys_in_block_check ks n = true -> keys_in_block ks n.
Proof.
  unfold keys_in_block_check, keys_in_block. intros H.
  rewrite forallb_forall in H. apply Forall_forall.
  intros k Hin. specialize (H k Hin). lia.
Qed.

Lemma permute_moves_bits_witness :
  exists out,
    SPN.permute main_network 782 = Ok out /\
    forall i p, 1 <= i <= SPN.data_size main_network ->
      get (SPN.permutation main_network) i = Some p ->
      Z.testbit out (SPN.data_size main_network - i)
      = Z.testbit 782 (SPN.data_size main_network - p).
Proof.
  apply (permute_moves_bits main_network 782).
  apply perm_defined_check_ok. vm_compute. reflexivity.
Defined.

(** ** Construction *)

(** C7. Construction raises the configuration error ([ValueError]) exactly
    when the two tables differ in size; in that case no network is returned,
    so no cipher operation can run; with tables of equal size it returns a
    network holding the given keys and tables. *)
Theorem init_raises_iff_sizes_differ (ks : list Z) (sub perm : dict Z) :
  (SPN.init ks sub perm = Raise ValueError <-> len sub <> len perm) /\
  (len sub <> len perm -> forall net, SPN.init ks sub perm <> Ok net) /\
  (len sub = len perm ->
     exists net, SPN.init ks sub perm = Ok net /\
       SPN.keys net = ks /\ SPN.substitution net = sub /\
       SPN.permutation net = perm).
Proof.
  unfold SPN.init.
  destruct (Z.eqb_spec (len sub) (len perm)) as [Heq|Hne]; simpl.
  - split; [split; [discriminate | intros H; contradiction]|].
    split; [intros H; contradiction|].
    intros _. eexists. split; [reflexivity|]. simpl. auto.
  - split; [split; auto|].
    split; [intros _ net; discriminate|].
    intros H. contradiction.
Qed.

Lemma init_raises_iff_sizes_differ_witness :
  SPN.init main_keys main_substitution [(1, 1)] = Raise ValueError /\
  exists net, SPN.init main_keys main_substitution main_permutation = Ok net.
Proof.
  split.
  - apply (proj1 (init_raises_iff_sizes_differ main_keys main_substitution [(1, 1)])).
    vm_compute. discriminate.
  - destruct (proj2 (proj2 (init_raises_iff_sizes_differ
                main_keys main_substitution main_permutation)))
      as [net [Hnet _]].
    + vm_compute. reflexivity.
    + exists net. exact Hnet.
Defined.

(** ** Active nibbles *)

(** C8. On the 16-bit block 0x1003 the active-nibble extraction returns the
    list [4; 1]: position 4 (the least significant nibble, 0x3) first, then
    position 1 (the most significant nibble, 0x1). *)
Theorem get_active_sboxes_0x1003 :
  DCA.get_active_sboxes 0x1003 = [4; 1]
  /\ nibble 0x1003 0 = 3 /\ nibble 0x1003 3 = 1
  /\ nibble 0x1003 1 = 0 /\ nibble 0x1003 2 = 0.
Proof. vm_compute. repeat split; reflexivity. Qed.

(** ** [substitute], [keymix] and the block range *)

Section RangeFacts.

Lemma for_each_map {A X Y : Type} (f : X -> Y) (l : list X)
  (body : A -> Y -> res A) (a : A) :
  for_each (map f l) body a = for_each l (fun acc x => body acc (f x)) a.
Proof.
  revert a. induction l as [|x l IH]; intros a; simpl; [reflexivity|].
  destruct (body a (f x)); simpl; [apply IH | reflexivity].
Qed.

Lemma range3_step4 (m : Z) :
  0 <= m -> range3 0 (4 * m) 4 = map (fun j => 4 * j) (range m).
Proof.
  intros Hm. rewrite range_eq, range3_eq.
  change (0 <? 4) with true. cbv beta iota zeta.
  replace ((4 * m - 0 + 4 - 1) / 4) with m
    by (apply Z.div_unique with (r := 3); lia).
  rewrite map_map. apply map_ext. intros i. lia.
Qed.

Lemma in_range3_down (a i : Z) : In i (range3 a (-1) (-1)) -> 0 <= i <= a.
Proof.
  rewrite range3_eq. simpl. rewrite in_map_iff.
  intros [k [Hk Hin]]. apply in_seq in Hin.
  replace (a - -1 - -1 - 1) with (a + 1) in Hin by lia.
  rewrite Z.div_1_r in Hin. lia.
Qed.

Lemma lxor_in_block (a b n : Z) :
  0 <= a < 2 ^ n -> 0 <= b < 2 ^ n -> 0 <= Z.lxor a b < 2 ^ n.
Proof.
  intros Ha Hb.
  destruct (Z_lt_le_dec n 0) as [Hn|Hn].
  { rewrite Z.pow_neg_r in Ha by exact Hn. lia. }
  apply bits_below_bound; [exact Hn|].
  intros i Hi.
  destruct (Z_lt_le_dec i 0) as [Hneg|Hpos].
  { rewrite Z.testbit_neg_r in Hi by exact Hneg. discriminate. }
  destruct (Z_lt_le_dec i n) as [Hlt|Hge]; [lia|].
  rewrite Z.lxor_spec in Hi.
  rewrite (testbit_above_bound a n i), (testbit_above_bound b n i) in Hi by assumption.
  discriminate.
Qed.

Lemma list_item_ok {A : Type} (l : list A) (i : Z) :
  - Z.of_nat (length l) <= i < Z.of_nat (length l) ->
  exists a, list_item l i = Ok a /\ In a l.
Proof.
  intros Hi. unfold list_item.
  set (n := Z.of_nat (length l)) in *.
  set (j := if i <? 0 then i + n else i).
  assert (Hj : 0 <= j < n).
  { unfold j. destruct (Z.ltb_spec i 0); lia. }
  destruct (Z.ltb_spec j 0); [lia|].
  destruct (Z.leb_spec n j); [lia|]. simpl.
  destruct (nth_error l (Z.to_nat j)) as [a|] eqn:E.
  - exists a. split; [reflexivity|]. eapply nth_error_In; eauto.
  - apply nth_error_None in E. lia.
Qed.

(** Values stored in a dictionary built by [of_items] come from the pairs. *)
Lemma get_set_cases {V : Type} (d : dict V) (k k' : Z) (v v' : V) :
  get (set d k v) k' = Some v' -> v' = v \/ get d k' = Some v'.
Proof.
  induction d as [|[k0 v0] d IH]; simpl.
  - destruct (k =? k'); [|discriminate]. intros H. inversion H. auto.
  - destruct (Z.eqb_spec k0 k) as [->|Hne]; simpl.
    + destruct (k =? k'); [intros H; inversion H; auto | auto].
    + destruct (k0 =? k'); [auto | exact IH].
Qed.

Lemma get_of_items_in {V : Type} (l : list (Z * V)) (k : Z) (v : V) :
  get (of_items l) k = Some v -> exists k0, In (k0, v) l.
Proof.
  unfold of_items.
  assert (Hgen : forall d,
    get (fold_left (fun d kv => set d (fst kv) (snd kv)) l d) k = Some v ->
    (exists k0, In (k0, v) l) \/ get d k = Some v).
  { induction l as [|[k1 v1] l IH]; intros d; simpl.
    - auto.
    - intros H. apply IH in H. destruct H as [[k0 H]|H].
      + left. exists k0. auto.
      + apply get_set_cases in H. destruct H as [->|H]; [|auto].
        left. exists k1. auto. }
  intros H. apply Hgen in H. destruct H as [H|H]; [exact H | discriminate].
Qed.

Lemma get_in {V : Type} (d : dict V) (k : Z) (v : V) :
  get d k = Some v -> In (k, v) d.
Proof.
  induction d as [|[k0 v0] d IH]; simpl; [discriminate|].
  destruct (Z.eqb_spec k0 k) as [->|Hne].
  - intros H. inversion H. auto.
  - auto.
Qed.

Variables (ks : list Z) (sub perm : dict Z) (net : SPN.SP_Network).
Hypothesis Hinit : SPN.init ks sub perm = Ok net.

Lemma init_fields :
  SPN.keys net = ks /\ SPN.substitution net = sub /\
  SPN.inv_substitution net = of_items (map (fun kv => (snd kv, fst kv)) sub) /\
  SPN.permutation net = perm /\
  SPN.rounds net = Z.of_nat (length ks) - 1 /\
  SPN.data_size net = len sub /\ len sub = len perm.
Proof.
  unfold SPN.init in Hinit.
  destruct (Z.eqb_spec (len sub) (len perm)) as [Heq|Hne]; simpl in Hinit;
    [|discriminate].
  inversion Hinit. simpl. auto 10.
Qed.

Hypothesis Hsub : sub_in_nibbles sub.

Lemma sbox_in_nibble (g : Z) (invert : bool) : 0 <= SPN.sbox net g invert < 16.
Proof.
  destruct init_fields as [_ [Hs [Hi _]]].
  unfold SPN.sbox, get_default. rewrite Hs, Hi.
  unfold sub_in_nibbles in Hsub. rewrite Forall_forall in Hsub.
  destruct invert.
  - destruct (get _ g) as [v|] eqn:E; [|lia].
    apply get_of_items_in in E. destruct E as [k0 Hin].
    apply in_map_iff in Hin. destruct Hin as [[a b] [Heq Hin]].
    simpl in Heq. inversion Heq. subst.
    apply Hsub in Hin. simpl in Hin. lia.
  - destruct (get sub g) as [v|] eqn:E; [|lia].
    apply get_in, Hsub in E. simpl in E. lia.
Qed.

Let N := SPN.data_size net.

Hypothesis Hwidth : N mod 4 = 0.

(** Every bit of the result of [substitute]: nibble [b / 4] of the input
    goes through the table and lands in the same place. *)
Lemma substitute_bits (x : Z) (invert : bool) :
  exists out,
    SPN.substitute net x invert = Ok out /\
    forall b, Z.testbit out b
              = ((0 <=? b) && (b <? N))
                && Z.testbit (SPN.sbox net (nibble x (b / 4)) invert) (b mod 4).
Proof.
  assert (HN0 : 0 <= N).
  { unfold N. destruct init_fields as [_ [_ [_ [_ [_ [Hd _]]]]]].
    rewrite Hd. unfold len. lia. }
  set (m := N / 4).
  assert (HNm : N = 4 * m) by (unfold m; apply Z.div_exact; lia).
  assert (Hm : 0 <= m) by lia.
  unfold SPN.substitute. fold N. rewrite HNm, range3_step4, for_each_map by exact Hm.
  destruct (for_each_inv
    (fun pre acc =>
       let j := Z.of_nat (length pre) in
       forall b, Z.testbit acc b
                 = ((0 <=? b) && (b <? 4 * j))
                   && Z.testbit (SPN.sbox net (nibble x (m - j + b / 4)) invert)
                        (b mod 4))
    (fun acc j =>
       g <- rshift x (4 * m - 4 * j - 4) ;;
       Ok (Z.lor (Z.shiftl acc 4) (SPN.sbox net (Z.land g 15) invert)))
    (range m) 0) as [out [Hout Hinv]].
  - cbv beta zeta. intros b. rewrite Z.bits_0.
    change (4 * Z.of_nat (length (@nil Z))) with 0.
    destruct (Z.leb_spec 0 b); destruct (Z.ltb_spec b 0);
      try reflexivity; lia.
  - intros pre j acc post Heq Hacc.
    apply range_prefix in Heq. destruct Heq as [Hpre Hj].
    assert (Hlen : Z.of_nat (length pre) = j).
    { rewrite Hpre, length_range. lia. }
    cbv beta zeta in Hacc. rewrite Hlen in Hacc.
    unfold rshift. destruct (Z.ltb_spec (4 * m - 4 * j - 4) 0); [lia|].
    cbn [bind].
    eexists. split; [reflexivity|].
    cbv beta zeta. intros b. rewrite length_app. simpl length.
    replace (Z.of_nat (length pre + 1)) with (j + 1) by lia.
    rewrite Z.lor_spec.
    pose proof (sbox_in_nibble (Z.land (Z.shiftr x (4 * m - 4 * j - 4)) 15) invert)
      as Hs.
    destruct (Z_lt_le_dec b 0) as [Hneg|Hpos].
    { rewrite !Z.testbit_neg_r by lia.
      destruct (Z.leb_spec 0 b); [lia | reflexivity]. }
    rewrite Z.shiftl_spec by exact Hpos.
    destruct (Z_lt_le_dec b 4) as [Hlow|Hhigh].
    + rewrite (Z.testbit_neg_r acc) by lia. cbn [orb].
      destruct (Z.leb_spec 0 b); [|lia].
      destruct (Z.ltb_spec b (4 * (j + 1))); [|lia]. cbn [andb].
      rewrite Z.div_small, Z.mod_small by lia.
      unfold nibble.
      replace (4 * (m - (j + 1) + 0)) with (4 * m - 4 * j - 4) by lia.
      reflexivity.
    + rewrite (testbit_above_bound _ 4 b) by (try change (2 ^ 4) with 16; lia).
      rewrite orb_false_r, Hacc.
      replace ((b - 4) / 4) with (b / 4 - 1)
        by (apply Z.div_unique with (r := b mod 4);
            [pose proof (Z.mod_pos_bound b 4); lia
            | pose proof (Z.div_mod b 4); lia]).
      replace ((b - 4) mod 4) with (b mod 4)
        by (apply Z.mod_unique with (q := b / 4 - 1);
            [pose proof (Z.mod_pos_bound b 4); lia
            | pose proof (Z.div_mod b 4); lia]).
      replace (m - (j + 1) + b / 4) with (m - j + (b / 4 - 1)) by lia.
      f_equal.
      destruct (Z.leb_spec 0 (b - 4)); [|lia].
      destruct (Z.leb_spec 0 b); [|lia].
      destruct (Z.ltb_spec (b - 4) (4 * j));
        destruct (Z.ltb_spec b (4 * (j + 1))); try lia; reflexivity.
  - exists out. split; [exact Hout|].
    intros b. cbv beta zeta in Hinv. rewrite Hinv, length_range.
    replace (Z.of_nat (Z.to_nat m)) with m by lia.
    rewrite <- HNm. do 4 f_equal. lia.
Qed.

End RangeFacts.

(** ** Range preservation *)

Section BlockRange.

Variables (ks : list Z) (sub perm : dict Z) (net : SPN.SP_Network).
Hypothesis Hinit : SPN.init ks sub perm = Ok net.
Hypothesis Hsub : sub_in_nibbles sub.
Hypothesis Hwidth : SPN.data_size net mod 4 = 0.
Hypothesis Hperm : perm_defined net.
Hypothesis Hkeys : keys_in_block ks (SPN.data_size net).

Lemma data_size_nonneg : 0 <= SPN.data_size net.
Proof.
  destruct (init_fields ks sub perm net Hinit) as [_ [_ [_ [_ [_ [Hd _]]]]]].
  rewrite Hd. unfold len. lia.
Qed.

Lemma permute_in_block (x : Z) :
  exists y, SPN.permute net x = Ok y /\ in_block net y.
Proof.
  destruct (permute_bits net Hperm x) as [y [Hy Hbits]].
  exists y. split; [exact Hy|].
  apply bits_below_bound; [apply data_size_nonneg|].
  intros b Hb. rewrite Hbits in Hb.
  destruct (Z.leb_spec 0 b); [|discriminate].
  destruct (Z.ltb_spec b (SPN.data_size net)); [lia | discriminate].
Qed.

Lemma substitute_in_block (x : Z) (invert : bool) :
  exists y, SPN.substitute net x invert = Ok y /\ in_block net y.
Proof.
  destruct (substitute_bits ks sub perm net Hinit Hsub Hwidth x invert)
    as [y [Hy Hbits]].
  exists y. split; [exact Hy|].
  apply bits_below_bound; [apply data_size_nonneg|].
  intros b Hb. rewrite Hbits in Hb.
  destruct (Z.leb_spec 0 b); [|discriminate].
  destruct (Z.ltb_spec b (SPN.data_size net)); [lia | discriminate].
Qed.

Lemma keymix_in_block (r x : Z) :
  - Z.of_nat (length ks) <= r < Z.of_nat (length ks) ->
  in_block net x ->
  exists y, SPN.keymix net r x = Ok y /\ in_block net y.
Proof.
  intros Hr Hx. unfold SPN.keymix.
  destruct (init_fields ks sub perm net Hinit) as [Hk _]. rewrite Hk.
  destruct (list_item_ok ks r Hr) as [k [Hitem Hin]].
  rewrite Hitem. simpl. eexists. split; [reflexivity|].
  unfold keys_in_block in Hkeys. rewrite Forall_forall in Hkeys.
  apply lxor_in_block; [apply Hkeys; exact Hin | exact Hx].
Qed.

Lemma rounds_eq : SPN.rounds net = Z.of_nat (length ks) - 1.
Proof. destruct (init_fields ks sub perm net Hinit) as [_ [_ [_ [_ [Hr _]]]]]. exact Hr. Qed.

Hypothesis Hnonempty : ks <> [].

Lemma length_keys_pos : 0 < Z.of_nat (length ks).
Proof. destruct ks; [contradiction | simpl; lia]. Qed.

Lemma run_round_in_block (i x : Z) :
  0 <= i < Z.of_nat (length ks) -> in_block net x ->
  exists y, SPN.run_round net i x = Ok y /\ in_block net y.
Proof.
  intros Hi Hx. unfold SPN.run_round.
  destruct (keymix_in_block i x) as [a [Ha Hab]]; [lia | exact Hx|].
  rewrite Ha. simpl.
  destruct (substitute_in_block a false) as [b [Hb _]]. rewrite Hb. simpl.
  apply permute_in_block.
Qed.

Lemma run_reverse_round_in_block (i x : Z) :
  0 <= i < Z.of_nat (length ks) ->
  exists y, SPN.run_reverse_round net i x = Ok y /\ in_block net y.
Proof.
  intros Hi. unfold SPN.run_reverse_round.
  destruct (permute_in_block x) as [a [Ha _]]. rewrite Ha. simpl.
  destruct (substitute_in_block a true) as [b [Hb Hbb]]. rewrite Hb. simpl.
  apply keymix_in_block; [lia | exact Hbb].
Qed.

Lemma run_last_round_in_block (x : Z) :
  in_block net x ->
  exists y, SPN.run_last_round net x = Ok y /\ in_block net y.
Proof.
  intros Hx. unfold SPN.run_last_round. rewrite rounds_eq.
  pose proof length_keys_pos as Hl.
  destruct (keymix_in_block (Z.of_nat (length ks) - 1 - 1) x) as [a [Ha _]];
    [lia | exact Hx|].
  rewrite Ha. simpl.
  destruct (substitute_in_block a false) as [b [Hb Hbb]]. rewrite Hb. simpl.
  apply keymix_in_block; [lia | exact Hbb].
Qed.

Lemma run_reverse_last_round_in_block (x : Z) :
  in_block net x ->
  exists y, SPN.run_reverse_last_round net x = Ok y /\ in_block net y.
Proof.
  intros Hx. unfold SPN.run_reverse_last_round. rewrite rounds_eq.
  pose proof length_keys_pos as Hl.
  destruct (keymix_in_block (Z.of_nat (length ks) - 1) x) as [a [Ha _]];
    [lia | exact Hx|].
  rewrite Ha. simpl.
  destruct (substitute_in_block a true) as [b [Hb Hbb]]. rewrite Hb. simpl.
  apply keymix_in_block; [lia | exact Hbb].
Qed.

Lemma encrypt_in_block (x : Z) :
  in_block net x ->
  exists y, SPN.encrypt net x = Ok y /\ in_block net y.
Proof.
  intros Hx. unfold SPN.encrypt.
  destruct (for_each_inv (fun _ acc => in_block net acc)
              (fun buffer i => SPN.run_round net i buffer)
              (range (SPN.rounds net - 1)) x) as [a [Ha Hab]].
  - exact Hx.
  - intros pre i acc post Heq Hacc.
    apply range_prefix in Heq. destruct Heq as [_ Hi].
    rewrite rounds_eq in Hi.
    apply run_round_in_block; [lia | exact Hacc].
  - rewrite Ha. simpl. apply run_last_round_in_block. exact Hab.
Qed.

Lemma decrypt_in_block (x : Z) :
  in_block net x ->
  exists y, SPN.decrypt net x = Ok y /\ in_block net y.
Proof.
  intros Hx. unfold SPN.decrypt.
  destruct (run_reverse_last_round_in_block x Hx) as [a [Ha Hab]].
  rewrite Ha. simpl.
  apply (for_each_inv (fun _ acc => in_block net acc)).
  - exact Hab.
  - intros pre i acc post Heq Hacc.
    assert (Hi : In i (range3 (SPN.rounds net - 2) (-1) (-1))).
    { rewrite Heq. apply in_or_app. right. left. reflexivity. }
    apply in_range3_down in Hi. rewrite rounds_eq in Hi.
    apply run_reverse_round_in_block. lia.
Qed.

End BlockRange.

(** C10, counterexample.  Round keys inside the block and table values
    among the nibble values do not keep the results in the block: a table
    key outside the nibble values is what the inverse substitution writes,
    unmasked.  With the tables of the driver, the key 15 replaced by 100,
    [substitute] in the inverse direction takes the block 0x7000 to 413422
    and [decrypt] takes the block 127 out of the block as well. *)
Lemma range_preservation_counterexample :
  exists net,
    SPN.init main_keys stray_substitution main_permutation = Ok net /\
    keys_in_block main_keys (SPN.data_size net) /\
    values_below stray_substitution 16 /\
    in_block net 0x7000 /\
    SPN.substitute net 0x7000 true = Ok 413422 /\
    ~ in_block net 413422 /\
    in_block net 127 /\
    exists y, SPN.decrypt net 127 = Ok y /\ ~ in_block net y.
Proof.
  eexists. split; [vm_compute; reflexivity|].
  split; [apply keys_in_block_check_ok; vm_compute; reflexivity|].
  split; [apply values_below_check_ok; vm_compute; reflexivity|].
  split; [vm_compute; split; [discriminate|reflexivity]|].
  split; [vm_compute; reflexivity|].
  split; [intros [_ H]; vm_compute in H; discriminate|].
  split; [vm_compute; split; [discriminate|reflexivity]|].
  eexists. split; [vm_compute; reflexivity|].
  intros [_ H]. vm_compute in H. discriminate.
Qed.

(** C10, amended.  On a network with at least one round key, round keys
    inside the block, a substitution table whose keys and values are nibble
    values, a block width that is a multiple of 4 and a permutation table
    defined on 1 .. N, [keymix] (at every round index the key list has),
    [substitute] (in both directions), [permute], [encrypt] and [decrypt]
    each return, on an input of the block range [0, 2^N), a result in the
    same range; none of them masks its result. *)
Theorem operations_preserve_block_range
  (ks : list Z) (sub perm : dict Z) (net : SPN.SP_Network) (x : Z) :
  SPN.init ks sub perm = Ok net ->
  ks <> [] ->
  keys_in_block ks (SPN.data_size net) ->
  sub_in_nibbles sub ->
  SPN.data_size net mod 4 = 0 ->
  perm_defined net ->
  in_block net x ->
  (forall r, - Z.of_nat (length ks) <= r < Z.of_nat (length ks) ->
     exists y, SPN.keymix net r x = Ok y /\ in_block net y) /\
  (forall invert, exists y, SPN.substitute net x invert = Ok y /\ in_block net y) /\
  (exists y, SPN.permute net x = Ok y /\ in_block net y) /\
  (exists y, SPN.encrypt net x = Ok y /\ in_block net y) /\
  (exists y, SPN.decrypt net x = Ok y /\ in_block net y).
Proof.
  intros Hinit Hne Hkeys Hsub Hwidth Hperm Hx.
  split; [|split; [|split; [|split]]].
  - intros r Hr. exact (keymix_in_block ks sub perm net Hinit Hkeys r x Hr Hx).
  - intros invert.
    exact (substitute_in_block ks sub perm net Hinit Hsub Hwidth x invert).
  - exact (permute_in_block ks sub perm net Hinit Hperm x).
  - exact (encrypt_in_block ks sub perm net Hinit Hsub Hwidth Hperm Hkeys Hne x Hx).
  - exact (decrypt_in_block ks sub perm net Hinit Hsub Hwidth Hperm Hkeys Hne x Hx).
Qed.

Lemma operations_preserve_block_range_witness :
  (exists y, SPN.encrypt main_network 782 = Ok y /\ in_block main_network y) /\
  (exists y, SPN.decrypt main_network 15580 = Ok y /\ in_block main_network y).
Proof.
  assert (H782 : in_block main_network 782)
    by (vm_compute; split; [discriminate | reflexivity]).
  assert (H15580 : in_block main_network 15580)
    by (vm_compute; split; [discriminate | reflexivity]).
  assert (Hinit : SPN.init main_keys main_substitution main_permutation
                  = Ok main_network) by (vm_compute; reflexivity).
  assert (Hne : main_keys <> []) by discriminate.
  assert (Hk : keys_in_block main_keys (SPN.data_size main_network))
    by (apply keys_in_block_check_ok; vm_compute; reflexivity).
  assert (Hs : sub_in_nibbles main_substitution)
    by (apply sub_in_nibbles_check_ok; vm_compute; reflexivity).
  assert (Hw : SPN.data_size main_network mod 4 = 0) by (vm_compute; reflexivity).
  assert (Hp : perm_defined main_network)
    by (apply perm_defined_check_ok; vm_compute; reflexivity).
  split.
  - exact (proj1 (proj2 (proj2 (proj2 (operations_preserve_block_range
             main_keys main_substitution main_permutation main_network 782
             Hinit Hne Hk Hs Hw Hp H782))))).
  - exact (proj2 (proj2 (proj2 (proj2 (operations_preserve_block_range
             main_keys main_substitution main_permutation main_network 15580
             Hinit Hne Hk Hs Hw Hp H15580))))).
Defined.

(** ** Dictionaries as association lists *)

Section DictFacts.

Context {V : Type}.

Lemma get_set_same (d : dict V) (k : Z) (v : V) : get (set d k v) k = Some v.
Proof.
  induction d as [|[k0 v0] d IH]; simpl.
  - rewrite Z.eqb_refl. reflexivity.
  - destruct (Z.eqb_spec k0 k) as [->|Hne]; simpl.
    + rewrite Z.eqb_refl. reflexivity.
    + destruct (Z.eqb_spec k0 k); [contradiction | exact IH].
Qed.

Lemma set_set (d : dict V) (k : Z) (v v' : V) : set (set d k v) k v' = set d k v'.
Proof.
  induction d as [|[k0 v0] d IH]; simpl.
  - rewrite Z.eqb_refl. reflexivity.
  - destruct (Z.eqb_spec k0 k) as [->|Hne]; simpl.
    + rewrite Z.eqb_refl. reflexivity.
    + destruct (Z.eqb_spec k0 k); [contradiction|]. rewrite IH. reflexivity.
Qed.

Lemma set_fresh (d : dict V) (k : Z) (v : V) :
  ~ In k (Py.keys d) -> set d k v = d ++ [(k, v)].
Proof.
  induction d as [|[k0 v0] d IH]; simpl; intros Hk.
  - reflexivity.
  - destruct (Z.eqb_spec k0 k) as [->|Hne]; [tauto|].
    rewrite IH by tauto. reflexivity.
Qed.

Lemma keys_tabulate (f : Z -> V) (l : list Z) :
  Py.keys (map (fun k => (k, f k)) l) = l.
Proof.
  unfold Py.keys. rewrite map_map. simpl. apply map_id.
Qed.

Lemma get_tabulate (f : Z -> V) (l : list Z) (k : Z) :
  In k l -> get (map (fun k => (k, f k)) l) k = Some (f k).
Proof.
  induction l as [|k0 l IH]; simpl; [tauto|].
  intros [->|Hin].
  - rewrite Z.eqb_refl. reflexivity.
  - destruct (Z.eqb_spec k0 k) as [->|Hne]; [reflexivity | apply IH; exact Hin].
Qed.

End DictFacts.

(** ** The difference distribution table *)

Section TableConstruction.

Lemma set_unchanged {V : Type} (d : dict V) (k : Z) (v : V) :
  get d k = Some v -> set d k v = d.
Proof.
  induction d as [|[k0 v0] d IH]; simpl; [discriminate|].
  destruct (Z.eqb_spec k0 k) as [->|Hne].
  - intros H. inversion H. reflexivity.
  - intros H. rewrite IH by exact H. reflexivity.
Qed.

(** The innermost loop adds to one cell the number of matching inputs. *)
Lemma count_loop (p : Z -> bool) (delta_x delta_y : Z) (xs : list Z) :
  forall (dd : dict (dict Z)) (row : dict Z) (c0 : Z),
  get dd delta_x = Some row -> get row delta_y = Some c0 ->
  for_each xs
    (fun dd x =>
       if p x then
         row <- item dd delta_x ;;
         c <- item row delta_y ;;
         DCA.set_cell dd delta_x delta_y (c + 1)
       else Ok dd) dd
  = Ok (set dd delta_x (set row delta_y (c0 + count_if p xs))).
Proof.
  unfold count_if.
  induction xs as [|x xs IH]; intros dd row c0 Hrow Hc; simpl.
  - rewrite Z.add_0_r, (set_unchanged row), (set_unchanged dd) by assumption.
    reflexivity.
  - destruct (p x) eqn:Hp.
    + unfold item, DCA.set_cell, item. rewrite Hrow. cbn [bind].
      rewrite Hc. cbn [bind].
      rewrite (IH _ (set row delta_y (c0 + 1)) (c0 + 1)).
      * rewrite !set_set. do 3 f_equal. simpl length. lia.
      * apply get_set_same.
      * apply get_set_same.
    + cbn [bind]. apply IH; assumption.
Qed.

Variable net : SPN.SP_Network.

Let D := SPN.data_size net.

(** The loop over [delta_y] fills the row of [delta_x] from left to right. *)
Lemma row_loop (delta_x : Z) (dd0 : dict (dict Z)) :
  for_each (range D)
    (fun dd delta_y =>
       dd <- DCA.set_cell dd delta_x delta_y 0 ;;
       for_each (range D)
         (fun dd x =>
            let y := SPN.sbox net x false in
            let x2 := Z.lxor x delta_x in
            let y2 := SPN.sbox net x2 false in
            let pred_delta_y := Z.lxor y y2 in
            if pred_delta_y =? delta_y then
              row <- item dd delta_x ;;
              c <- item row delta_y ;;
              DCA.set_cell dd delta_x delta_y (c + 1)
            else Ok dd)
         dd)
    (set dd0 delta_x [])
  = Ok (set dd0 delta_x (ddt_row net delta_x)).
Proof.
  destruct (for_each_inv
    (fun pre dd =>
       dd = set dd0 delta_x
              (map (fun delta_y => (delta_y, ddt_count net delta_x delta_y)) pre))
    (fun dd delta_y =>
       dd <- DCA.set_cell dd delta_x delta_y 0 ;;
       for_each (range D)
         (fun dd x =>
            if output_difference net delta_x x =? delta_y then
              row <- item dd delta_x ;;
              c <- item row delta_y ;;
              DCA.set_cell dd delta_x delta_y (c + 1)
            else Ok dd)
         dd)
    (range D) (set dd0 delta_x [])) as [r [Hr Hinv]].
  - reflexivity.
  - intros pre delta_y acc post Heq Hacc. subst acc.
    assert (Hfresh : ~ In delta_y pre).
    { pose proof (NoDup_range D) as Hnd. rewrite Heq in Hnd.
      apply NoDup_remove_2 in Hnd. intros Hin. apply Hnd.
      apply in_or_app. left. exact Hin. }
    unfold DCA.set_cell at 1, item. rewrite get_set_same. cbn [bind].
    rewrite set_set.
    rewrite (count_loop _ delta_x delta_y (range D) _
               (set (map (fun dy => (dy, ddt_count net delta_x dy)) pre) delta_y 0) 0)
      by apply get_set_same.
    eexists. split; [reflexivity|].
    rewrite !set_set, Z.add_0_l.
    rewrite (set_fresh (map _ pre) delta_y)
      by (rewrite keys_tabulate; exact Hfresh).
    rewrite map_app. reflexivity.
  - rewrite Hinv in Hr. exact Hr.
Qed.

(** [calculate_difference_distribution] on a fresh analysis returns, with
    the table in closed form. *)
Lemma calculate_difference_distribution_table :
  DCA.calculate_difference_distribution (DCA.init net)
  = Ok (DCA.mkDC net (ddt_table net) D).
Proof.
  unfold DCA.calculate_difference_distribution. cbn [DCA.init DCA.data_size
    DCA.sp_network DCA.difference_distribution]. fold D.
  destruct (for_each_inv
    (fun pre dd => dd = map (fun delta_x => (delta_x, ddt_row net delta_x)) pre)
    (fun dd delta_x =>
       let dd := set dd delta_x [] in
       for_each (range D)
         (fun dd delta_y =>
            dd <- DCA.set_cell dd delta_x delta_y 0 ;;
            for_each (range D)
              (fun dd x =>
                 let y := SPN.sbox net x false in
                 let x2 := Z.lxor x delta_x in
                 let y2 := SPN.sbox net x2 false in
                 let pred_delta_y := Z.lxor y y2 in
                 if pred_delta_y =? delta_y then
                   row <- item dd delta_x ;;
                   c <- item row delta_y ;;
                   DCA.set_cell dd delta_x delta_y (c + 1)
                 else Ok dd)
              dd)
         dd)
    (range D) []) as [r [Hr Hinv]].
  - reflexivity.
  - intros pre delta_x acc post Heq Hacc. subst acc.
    assert (Hfresh : ~ In delta_x pre).
    { pose proof (NoDup_range D) as Hnd. rewrite Heq in Hnd.
      apply NoDup_remove_2 in Hnd. intros Hin. apply Hnd.
      apply in_or_app. left. exact Hin. }
    cbv zeta. rewrite row_loop.
    eexists. split; [reflexivity|].
    rewrite set_fresh by (rewrite keys_tabulate; exact Hfresh).
    rewrite map_app. reflexivity.
  - apply bind_ok. exists r. split; [exact Hr|]. rewrite Hinv. reflexivity.
Qed.

End TableConstruction.

(** ** Counting over the rows of the table *)

Section Counting.

Lemma count_if_cons (p : Z -> bool) (x : Z) (xs : list Z) :
  count_if p (x :: xs) = (if p x then 1 else 0) + count_if p xs.
Proof.
  unfold count_if. simpl. destruct (p x); simpl length; lia.
Qed.

Lemma count_if_le (p : Z -> bool) (xs : list Z) :
  count_if p xs <= Z.of_nat (length xs).
Proof. unfold count_if. pose proof (filter_length_le p xs). lia. Qed.

Lemma count_if_ext_in (p q : Z -> bool) (xs : list Z) :
  (forall x, In x xs -> p x = q x) -> count_if p xs = count_if q xs.
Proof.
  intros H. unfold count_if. rewrite (filter_ext_in p q xs H). reflexivity.
Qed.

Lemma count_if_const (b : bool) (xs : list Z) :
  count_if (fun _ => b) xs = if b then Z.of_nat (length xs) else 0.
Proof.
  unfold count_if. induction xs as [|x xs IH]; simpl.
  - destruct b; reflexivity.
  - destruct b; simpl length; lia.
Qed.

Lemma sum_pointwise_add (f g : Z -> Z) (l : list Z) :
  fold_right Z.add 0 (map (fun d => f d + g d) l)
  = fold_right Z.add 0 (map f l) + fold_right Z.add 0 (map g l).
Proof.
  induction l as [|d l IH]; simpl; [reflexivity | rewrite IH; lia].
Qed.

Lemma sum_indicator_absent (v : Z) (l : list Z) :
  ~ In v l ->
  fold_right Z.add 0 (map (fun d => if v =? d then 1 else 0) l) = 0.
Proof.
  induction l as [|d l IH]; simpl; intros Hv; [reflexivity|].
  destruct (Z.eqb_spec v d) as [->|Hne]; [tauto|].
  rewrite IH by tauto. reflexivity.
Qed.

Lemma sum_indicator_present (v : Z) (l : list Z) :
  NoDup l -> In v l ->
  fold_right Z.add 0 (map (fun d => if v =? d then 1 else 0) l) = 1.
Proof.
  induction l as [|d l IH]; simpl; intros Hnd Hv; [contradiction|].
  inversion Hnd as [|? ? Hd Hnd']. subst.
  destruct (Z.eqb_spec v d) as [->|Hne].
  - rewrite sum_indicator_absent by exact Hd. reflexivity.
  - destruct Hv as [Hv|Hv]; [congruence|]. rewrite IH by assumption. reflexivity.
Qed.

(** Each input lands in exactly one column, so the columns add up to the
    number of inputs. *)
Lemma sum_of_counts (h : Z -> Z) (l xs : list Z) :
  NoDup l -> (forall x, In x xs -> In (h x) l) ->
  fold_right Z.add 0 (map (fun d => count_if (fun x => h x =? d) xs) l)
  = Z.of_nat (length xs).
Proof.
  intros Hnd. induction xs as [|x xs IH]; intros Hin.
  - unfold count_if. simpl. clear Hnd Hin.
    induction l as [|d l IHl]; simpl; [reflexivity | rewrite IHl; reflexivity].
  - rewrite (map_ext _ (fun d => (if h x =? d then 1 else 0)
                                 + count_if (fun x => h x =? d) xs))
      by (intros d; apply (count_if_cons (fun x => h x =? d))).
    rewrite sum_pointwise_add, IH by (intros y Hy; apply Hin; right; exact Hy).
    rewrite sum_indicator_present by (try exact Hnd; apply Hin; left; reflexivity).
    simpl length. lia.
Qed.

Lemma sum_values_tabulate (c : Z -> Z) (l : list Z) :
  sum_values (map (fun d => (d, c d)) l) = fold_right Z.add 0 (map c l).
Proof. unfold sum_values. rewrite map_map. reflexivity. Qed.

Lemma filter_length_permutation (p : Z -> bool) (l l' : list Z) :
  Permutation l l' -> length (filter p l) = length (filter p l').
Proof.
  induction 1 as [|x l l' _ IH|x y l|l l' l'' _ IH1 _ IH2]; simpl.
  - reflexivity.
  - destruct (p x); simpl; congruence.
  - destruct (p x), (p y); reflexivity.
  - congruence.
Qed.

Lemma count_if_split (p q r : Z -> bool) (l : list Z) :
  (forall x, In x l -> p x = true -> xorb (q x) (r x) = true) ->
  count_if p l
  = count_if (fun x => p x && q x) l + count_if (fun x => p x && r x) l.
Proof.
  induction l as [|x l IH]; intros H.
  - reflexivity.
  - rewrite !count_if_cons, IH by (intros y Hy; apply H; right; exact Hy).
    specialize (H x (or_introl eq_refl)).
    destruct (p x); cbn [andb]; [|lia].
    specialize (H eq_refl).
    destruct (q x), (r x); cbn [xorb] in H; try discriminate; lia.
Qed.

(** A property invariant under an involution without fixed points holds of
    an even number of elements. *)
Lemma count_if_involution_even (g : Z -> Z) (p : Z -> bool) (l : list Z) :
  NoDup l ->
  (forall x, In x l -> In (g x) l /\ g (g x) = x /\ g x <> x /\ p (g x) = p x) ->
  count_if p l mod 2 = 0.
Proof.
  intros Hnd Hg.
  set (q := fun x => p x && (x <? g x)).
  assert (Hsplit : count_if p l = count_if q l + count_if (fun x => q (g x)) l).
  { rewrite (count_if_split p (fun x => x <? g x) (fun x => g x <? x)).
    - f_equal. apply count_if_ext_in. intros x Hx.
      destruct (Hg x Hx) as [_ [Hgg [_ Hp]]].
      unfold q. rewrite Hgg, Hp. reflexivity.
    - intros x Hx _. destruct (Hg x Hx) as [_ [_ [Hne _]]].
      destruct (Z.ltb_spec x (g x)), (Z.ltb_spec (g x) x); simpl; try reflexivity; lia. }
  assert (Hperm : Permutation l (map g l)).
  { apply NoDup_Permutation_bis.
    - exact Hnd.
    - rewrite length_map. lia.
    - intros x Hx. destruct (Hg x Hx) as [Hin [Hgg _]].
      rewrite <- Hgg. apply in_map. exact Hin. }
  assert (Hswap : count_if (fun x => q (g x)) l = count_if q l).
  { unfold count_if. f_equal.
    rewrite (filter_length_permutation q l (map g l) Hperm).
    rewrite filter_map_swap, length_map. reflexivity. }
  rewrite Hsplit, Hswap.
  replace (count_if q l + count_if q l) with (count_if q l * 2) by lia.
  apply Z.mod_mul. lia.
Qed.

End Counting.

(** ** Row sums and parity of the table *)

Section TableFacts.

Variables (ks : list Z) (sub perm : dict Z) (net : SPN.SP_Network).
Hypothesis Hinit : SPN.init ks sub perm = Ok net.

Variable k : Z.
Hypothesis Hsize : len sub = 2 ^ k.

Lemma data_size_pow2 : SPN.data_size net = 2 ^ k.
Proof.
  destruct (init_fields ks sub perm net Hinit) as [_ [_ [_ [_ [_ [Hd _]]]]]].
  rewrite Hd. exact Hsize.
Qed.

Lemma sbox_below :
  0 < 2 ^ k ->
  values_below sub (len sub) ->
  forall g, 0 <= SPN.sbox net g false < 2 ^ k.
Proof.
  intros Hpos Hval g.
  destruct (init_fields ks sub perm net Hinit) as [_ [Hs _]].
  unfold SPN.sbox, get_default. rewrite Hs.
  destruct (get sub g) as [v|] eqn:E.
  - unfold values_below in Hval. rewrite Forall_forall in Hval.
    apply get_in, Hval in E. simpl in E. lia.
  - lia.
Qed.

Lemma xor_partner_in_domain (delta_x x : Z) :
  0 <= delta_x < 2 ^ k -> In x (range (2 ^ k)) -> In (Z.lxor x delta_x) (range (2 ^ k)).
Proof.
  intros Hd Hx. apply in_range. apply in_range in Hx.
  apply lxor_in_block; assumption.
Qed.

Lemma row_sum (delta_x : Z) :
  0 < 2 ^ k ->
  values_below sub (len sub) ->
  sum_values (ddt_row net delta_x) = SPN.data_size net.
Proof.
  intros Hpos Hval. unfold ddt_row, ddt_count.
  rewrite sum_values_tabulate.
  rewrite (sum_of_counts (output_difference net delta_x)).
  - rewrite length_range.
    pose proof (data_size_nonneg ks sub perm net Hinit). lia.
  - apply NoDup_range.
  - intros x _. apply in_range. rewrite data_size_pow2.
    unfold output_difference. apply lxor_in_block; apply sbox_below; assumption.
Qed.

Lemma zero_row_count (delta_y : Z) :
  ddt_count net 0 delta_y = if 0 =? delta_y then SPN.data_size net else 0.
Proof.
  unfold ddt_count.
  rewrite (count_if_ext_in _ (fun _ => 0 =? delta_y)).
  - rewrite count_if_const, length_range.
    pose proof (data_size_nonneg ks sub perm net Hinit).
    destruct (0 =? delta_y); lia.
  - intros x _. unfold output_difference.
    rewrite Z.lxor_0_r, Z.lxor_nilpotent. reflexivity.
Qed.

Lemma count_even (delta_x delta_y : Z) :
  1 <= k -> 0 <= delta_x < 2 ^ k -> ddt_count net delta_x delta_y mod 2 = 0.
Proof.
  intros Hk Hd.
  destruct (Z.eq_dec delta_x 0) as [->|Hnz].
  - rewrite zero_row_count. destruct (0 =? delta_y); [|reflexivity].
    rewrite data_size_pow2.
    replace k with (1 + (k - 1)) by lia.
    rewrite Z.pow_add_r by lia.
    rewrite Z.mul_comm. apply Z.mod_mul. lia.
  - unfold ddt_count.
    apply (count_if_involution_even (fun x => Z.lxor x delta_x)).
    + apply NoDup_range.
    + intros x Hx. rewrite data_size_pow2 in *.
      split; [apply xor_partner_in_domain; assumption|].
      assert (Hgg : Z.lxor (Z.lxor x delta_x) delta_x = x).
      { rewrite Z.lxor_assoc, Z.lxor_nilpotent, Z.lxor_0_r. reflexivity. }
      split; [exact Hgg|]. split.
      * intros Heq. apply Hnz.
        assert (H0 : Z.lxor x (Z.lxor x delta_x) = 0)
          by (rewrite Heq; apply Z.lxor_nilpotent).
        rewrite <- Z.lxor_assoc, Z.lxor_nilpotent, Z.lxor_0_l in H0. exact H0.
      * unfold output_difference. rewrite Hgg.
        rewrite (Z.lxor_comm (SPN.sbox net (Z.lxor x delta_x) false)).
        reflexivity.
Qed.

End TableFacts.

(** C3. For a substitution table over a nibble domain of size D (a power
    of two, with values in the domain), [calculate_difference_distribution]
    returns, the table has a row for every input difference of the domain,
    the row has the columns 0 .. D-1, and its counts add up to D. *)
Theorem ddt_row_sums_to_domain_size
  (ks : list Z) (sub perm : dict Z) (net : SPN.SP_Network) (k delta_x : Z) :
  SPN.init ks sub perm = Ok net ->
  len sub = 2 ^ k ->
  values_below sub (len sub) ->
  0 <= delta_x < len sub ->
  exists a row,
    DCA.calculate_difference_distribution (DCA.init net) = Ok a /\
    get (DCA.difference_distribution a) delta_x = Some row /\
    Py.keys row = range (len sub) /\
    sum_values row = len sub.
Proof.
  intros Hinit Hsize Hval Hdx.
  destruct (init_fields ks sub perm net Hinit) as [_ [_ [_ [_ [_ [Hd _]]]]]].
  exists (DCA.mkDC net (ddt_table net) (SPN.data_size net)), (ddt_row net delta_x).
  split; [apply calculate_difference_distribution_table|].
  cbn [DCA.difference_distribution]. split; [|split].
  - unfold ddt_table.
    apply (get_tabulate (fun d => ddt_row net d)). apply in_range. lia.
  - unfold ddt_row. rewrite <- Hd.
    apply (keys_tabulate (fun d => ddt_count net delta_x d)).
  - rewrite <- Hd. apply (row_sum ks sub perm net Hinit k Hsize); [lia | exact Hval].
Qed.

(** C9. For a substitution table over a domain whose size D is a power of
    two and even (D = 16 in the cipher), every entry of the table built by
    [calculate_difference_distribution] is even. *)
Theorem ddt_entries_even
  (ks : list Z) (sub perm : dict Z) (net : SPN.SP_Network) (k delta_x delta_y : Z) :
  SPN.init ks sub perm = Ok net ->
  len sub = 2 ^ k ->
  1 <= k ->
  0 <= delta_x < len sub ->
  0 <= delta_y < len sub ->
  exists a row c,
    DCA.calculate_difference_distribution (DCA.init net) = Ok a /\
    get (DCA.difference_distribution a) delta_x = Some row /\
    get row delta_y = Some c /\
    c mod 2 = 0.
Proof.
  intros Hinit Hsize Hk Hdx Hdy.
  destruct (init_fields ks sub perm net Hinit) as [_ [_ [_ [_ [_ [Hd _]]]]]].
  exists (DCA.mkDC net (ddt_table net) (SPN.data_size net)), (ddt_row net delta_x),
    (ddt_count net delta_x delta_y).
  split; [apply calculate_difference_distribution_table|].
  cbn [DCA.difference_distribution]. split; [|split].
  - unfold ddt_table.
    apply (get_tabulate (fun d => ddt_row net d)). apply in_range. lia.
  - unfold ddt_row.
    apply (get_tabulate (fun d => ddt_count net delta_x d)). apply in_range. lia.
  - apply (count_even ks sub perm net Hinit k Hsize); lia.
Qed.

Lemma ddt_row_sums_to_domain_size_witness :
  exists a row,
    DCA.calculate_difference_distribution (DCA.init main_network) = Ok a /\
    get (DCA.difference_distribution a) 11 = Some row /\
    Py.keys row = range (len main_substitution) /\
    sum_values row = len main_substitution.
Proof.
  apply (ddt_row_sums_to_domain_size
           main_keys main_substitution main_permutation main_network 4 11).
  - vm_compute. reflexivity.
  - vm_compute. reflexivity.
  - apply values_below_check_ok. vm_compute. reflexivity.
  - vm_compute. split; [discriminate | reflexivity].
Defined.

Lemma ddt_entries_even_witness :
  exists a row c,
    DCA.calculate_difference_distribution (DCA.init main_network) = Ok a /\
    get (DCA.difference_distribution a) 11 = Some row /\
    get row 2 = Some c /\
    c mod 2 = 0.
Proof.
  apply (ddt_entries_even
           main_keys main_substitution main_permutation main_network 4 11 2).
  - vm_compute. reflexivity.
  - vm_compute. reflexivity.
  - lia.
  - vm_compute. split; [discriminate | reflexivity].
  - vm_compute. split; [discriminate | reflexivity].
Defined.

(** ** [max] returns the first maximum *)

Section FirstMaximum.

Context {A : Type}.
Variable key : A -> Z.

Lemma max_from_first (l : list A) :
  forall best, exists pre post,
    best :: l = pre ++ max_from key best l :: post /\
    (forall x, In x pre -> key x < key (max_from key best l)) /\
    (forall x, In x post -> key x <= key (max_from key best l)).
Proof.
  induction l as [|x l IH]; intros best; simpl.
  - exists [], []. split; [reflexivity|]. split; intros y [].
  - destruct (Z.ltb_spec (key best) (key x)) as [Hlt|Hge].
    + destruct (IH x) as [pre [post [Heq [Hpre Hpost]]]].
      set (m := max_from key x l) in *.
      exists (best :: pre), post. split; [rewrite Heq; reflexivity|].
      split; [|exact Hpost].
      intros y [<-|Hy]; [|apply Hpre; exact Hy].
      destruct pre as [|z pre]; simpl in Heq; injection Heq as Hx Hl.
      * rewrite <- Hx. exact Hlt.
      * subst z. specialize (Hpre x (or_introl eq_refl)). lia.
    + destruct (IH best) as [pre [post [Heq [Hpre Hpost]]]].
      set (m := max_from key best l) in *.
      destruct pre as [|z pre]; simpl in Heq; injection Heq as Hb Hl.
      * exists [], (x :: l). split; [simpl; rewrite <- Hb; reflexivity|].
        split; [intros y []|].
        intros y [<-|Hy]; [rewrite <- Hb; exact Hge|].
        apply Hpost. rewrite <- Hl. exact Hy.
      * subst z.
        exists (best :: x :: pre), post. split; [simpl; rewrite Hl; reflexivity|].
        split; [|exact Hpost].
        intros y [<-|[<-|Hy]].
        -- apply Hpre. left. reflexivity.
        -- specialize (Hpre best (or_introl eq_refl)). lia.
        -- apply Hpre. right. exact Hy.
Qed.

Lemma max_by_first (l : list A) :
  l <> [] ->
  exists pre m post,
    max_by key l = Ok m /\ l = pre ++ m :: post /\
    (forall x, In x pre -> key x < key m) /\
    (forall x, In x post -> key x <= key m).
Proof.
  destruct l as [|x l]; [contradiction|]. intros _.
  destruct (max_from_first l x) as [pre [post [Heq [Hpre Hpost]]]].
  exists pre, (max_from key x l), post. simpl. auto.
Qed.

End FirstMaximum.

Lemma range2_cons (a b : Z) : a < b -> range2 a b = a :: range2 (a + 1) b.
Proof.
  intros Hab. rewrite !range2_eq.
  replace (Z.to_nat (b - a)) with (S (Z.to_nat (b - (a + 1)))) by lia.
  simpl. f_equal; [lia|].
  rewrite <- seq_shift, map_map. apply map_ext. intros i. lia.
Qed.

Lemma range2_split (l1 : list Z) :
  forall a b x l2, range2 a b = l1 ++ x :: l2 ->
    a <= x < b /\ (forall y, In y l1 -> a <= y < x) /\ (forall y, In y l2 -> x < y < b).
Proof.
  induction l1 as [|z l1 IH]; intros a b x l2 Heq.
  - assert (Hx : a <= x < b).
    { apply in_range2. rewrite Heq. left. reflexivity. }
    rewrite range2_cons in Heq by lia. simpl in Heq. injection Heq as Ha Hl.
    split; [lia|]. split; [intros y []|].
    intros y Hy. rewrite <- Hl in Hy. apply in_range2 in Hy. lia.
  - assert (Hz : a <= z < b).
    { apply in_range2. rewrite Heq. left. reflexivity. }
    rewrite range2_cons in Heq by lia. simpl in Heq. injection Heq as Ha Hl.
    destruct (IH _ _ _ _ Hl) as [Hx [Hpre Hpost]].
    split; [lia|]. split.
    + intros y [<-|Hy]; [lia|]. specialize (Hpre y Hy). lia.
    + exact Hpost.
Qed.

(** ** The tie-break of [get_max_delta_y] *)

Lemma get_max_delta_y_first_maximum (net : SPN.SP_Network) (delta_x : Z) :
  0 <= delta_x < SPN.data_size net ->
  let a := DCA.mkDC net (ddt_table net) (SPN.data_size net) in
  exists delta_y,
    DCA.get_max_delta_y a delta_x = Ok delta_y /\
    0 <= delta_y < SPN.data_size net /\
    (forall d, 0 <= d < SPN.data_size net ->
       table_at a delta_x d <= table_at a delta_x delta_y) /\
    (forall d, 0 <= d < delta_y ->
       table_at a delta_x d < table_at a delta_x delta_y).
Proof.
  intros Hdx a.
  assert (Hrow : get (DCA.difference_distribution a) delta_x
                 = Some (ddt_row net delta_x)).
  { apply (get_tabulate (fun d => ddt_row net d)). apply in_range. exact Hdx. }
  unfold DCA.get_max_delta_y, item, table_at. rewrite Hrow. cbn [bind].
  unfold max_key.
  assert (Hkeys : Py.keys (ddt_row net delta_x) = range (SPN.data_size net))
    by apply (keys_tabulate (fun d => ddt_count net delta_x d)).
  rewrite Hkeys.
  destruct (max_by_first (fun k => get_default (ddt_row net delta_x) k 0)
              (range (SPN.data_size net))) as [pre [m [post [Hmax [Heq [Hpre Hpost]]]]]].
  { intros Hnil. assert (Hin : In delta_x (range (SPN.data_size net)))
      by (apply in_range; exact Hdx).
    rewrite Hnil in Hin. exact Hin. }
  exists m. split; [exact Hmax|].
  destruct (range_prefix _ _ _ _ Heq) as [Hp Hm].
  split; [exact Hm|]. split.
  - intros d Hd.
    assert (Hin : In d (range (SPN.data_size net))) by (apply in_range; exact Hd).
    rewrite Heq in Hin. apply in_app_or in Hin.
    destruct Hin as [Hin|[<-|Hin]].
    + specialize (Hpre d Hin). lia.
    + lia.
    + apply Hpost. exact Hin.
  - intros d Hd. apply Hpre. rewrite Hp. apply in_range. exact Hd.
Qed.

(** ** The enumeration of [perform_attack] *)

Section Attack.

Lemma get_active_sboxes_cases (input_data : Z) :
  In (DCA.get_active_sboxes input_data) active_lists.
Proof.
  unfold DCA.get_active_sboxes.
  change (range 4) with [0; 1; 2; 3]. cbn [fold_left].
  repeat match goal with
         | |- context [if ?c then _ else _] => destruct c
         end; cbn; tauto.
Qed.

Lemma convert_to_block_data_size (a b : DCA.DifferentialCryptanalysis)
  (active_sboxes : list Z) (i : Z) :
  DCA.data_size a = DCA.data_size b ->
  DCA.convert_to_block a active_sboxes i = DCA.convert_to_block b active_sboxes i.
Proof.
  intros H. unfold DCA.convert_to_block. rewrite H. reflexivity.
Qed.

Lemma all_below_ok (n : Z) (p : Z -> bool) :
  all_below n p = true -> forall i, 0 <= i < n -> p i = true.
Proof.
  unfold all_below. intros H i Hi.
  rewrite iter_nat_of_Z in H by lia.
  assert (Hgen : forall k,
    let st := nat_rect (fun _ => (Z * bool)%type) (0, true)
                (fun _ st => (fst st + 1, snd st && p (fst st))) k in
    fst st = Z.of_nat k /\
    (snd st = true -> forall j, 0 <= j < Z.of_nat k -> p j = true)).
  { induction k as [|k [IH1 IH2]]; cbv zeta.
    - simpl. split; [reflexivity | intros _ j Hj; lia].
    - cbn [nat_rect fst snd]. rewrite IH1. split; [lia|].
      intros Hs j Hj. apply andb_prop in Hs. destruct Hs as [Hs Hp].
      destruct (Z.eq_dec j (Z.of_nat k)) as [->|Hne]; [exact Hp|].
      apply IH2; [exact Hs | lia]. }
  destruct (Hgen (Z.abs_nat n)) as [_ Hall].
  apply Hall; [exact H | lia].
Qed.

Lemma candidates_check_ok (b : DCA.DifferentialCryptanalysis)
  (lists : list (list Z)) (active_sboxes : list Z) (i : Z) :
  candidates_check b lists = true ->
  In active_sboxes lists ->
  1 <= i < (2 ^ 4) ^ Z.of_nat (length active_sboxes) ->
  exists block,
    DCA.convert_to_block b active_sboxes i = Ok block /\
    block_to_index (DCA.data_size b) active_sboxes block = i.
Proof.
  intros Hc Hact Hi. unfold candidates_check in Hc.
  rewrite forallb_forall in Hc.
  specialize (Hc active_sboxes Hact).
  apply all_below_ok with (i := i) in Hc; [|lia].
  destruct (Z.eqb_spec i 0) as [?|_]; [lia|]. cbn [orb] in Hc.
  destruct (DCA.convert_to_block b active_sboxes i) as [block|e]; [|discriminate].
  exists block. split; [reflexivity | apply Z.eqb_eq; exact Hc].
Qed.

Lemma candidates_check_16 : candidates_check analysis_16 active_lists = true.
Proof. vm_compute. reflexivity. Qed.

Variable a : DCA.DifferentialCryptanalysis.
Hypothesis Hsize : DCA.data_size a = 16.
Hypothesis Hwidth : SPN.data_size (DCA.sp_network a) = 16.

Lemma convert_to_block_index_in (active_sboxes : list Z) (i : Z) :
  In active_sboxes active_lists ->
  1 <= i < (2 ^ 4) ^ Z.of_nat (length active_sboxes) ->
  DCA.convert_to_block a active_sboxes i = Ok (block_of a active_sboxes i) /\
  block_to_index 16 active_sboxes (block_of a active_sboxes i) = i.
Proof.
  intros Hact Hi.
  destruct (candidates_check_ok analysis_16 active_lists active_sboxes i
              candidates_check_16 Hact Hi) as [block [Hconv Hback]].
  unfold block_of.
  rewrite (convert_to_block_data_size a analysis_16) by exact Hsize.
  rewrite Hconv. split; [reflexivity | exact Hback].
Qed.

Lemma convert_to_block_index (diff_characteristic i : Z) :
  1 <= i < (2 ^ 4) ^ Z.of_nat (length (DCA.get_active_sboxes diff_characteristic)) ->
  DCA.convert_to_block a (DCA.get_active_sboxes diff_characteristic) i
  = Ok (block_of a (DCA.get_active_sboxes diff_characteristic) i) /\
  block_to_index 16 (DCA.get_active_sboxes diff_characteristic)
    (block_of a (DCA.get_active_sboxes diff_characteristic) i) = i.
Proof.
  apply convert_to_block_index_in. apply get_active_sboxes_cases.
Qed.

Lemma substitute_returns (x : Z) (invert : bool) :
  exists y, SPN.substitute (DCA.sp_network a) x invert = Ok y.
Proof.
  unfold SPN.substitute. rewrite Hwidth.
  change (range3 0 16 4) with [0; 4; 8; 12].
  cbn [for_each]. unfold rshift.
  change (16 - 0 - 4 <? 0) with false. change (16 - 4 - 4 <? 0) with false.
  change (16 - 8 - 4 <? 0) with false. change (16 - 12 - 4 <? 0) with false.
  cbn [bind]. eexists. reflexivity.
Qed.

Lemma count_pairs_returns (ciphertext_pairs : list (Z * Z))
  (subkey diff_characteristic : Z) :
  DCA.count_pairs a ciphertext_pairs subkey diff_characteristic
  = Ok (count_of a ciphertext_pairs diff_characteristic subkey).
Proof.
  unfold count_of.
  destruct (for_each_inv (fun _ (_ : Z) => True)
    (fun count (pair : Z * Z) =>
       let (ciphertext_1, ciphertext_2) := pair in
       p1 <- DCA.partial_decrypt a ciphertext_1 subkey ;;
       p2 <- DCA.partial_decrypt a ciphertext_2 subkey ;;
       Ok (count + (if DCA.check_expected_difference p1 p2 diff_characteristic
                    then 1 else 0)))
    ciphertext_pairs 0) as [c [Hc _]].
  - exact I.
  - intros pre [c1 c2] acc post _ _.
    unfold DCA.partial_decrypt.
    destruct (substitute_returns (Z.lxor c1 subkey) true) as [p1 H1].
    destruct (substitute_returns (Z.lxor c2 subkey) true) as [p2 H2].
    rewrite H1, H2. cbn [bind]. eexists. split; [reflexivity | exact I].
  - unfold DCA.count_pairs. rewrite Hc. reflexivity.
Qed.

(** The dictionary [subkey_counts] after the loop: one entry per index, in
    the order of the enumeration. *)
Lemma subkey_counts_table (ciphertext_pairs : list (Z * Z)) (diff_characteristic : Z) :
  DCA.subkey_counts a ciphertext_pairs diff_characteristic
  = Ok (map (fun subkey =>
               (subkey, count_of a ciphertext_pairs diff_characteristic subkey))
          (map (block_of a (DCA.get_active_sboxes diff_characteristic))
             (range2 1 ((2 ^ 4) ^ Z.of_nat
                          (length (DCA.get_active_sboxes diff_characteristic)))))).
Proof.
  unfold DCA.subkey_counts. cbv zeta.
  pose proof (convert_to_block_index diff_characteristic) as Hindex.
  set (active_sboxes := DCA.get_active_sboxes diff_characteristic) in *.
  set (nk := (2 ^ 4) ^ Z.of_nat (length active_sboxes)) in *.
  destruct (for_each_inv
    (fun pre counts =>
       counts = map (fun subkey =>
                       (subkey, count_of a ciphertext_pairs diff_characteristic subkey))
                  (map (block_of a active_sboxes) pre))
    (fun counts i =>
       subkey <- DCA.convert_to_block a active_sboxes i ;;
       count <- DCA.count_pairs a ciphertext_pairs subkey diff_characteristic ;;
       Ok (set counts subkey count))
    (range2 1 nk) []) as [r [Hr Hinv]].
  - reflexivity.
  - intros pre i acc post Heq Hacc. subst acc.
    destruct (range2_split _ _ _ _ _ Heq) as [Hi [Hpre _]].
    destruct (Hindex i Hi) as [Hconv Hback].
    rewrite Hconv. cbn [bind]. rewrite count_pairs_returns. cbn [bind].
    eexists. split; [reflexivity|].
    rewrite set_fresh.
    + rewrite !map_app. reflexivity.
    + rewrite (keys_tabulate (count_of a ciphertext_pairs diff_characteristic)).
      intros Hin. apply in_map_iff in Hin. destruct Hin as [j [Hj Hjin]].
      specialize (Hpre j Hjin).
      destruct (Hindex j) as [_ Hbackj]; [lia|].
      rewrite Hj, Hback in Hbackj. lia.
  - rewrite <- Hinv. exact Hr.
Qed.

End Attack.

(** ** The selection of [perform_attack] *)

Section Selection.

Variable a : DCA.DifferentialCryptanalysis.
Hypothesis Hsize : DCA.data_size a = 16.
Hypothesis Hwidth : SPN.data_size (DCA.sp_network a) = 16.

Variable ciphertext_pairs : list (Z * Z).
Variable diff_characteristic : Z.

Let active_sboxes := DCA.get_active_sboxes diff_characteristic.
Let num_of_keys := (2 ^ 4) ^ Z.of_nat (length active_sboxes).

Lemma perform_attack_no_active :
  active_sboxes = [] ->
  DCA.perform_attack a ciphertext_pairs diff_characteristic = Ok None.
Proof.
  intros Hnil. unfold DCA.perform_attack.
  rewrite (subkey_counts_table a Hsize Hwidth). fold active_sboxes.
  rewrite Hnil. reflexivity.
Qed.

Lemma num_of_keys_large : active_sboxes <> [] -> 16 <= num_of_keys.
Proof.
  unfold num_of_keys. destruct active_sboxes as [|s rest]; [contradiction|].
  intros _. simpl length. rewrite Nat2Z.inj_succ, Z.pow_succ_r by lia.
  change (2 ^ 4) with 16.
  pose proof (Z.pow_pos_nonneg 16 (Z.of_nat (length rest)) ltac:(lia) ltac:(lia)).
  lia.
Qed.

Lemma perform_attack_first_maximum :
  active_sboxes <> [] ->
  exists i0,
    1 <= i0 < num_of_keys /\
    DCA.perform_attack a ciphertext_pairs diff_characteristic
    = Ok (Some (block_of a active_sboxes i0)) /\
    (forall i, 1 <= i < num_of_keys ->
       count_of a ciphertext_pairs diff_characteristic (block_of a active_sboxes i)
       <= count_of a ciphertext_pairs diff_characteristic (block_of a active_sboxes i0)) /\
    (forall i, 1 <= i < i0 ->
       count_of a ciphertext_pairs diff_characteristic (block_of a active_sboxes i)
       < count_of a ciphertext_pairs diff_characteristic (block_of a active_sboxes i0)).
Proof.
  intros Hact. pose proof (num_of_keys_large Hact) as Hnk.
  unfold DCA.perform_attack.
  rewrite (subkey_counts_table a Hsize Hwidth). fold active_sboxes num_of_keys.
  cbn [bind].
  set (f := count_of a ciphertext_pairs diff_characteristic).
  set (blocks := map (block_of a active_sboxes) (range2 1 num_of_keys)).
  assert (Hne : blocks <> []).
  { unfold blocks. rewrite range2_cons by lia. discriminate. }
  destruct (map (fun subkey => (subkey, f subkey)) blocks) as [|e rest] eqn:Ecounts.
  { destruct blocks; [contradiction | discriminate]. }
  rewrite <- Ecounts. clear e rest Ecounts.
  unfold max_key. rewrite (keys_tabulate f).
  destruct (max_by_first
              (fun k => get_default (map (fun subkey => (subkey, f subkey)) blocks) k 0)
              blocks Hne) as [pre [m [post [Hmax [Heq [Hpre Hpost]]]]]].
  rewrite Hmax. cbn [bind].
  assert (Hkey : forall b, In b blocks ->
            get_default (map (fun subkey => (subkey, f subkey)) blocks) b 0 = f b).
  { intros b Hb. unfold get_default. rewrite (get_tabulate f) by exact Hb. reflexivity. }
  assert (Hm : In m blocks) by (rewrite Heq; apply in_or_app; right; left; reflexivity).
  unfold blocks in Heq. apply map_eq_app in Heq.
  destruct Heq as [l1 [l2' [Hrange [Hl1 Hl2']]]].
  apply map_eq_cons in Hl2'. destruct Hl2' as [i0 [l2 [Hl2 [Hi0 Hpost']]]].
  subst l2'. destruct (range2_split _ _ _ _ _ Hrange) as [Hi0r [Hl1r Hl2r]].
  exists i0. split; [exact Hi0r|]. split; [rewrite Hi0; reflexivity|].
  rewrite Hi0. split.
  - intros i Hi.
    assert (Hin : In i (range2 1 num_of_keys)) by (apply in_range2; exact Hi).
    assert (Hb : In (block_of a active_sboxes i) blocks) by (apply in_map; exact Hin).
    rewrite <- (Hkey _ Hb), <- (Hkey _ Hm).
    rewrite Hrange in Hin. apply in_app_or in Hin.
    destruct Hin as [Hin|[<-|Hin]].
    + assert (Hp : In (block_of a active_sboxes i) pre)
        by (rewrite <- Hl1; apply in_map; exact Hin).
      specialize (Hpre _ Hp). lia.
    + rewrite Hi0. lia.
    + apply Hpost. rewrite <- Hpost'. apply in_map. exact Hin.
  - intros i Hi.
    assert (Hin : In i (range2 1 num_of_keys)) by (apply in_range2; lia).
    assert (Hb : In (block_of a active_sboxes i) blocks) by (apply in_map; exact Hin).
    rewrite <- (Hkey _ Hb), <- (Hkey _ Hm).
    rewrite Hrange in Hin. apply in_app_or in Hin.
    destruct Hin as [Hin|[Heq|Hin]].
    + apply Hpre. rewrite <- Hl1. apply in_map. exact Hin.
    + lia.
    + specialize (Hl2r i Hin). lia.
Qed.

End Selection.

Lemma analysis_fields (ks : list Z) (sub perm : dict Z) (net : SPN.SP_Network) :
  SPN.init ks sub perm = Ok net ->
  len sub = 16 ->
  let a := DCA.mkDC net (ddt_table net) (SPN.data_size net) in
  DCA.data_size a = 16 /\ SPN.data_size (DCA.sp_network a) = 16.
Proof.
  intros Hinit Hlen a.
  destruct (init_fields ks sub perm net Hinit) as [_ [_ [_ [_ [_ [Hd _]]]]]].
  cbn [a DCA.data_size DCA.sp_network]. rewrite Hd, Hlen. split; reflexivity.
Qed.

(** C6. Both maximum selections take the first maximum.  On the table
    built by [calculate_difference_distribution], [get_max_delta_y] returns
    a column of maximal count such that every smaller column has a strictly
    smaller count.  On a 16-bit cipher, [perform_attack] with an active
    nibble in the characteristic returns the candidate generated at an index
    i0 of the enumeration 1, 2, ... whose count is maximal and strictly
    above the count of every candidate generated before it. *)
Theorem maximum_selections_take_first_maximum
  (ks : list Z) (sub perm : dict Z) (net : SPN.SP_Network) :
  SPN.init ks sub perm = Ok net ->
  exists a,
    DCA.calculate_difference_distribution (DCA.init net) = Ok a /\
    (forall delta_x, 0 <= delta_x < len sub ->
       exists delta_y,
         DCA.get_max_delta_y a delta_x = Ok delta_y /\
         0 <= delta_y < len sub /\
         (forall d, 0 <= d < len sub ->
            table_at a delta_x d <= table_at a delta_x delta_y) /\
         (forall d, 0 <= d < delta_y ->
            table_at a delta_x d < table_at a delta_x delta_y)) /\
    (len sub = 16 ->
     forall ciphertext_pairs diff_characteristic,
       let active_sboxes := DCA.get_active_sboxes diff_characteristic in
       let num_of_keys := (2 ^ 4) ^ Z.of_nat (length active_sboxes) in
       active_sboxes <> [] ->
       exists i0 subkey count,
         1 <= i0 < num_of_keys /\
         DCA.convert_to_block a active_sboxes i0 = Ok subkey /\
         DCA.count_pairs a ciphertext_pairs subkey diff_characteristic = Ok count /\
         DCA.perform_attack a ciphertext_pairs diff_characteristic = Ok (Some subkey) /\
         (forall i subkey_i count_i,
            1 <= i < num_of_keys ->
            DCA.convert_to_block a active_sboxes i = Ok subkey_i ->
            DCA.count_pairs a ciphertext_pairs subkey_i diff_characteristic
            = Ok count_i ->
            count_i <= count /\ (i < i0 -> count_i < count))).
Proof.
  intros Hinit.
  destruct (init_fields ks sub perm net Hinit) as [_ [_ [_ [_ [_ [Hd _]]]]]].
  exists (DCA.mkDC net (ddt_table net) (SPN.data_size net)).
  split; [apply calculate_difference_distribution_table|]. split.
  - intros delta_x Hdx. rewrite <- Hd in *.
    exact (get_max_delta_y_first_maximum net delta_x Hdx).
  - intros Hlen ciphertext_pairs diff_characteristic active_sboxes num_of_keys Hact.
    destruct (analysis_fields ks sub perm net Hinit Hlen) as [Hsize Hwidth].
    set (a := DCA.mkDC net (ddt_table net) (SPN.data_size net)) in *.
    destruct (perform_attack_first_maximum a Hsize Hwidth ciphertext_pairs
                diff_characteristic Hact) as [i0 [Hi0 [Hres [Hall Hbefore]]]].
    fold active_sboxes num_of_keys in Hi0, Hres, Hall, Hbefore.
    exists i0, (block_of a active_sboxes i0),
      (count_of a ciphertext_pairs diff_characteristic (block_of a active_sboxes i0)).
    split; [exact Hi0|].
    split; [apply (convert_to_block_index a Hsize diff_characteristic i0 Hi0)|].
    split; [apply (count_pairs_returns a Hwidth)|].
    split; [exact Hres|].
    intros i subkey_i count_i Hi Hconv Hcount.
    destruct (convert_to_block_index a Hsize diff_characteristic i Hi) as [Hconv' _].
    fold active_sboxes in Hconv'. rewrite Hconv' in Hconv.
    injection Hconv as <-.
    rewrite (count_pairs_returns a Hwidth) in Hcount. injection Hcount as <-.
    split; [apply Hall; exact Hi | intros Hlt; apply Hbefore; lia].
Qed.

Lemma maximum_selections_take_first_maximum_witness :
  exists a,
    DCA.calculate_difference_distribution (DCA.init main_network) = Ok a /\
    (exists delta_y,
       DCA.get_max_delta_y a 1 = Ok delta_y /\
       (forall d, 0 <= d < delta_y -> table_at a 1 d < table_at a 1 delta_y)) /\
    (exists subkey,
       DCA.perform_attack a [(0, 0); (1, 3)] 2 = Ok (Some subkey)).
Proof.
  destruct (maximum_selections_take_first_maximum
              main_keys main_substitution main_permutation main_network)
    as [a [Hcalc [Hmax Hattack]]].
  - vm_compute. reflexivity.
  - exists a. split; [exact Hcalc|]. split.
    + destruct (Hmax 1) as [delta_y [Hdy [_ [_ Hfirst]]]].
      * vm_compute. split; [discriminate | reflexivity].
      * exists delta_y. split; [exact Hdy | exact Hfirst].
    + destruct (Hattack eq_refl [(0, 0); (1, 3)] 2) as [i0 [subkey [count H]]].
      * vm_compute. discriminate.
      * exists subkey. apply H.
Defined.

(** ** When [perform_attack] returns a candidate *)

(** C2, counterexample.  With zero ciphertext pairs and a characteristic
    with an active nibble the attack returns a candidate; with one pair
    and the characteristic 0 it returns no result. *)
Lemma perform_attack_result_counterexample :
  DCA.perform_attack main_analysis [] 1 = Ok (Some 1) /\
  DCA.perform_attack main_analysis [(0, 0)] 0 = Ok None.
Proof. vm_compute. split; reflexivity. Qed.

(** C2, amended.  On a 16-bit cipher [perform_attack] returns a subkey
    candidate exactly when the target characteristic has an active nibble
    among its four low nibbles, and no result exactly when it has none,
    whatever the number of ciphertext pairs supplied. *)
Theorem perform_attack_returns_iff_active
  (ks : list Z) (sub perm : dict Z) (net : SPN.SP_Network)
  (ciphertext_pairs : list (Z * Z)) (diff_characteristic : Z) :
  SPN.init ks sub perm = Ok net ->
  len sub = 16 ->
  exists a,
    DCA.calculate_difference_distribution (DCA.init net) = Ok a /\
    (DCA.get_active_sboxes diff_characteristic = [] ->
       DCA.perform_attack a ciphertext_pairs diff_characteristic = Ok None) /\
    (DCA.get_active_sboxes diff_characteristic <> [] ->
       exists subkey,
         DCA.perform_attack a ciphertext_pairs diff_characteristic
         = Ok (Some subkey)).
Proof.
  intros Hinit Hlen.
  destruct (analysis_fields ks sub perm net Hinit Hlen) as [Hsize Hwidth].
  exists (DCA.mkDC net (ddt_table net) (SPN.data_size net)).
  split; [apply calculate_difference_distribution_table|]. split.
  - intros Hnil.
    exact (perform_attack_no_active _ Hsize Hwidth ciphertext_pairs
             diff_characteristic Hnil).
  - intros Hact.
    destruct (perform_attack_first_maximum _ Hsize Hwidth ciphertext_pairs
                diff_characteristic Hact) as [i0 [_ [Hres _]]].
    eexists. exact Hres.
Qed.

Lemma perform_attack_returns_iff_active_witness :
  exists a,
    DCA.calculate_difference_distribution (DCA.init main_network) = Ok a /\
    (DCA.get_active_sboxes 1 = [] -> DCA.perform_attack a [] 1 = Ok None) /\
    (DCA.get_active_sboxes 1 <> [] ->
       exists subkey, DCA.perform_attack a [] 1 = Ok (Some subkey)).
Proof.
  apply (perform_attack_returns_iff_active
           main_keys main_substitution main_permutation main_network [] 1).
  - vm_compute. reflexivity.
  - vm_compute. reflexivity.
Defined.

(** ** Nibbles of a block assembled from nibbles *)

Section Nibbles.

Lemma nibble_range (x k : Z) : 0 <= nibble x k < 16.
Proof.
  unfold nibble. change 15 with (Z.ones 4). rewrite Z.land_ones by lia.
  change 16 with (2 ^ 4). apply Z.mod_pos_bound. lia.
Qed.

Lemma testbit_15 (r : Z) : 0 <= r -> Z.testbit 15 r = (r <? 4).
Proof.
  intros Hr. change 15 with (Z.ones 4).
  destruct (Z.ltb_spec r 4).
  - apply Z.ones_spec_low. lia.
  - apply Z.ones_spec_high. lia.
Qed.

Lemma testbit_fold_lor (g : Z -> Z) (l : list Z) (acc b : Z) :
  Z.testbit (fold_left (fun acc i => Z.lor acc (g i)) l acc) b
  = Z.testbit acc b || existsb (fun i => Z.testbit (g i) b) l.
Proof.
  revert acc. induction l as [|i l IH]; intros acc; simpl.
  - rewrite orb_false_r. reflexivity.
  - rewrite IH, Z.lor_spec, orb_assoc. reflexivity.
Qed.

Lemma testbit_placed_nibble (w i k r : Z) :
  0 <= w < 16 -> 0 <= i -> 0 <= k -> 0 <= r < 4 ->
  Z.testbit (Z.shiftl w (4 * i)) (r + 4 * k) = (i =? k) && Z.testbit w r.
Proof.
  intros Hw Hi Hk Hr. rewrite Z.shiftl_spec by lia.
  destruct (Z.eqb_spec i k) as [->|Hne]; cbn [andb].
  - f_equal. lia.
  - destruct (Z_lt_le_dec i k).
    + apply (testbit_above_bound w 4); [exact Hw | lia].
    + apply Z.testbit_neg_r. lia.
Qed.

Lemma existsb_pick (f : Z -> bool) (k : Z) (l : list Z) :
  existsb (fun i => (i =? k) && f i) l = existsb (fun i => i =? k) l && f k.
Proof.
  induction l as [|i l IH]; simpl; [reflexivity|].
  rewrite IH. destruct (Z.eqb_spec i k) as [->|Hne]; simpl; [|reflexivity].
  destruct (f k); simpl; [reflexivity | rewrite andb_false_r; reflexivity].
Qed.

Lemma existsb_agree (f g : Z -> bool) (l : list Z) :
  (forall i, In i l -> f i = g i) -> existsb f l = existsb g l.
Proof.
  induction l as [|i l IH]; intros H; simpl; [reflexivity|].
  rewrite (H i (or_introl eq_refl)), IH; [reflexivity|].
  intros j Hj. apply H. right. exact Hj.
Qed.

(** Group [k] of a block made by placing the nibble [w i] at group [i]. *)
Lemma nibble_of_placed (w : Z -> Z) (l : list Z) (k : Z) :
  (forall i, 0 <= w i < 16) -> (forall i, In i l -> 0 <= i) -> 0 <= k ->
  nibble (fold_left (fun acc i => Z.lor acc (Z.shiftl (w i) (4 * i))) l 0) k
  = if existsb (fun i => i =? k) l then w k else 0.
Proof.
  intros Hw Hl Hk. unfold nibble. apply Z.bits_inj'. intros r Hr.
  rewrite Z.land_spec, Z.shiftr_spec, testbit_fold_lor, Z.bits_0, testbit_15 by lia.
  cbn [orb].
  destruct (Z.ltb_spec r 4) as [Hlt|Hge].
  - rewrite andb_true_r.
    rewrite (existsb_agree (fun i => Z.testbit (Z.shiftl (w i) (4 * i)) (r + 4 * k))
               (fun i => (i =? k) && Z.testbit (w i) r)).
    + rewrite existsb_pick.
      destruct (existsb (fun i => i =? k) l); simpl; [reflexivity|].
      rewrite Z.bits_0. reflexivity.
    + intros i Hi. apply testbit_placed_nibble; auto; lia.
  - rewrite andb_false_r.
    destruct (existsb (fun i => i =? k) l).
    + symmetry. apply (testbit_above_bound (w k) 4); [apply Hw | lia].
    + rewrite Z.bits_0. reflexivity.
Qed.

Lemma for_each_ext_in {A X : Type} (body body' : A -> X -> res A) (l : list X) :
  (forall x acc, In x l -> body acc x = body' acc x) ->
  forall a, for_each l body a = for_each l body' a.
Proof.
  induction l as [|x l IH]; intros H a; simpl; [reflexivity|].
  rewrite (H x a (or_introl eq_refl)).
  destruct (body' a x); simpl; [|reflexivity].
  apply IH. intros y acc Hy. apply H. right. exact Hy.
Qed.

Lemma for_each_filter {A X : Type} (p : X -> bool) (body : A -> X -> res A)
  (l : list X) :
  forall a,
    for_each (filter p l) body a
    = for_each l (fun acc x => if p x then body acc x else Ok acc) a.
Proof.
  induction l as [|x l IH]; intros a; simpl; [reflexivity|].
  destruct (p x); simpl.
  - destruct (body a x); simpl; [apply IH | reflexivity].
  - apply IH.
Qed.

Lemma get_active_sboxes_filter (input_data : Z) :
  DCA.get_active_sboxes input_data
  = map (fun i => 4 - i) (filter (fun i => 0 <? nibble input_data i) [0; 1; 2; 3]).
Proof.
  unfold DCA.get_active_sboxes, nibble.
  change (range 4) with [0; 1; 2; 3]. cbn [fold_left filter].
  change (0 * 4) with 0. change (1 * 4) with 4.
  change (2 * 4) with 8. change (3 * 4) with 12.
  change (4 * 0) with 0. change (4 * 1) with 4.
  change (4 * 2) with 8. change (4 * 3) with 12.
  destruct (0 <? Z.land (Z.shiftr input_data 0) 15);
    destruct (0 <? Z.land (Z.shiftr input_data 4) 15);
    destruct (0 <? Z.land (Z.shiftr input_data 8) 15);
    destruct (0 <? Z.land (Z.shiftr input_data 12) 15); reflexivity.
Qed.

End Nibbles.

(** ** The output difference of a round *)

Section Characteristic.

Import Num.

Variable a : DCA.DifferentialCryptanalysis.
Hypothesis Hsize : DCA.data_size a = 16.
Hypothesis Hmax : forall delta_x, 0 <= delta_x < 16 ->
  DCA.get_max_delta_y a delta_x = Ok (max_delta_y_of a delta_x) /\
  0 <= max_delta_y_of a delta_x < 16.

Lemma predicted_nibble_range (u i : Z) : 0 <= predicted_nibble a u i < 16.
Proof.
  unfold predicted_nibble. destruct (0 <? nibble u i); [|lia].
  apply Hmax. apply nibble_range.
Qed.

Lemma get_output_difference_placed (u : Z) :
  DCA.get_output_difference a u
  = Ok (fold_left
          (fun acc i => Z.lor acc (Z.shiftl (predicted_nibble a u i) (4 * i)))
          [0; 1; 2; 3] 0).
Proof.
  unfold DCA.get_output_difference.
  rewrite get_active_sboxes_filter, for_each_map, for_each_filter.
  rewrite <- for_each_pure. apply for_each_ext_in.
  intros i acc Hi.
  assert (Hi' : 0 <= i < 4) by (simpl in Hi; lia).
  unfold predicted_nibble.
  destruct (Z.ltb_spec 0 (nibble u i)) as [Hact|Hinact].
  - rewrite Hsize. replace (16 - (4 - i) * 4) with (4 * i) by lia.
    unfold rshift, lshift.
    destruct (Z.ltb_spec (4 * i) 0); [lia|]. cbn [bind]. fold (nibble u i).
    destruct (Hmax (nibble u i) (nibble_range u i)) as [Hdy _].
    rewrite Hdy. cbn [bind]. reflexivity.
  - rewrite Z.shiftl_0_l, Z.lor_0_r. reflexivity.
Qed.

Lemma get_output_difference_nibble (u k : Z) :
  0 <= k < 4 ->
  exists v,
    DCA.get_output_difference a u = Ok v /\ nibble v k = predicted_nibble a u k.
Proof.
  intros Hk. eexists. split; [apply get_output_difference_placed|].
  rewrite (nibble_of_placed (predicted_nibble a u)).
  - assert (Hin : existsb (fun i => i =? k) [0; 1; 2; 3] = true).
    { apply existsb_eqb_in. simpl. lia. }
    rewrite Hin. reflexivity.
  - apply predicted_nibble_range.
  - intros i Hi. simpl in Hi. lia.
  - lia.
Qed.

End Characteristic.

(** ** The table built by the analysis meets the conditions above *)

Section BuiltTable.

Variables (ks : list Z) (sub perm : dict Z) (net : SPN.SP_Network).
Hypothesis Hinit : SPN.init ks sub perm = Ok net.
Hypothesis Hlen : len sub = 16.

Let a := DCA.mkDC net (ddt_table net) (SPN.data_size net).

Lemma built_data_size : SPN.data_size net = 16.
Proof.
  destruct (init_fields ks sub perm net Hinit) as [_ [_ [_ [_ [_ [Hd _]]]]]].
  rewrite Hd. exact Hlen.
Qed.

Lemma built_table_at (delta_x d : Z) :
  0 <= delta_x < 16 -> 0 <= d < 16 -> table_at a delta_x d = ddt_count net delta_x d.
Proof.
  intros Hdx Hd. unfold table_at, a. cbn [DCA.difference_distribution].
  unfold ddt_table. rewrite (get_tabulate (fun x => ddt_row net x))
    by (apply in_range; rewrite built_data_size; exact Hdx).
  unfold get_default, ddt_row.
  rewrite (get_tabulate (fun y => ddt_count net delta_x y))
    by (apply in_range; rewrite built_data_size; exact Hd).
  reflexivity.
Qed.

Lemma built_max (delta_x : Z) :
  0 <= delta_x < 16 ->
  DCA.get_max_delta_y a delta_x = Ok (max_delta_y_of a delta_x) /\
  0 <= max_delta_y_of a delta_x < 16 /\
  (forall d, 0 <= d < 16 ->
     ddt_count net delta_x d <= ddt_count net delta_x (max_delta_y_of a delta_x)).
Proof.
  intros Hdx.
  destruct (get_max_delta_y_first_maximum net delta_x) as [dy [Hdy [Hr [Hall _]]]].
  { rewrite built_data_size. exact Hdx. }
  fold a in Hdy, Hall. rewrite built_data_size in Hr, Hall.
  unfold max_delta_y_of. rewrite Hdy.
  split; [reflexivity|]. split; [exact Hr|].
  intros d Hd. specialize (Hall d Hd).
  rewrite !built_table_at in Hall by assumption. exact Hall.
Qed.

Lemma sum_nonpositive (f : Z -> Z) (l : list Z) :
  (forall d, In d l -> f d <= 0) -> fold_right Z.add 0 (map f l) <= 0.
Proof.
  induction l as [|d l IH]; intros H; simpl; [lia|].
  pose proof (H d (or_introl eq_refl)).
  assert (fold_right Z.add 0 (map f l) <= 0)
    by (apply IH; intros y Hy; apply H; right; exact Hy).
  lia.
Qed.

Hypothesis Hval : values_below sub (len sub).

Lemma built_cell (delta_x : Z) :
  0 < delta_x < 16 ->
  exists row c,
    get (DCA.difference_distribution a) delta_x = Some row /\
    get row (max_delta_y_of a delta_x) = Some c /\ 0 < c <= 16.
Proof.
  intros Hdx.
  destruct (built_max delta_x ltac:(lia)) as [_ [Hr Hall]].
  exists (ddt_row net delta_x), (ddt_count net delta_x (max_delta_y_of a delta_x)).
  split; [|split; [|split]].
  - unfold a. cbn [DCA.difference_distribution]. unfold ddt_table.
    apply (get_tabulate (fun x => ddt_row net x)).
    apply in_range. rewrite built_data_size. lia.
  - unfold ddt_row. apply (get_tabulate (fun y => ddt_count net delta_x y)).
    apply in_range. rewrite built_data_size. exact Hr.
  - destruct (Z_lt_le_dec 0 (ddt_count net delta_x (max_delta_y_of a delta_x)))
      as [Hpos|Hnonpos]; [exact Hpos | exfalso].
    assert (Hsum : sum_values (ddt_row net delta_x) = 16).
    { rewrite (row_sum ks sub perm net Hinit 4) by (try exact Hval; try exact Hlen;
        reflexivity).
      apply built_data_size. }
    unfold ddt_row in Hsum. rewrite sum_values_tabulate in Hsum.
    assert (Hle : fold_right Z.add 0
                    (map (ddt_count net delta_x) (range (SPN.data_size net))) <= 0).
    { apply sum_nonpositive. intros d Hd. apply in_range in Hd.
      rewrite built_data_size in Hd. specialize (Hall d Hd). lia. }
    lia.
  - unfold ddt_count. pose proof (count_if_le
      (fun x => output_difference net delta_x x =? max_delta_y_of a delta_x)
      (range (SPN.data_size net))) as Hle.
    rewrite length_range, built_data_size in Hle.
    rewrite built_data_size. simpl in Hle. exact Hle.
Qed.

End BuiltTable.

(** C4, counterexample.  With the tables of the driver and 400 round keys
    the probability returned for the input difference 0x0B00, computed in
    IEEE 754 double precision as the code does, is 0.0: the product of the
    factors underflows. *)
Lemma characteristic_probability_counterexample :
  exists net a,
    SPN.init (repeat 0 400) main_substitution main_permutation = Ok net /\
    DCA.calculate_difference_distribution (DCA.init net) = Ok a /\
    DCA.get_differential_characteristic (F := spec_float) a 0x0B00
    = Ok (544, Num.PyFloat (S754_zero false)).
Proof.
  eexists. eexists. split; [vm_compute; reflexivity|].
  split; vm_compute; reflexivity.
Qed.

(** ** Binary64 multiplication on the unit interval *)

Section Binary64.

Lemma digits2_pos_bounds (p : positive) :
  2 ^ (Zpos (digits2_pos p) - 1) <= Zpos p < 2 ^ Zpos (digits2_pos p).
Proof.
  induction p as [p IH|p IH|]; cbn [digits2_pos].
  - rewrite Pos2Z.inj_succ. change (Zpos p~1) with (2 * Zpos p + 1).
    replace (Z.succ (Zpos (digits2_pos p)) - 1)
      with (Z.succ (Zpos (digits2_pos p) - 1)) by lia.
    rewrite !Z.pow_succ_r by lia.
    set (lo := 2 ^ (Zpos (digits2_pos p) - 1)) in *.
    set (hi := 2 ^ Zpos (digits2_pos p)) in *.
    clearbody lo hi. lia.
  - rewrite Pos2Z.inj_succ. change (Zpos p~0) with (2 * Zpos p).
    replace (Z.succ (Zpos (digits2_pos p)) - 1)
      with (Z.succ (Zpos (digits2_pos p) - 1)) by lia.
    rewrite !Z.pow_succ_r by lia.
    set (lo := 2 ^ (Zpos (digits2_pos p) - 1)) in *.
    set (hi := 2 ^ Zpos (digits2_pos p)) in *.
    clearbody lo hi. lia.
  - change (2 ^ (1 - 1)) with 1. change (2 ^ 1) with 2. lia.
Qed.

Lemma shr_1_m (r : shr_record) :
  0 <= shr_m r -> shr_m (shr_1 r) = shr_m r / 2 /\ 0 <= shr_m (shr_1 r).
Proof.
  destruct r as [m rb sb]. cbn [shr_m]. intros Hm.
  destruct m as [|[p|p|]|p]; cbn [shr_1 shr_m]; try lia.
  - split; [reflexivity|lia].
  - split; [|lia]. change (Zpos p~1) with (2 * Zpos p + 1).
    Z.to_euclidean_division_equations. lia.
  - split; [|lia]. change (Zpos p~0) with (2 * Zpos p).
    Z.to_euclidean_division_equations. lia.
  - split; [reflexivity|lia].
Qed.

Lemma iter_shr_m (p : positive) :
  forall r, 0 <= shr_m r ->
    shr_m (iter_pos shr_1 p r) = shr_m r / 2 ^ Zpos p /\
    0 <= shr_m (iter_pos shr_1 p r).
Proof.
  induction p as [p IH|p IH|]; intros r Hr; cbn [iter_pos].
  - destruct (shr_1_m r Hr) as [H1 Hn1].
    destruct (IH (shr_1 r) Hn1) as [H2 Hn2].
    destruct (IH (iter_pos shr_1 p (shr_1 r)) Hn2) as [H3 Hn3].
    split; [|exact Hn3].
    rewrite H3, H2, H1.
    assert (Hpow : 0 < 2 ^ Zpos p) by (apply Z.pow_pos_nonneg; lia).
    rewrite !Z.div_div by lia.
    f_equal. change (Zpos p~1) with (2 * Zpos p + 1).
    replace (2 * Zpos p + 1) with (1 + (Zpos p + Zpos p)) by lia.
    rewrite !Z.pow_add_r by lia. change (2 ^ 1) with 2. lia.
  - destruct (IH r Hr) as [H2 Hn2].
    destruct (IH (iter_pos shr_1 p r) Hn2) as [H3 Hn3].
    split; [|exact Hn3].
    rewrite H3, H2.
    assert (Hpow : 0 < 2 ^ Zpos p) by (apply Z.pow_pos_nonneg; lia).
    rewrite !Z.div_div by lia.
    f_equal. change (Zpos p~0) with (2 * Zpos p).
    replace (2 * Zpos p) with (Zpos p + Zpos p) by lia.
    rewrite !Z.pow_add_r by lia. reflexivity.
  - destruct (shr_1_m r Hr) as [H1 Hn1].
    split; [|exact Hn1]. rewrite H1. reflexivity.
Qed.

Lemma round_nearest_even_choice (m : Z) (l : location) :
  m <= round_nearest_even m l <= m + 1.
Proof.
  destruct l as [|[| |]]; cbn [round_nearest_even]; try lia.
  destruct (Z.even m); lia.
Qed.

(** The first shift of [binary_round_aux]: by [n] places when [n] is
    positive, and none otherwise. *)
Lemma first_shift (M : positive) (E : Z) :
  let n := Z.max (Zpos (digits2_pos M) + E - 53) (-1074) - E in
  (n <= 0 ->
     shr_fexp 53 1024 (Zpos M) E loc_Exact
     = (Build_shr_record (Zpos M) false false, E)) /\
  (0 < n ->
     exists r,
       shr_fexp 53 1024 (Zpos M) E loc_Exact = (r, E + n) /\
       shr_m r = Zpos M / 2 ^ n).
Proof.
  cbv zeta. unfold shr_fexp, fexp. change (emin 53 1024) with (-1074).
  cbn [Zdigits2 shr_record_of_loc]. unfold shr.
  destruct (Z.max (Zpos (digits2_pos M) + E - 53) (-1074) - E) as [|p|p].
  - split; [reflexivity|lia].
  - split; [lia|]. intros _.
    exists (iter_pos shr_1 p (Build_shr_record (Zpos M) false false)).
    split; [reflexivity|].
    apply (iter_shr_m p (Build_shr_record (Zpos M) false false)).
    cbn [shr_m]. lia.
  - split; [reflexivity|lia].
Qed.

(** The second shift: it renormalises a mantissa that rounding took to
    2^53 and leaves every smaller one alone. *)
Lemma second_shift_small (m e : Z) :
  0 <= m < 2 ^ 53 -> -1074 <= e ->
  shr_fexp 53 1024 m e loc_Exact = (Build_shr_record m false false, e).
Proof.
  intros Hm He. unfold shr_fexp, fexp. change (emin 53 1024) with (-1074).
  cbn [shr_record_of_loc]. unfold shr.
  assert (Hd : Zdigits2 m <= 53).
  { destruct m as [|p|p]; cbn [Zdigits2]; try lia.
    pose proof (digits2_pos_bounds p) as [Hlo _].
    destruct (Z_le_gt_dec (Zpos (digits2_pos p)) 53) as [Hle|Hgt]; [exact Hle|].
    exfalso.
    assert (2 ^ 53 <= 2 ^ (Zpos (digits2_pos p) - 1))
      by (apply Z.pow_le_mono_r; lia).
    lia. }
  destruct (Z.max (Zdigits2 m + e - 53) (-1074) - e) as [|p|p] eqn:Hn;
    try reflexivity.
  lia.
Qed.

Lemma second_shift_carry (e : Z) :
  -1074 <= e ->
  shr_fexp 53 1024 (2 ^ 53) e loc_Exact
  = (Build_shr_record (2 ^ 52) false false, e + 1).
Proof.
  intros He. unfold shr_fexp, fexp. change (emin 53 1024) with (-1074).
  change (Zdigits2 (2 ^ 53)) with 54.
  replace (Z.max (54 + e - 53) (-1074) - e) with 1 by lia.
  reflexivity.
Qed.

(** The result of rounding the exact product [M * 2^E] of two doubles, when
    the product is below 2. *)
Lemma binary_round_aux_shape (M : positive) (E : Z) :
  let n := Z.max (Zpos (digits2_pos M) + E - 53) (-1074) - E in
  Zpos (digits2_pos M) + E <= 0 ->
  (n <= 0 ->
     binary_round_aux 53 1024 false (Zpos M) E loc_Exact = S754_finite false M E) /\
  (0 < n ->
     exists m,
       Zpos M / 2 ^ n <= m <= 2 ^ 53 /\
       ((m = 0 /\
         binary_round_aux 53 1024 false (Zpos M) E loc_Exact = S754_zero false) \/
        (exists mf,
           Zpos mf = m /\ m < 2 ^ 53 /\
           binary_round_aux 53 1024 false (Zpos M) E loc_Exact
           = S754_finite false mf (E + n)) \/
        (m = 2 ^ 53 /\
         binary_round_aux 53 1024 false (Zpos M) E loc_Exact
         = S754_finite false (2 ^ 52) (E + n + 1)))).
Proof.
  cbv zeta. intros Hd.
  pose proof (digits2_pos_bounds M) as [Hlo Hhi].
  destruct (first_shift M E) as [Hnone Hsome]. cbv zeta in Hnone, Hsome.
  set (n := Z.max (Zpos (digits2_pos M) + E - 53) (-1074) - E) in *.
  assert (Hdpos : 0 < Zpos (digits2_pos M)) by lia.
  split.
  - intros Hn. unfold binary_round_aux. rewrite (Hnone Hn).
    cbn [shr_m loc_of_shr_record round_nearest_even].
    assert (HM : Zpos M < 2 ^ 53).
    { assert (2 ^ Zpos (digits2_pos M) <= 2 ^ 53)
        by (apply Z.pow_le_mono_r; lia).
      lia. }
    rewrite second_shift_small by lia.
    cbn [shr_m].
    destruct (Z.leb_spec E (1024 - 53)) as [_|Hbig]; [reflexivity|lia].
  - intros Hn. destruct (Hsome Hn) as [r [Hshift Hm]].
    pose proof (round_nearest_even_choice (shr_m r) (loc_of_shr_record r)) as Hc.
    assert (Hpow : 0 < 2 ^ n) by (apply Z.pow_pos_nonneg; lia).
    assert (Hsmall : shr_m r < 2 ^ 53).
    { rewrite Hm. apply Z.div_lt_upper_bound; [exact Hpow|].
      rewrite <- Z.pow_add_r by lia.
      assert (2 ^ Zpos (digits2_pos M) <= 2 ^ (n + 53))
        by (apply Z.pow_le_mono_r; lia).
      lia. }
    assert (Hnonneg : 0 <= shr_m r)
      by (rewrite Hm; apply Z.div_pos; lia).
    exists (round_nearest_even (shr_m r) (loc_of_shr_record r)).
    split; [rewrite <- Hm; lia|].
    unfold binary_round_aux. rewrite Hshift.
    set (m := round_nearest_even (shr_m r) (loc_of_shr_record r)) in *.
    destruct (Z.eq_dec m (2 ^ 53)) as [Hcarry|Hnocarry].
    + right. right. split; [exact Hcarry|].
      rewrite Hcarry, second_shift_carry by lia.
      cbn [shr_m].
      destruct (Z.leb_spec (E + n + 1) (1024 - 53)) as [_|Hbig]; [reflexivity|lia].
    + rewrite second_shift_small by lia. cbn [shr_m].
      destruct m as [|mf|mf] eqn:Hmf.
      * left. split; reflexivity.
      * right. left. exists mf. split; [reflexivity|]. split; [lia|].
        destruct (Z.leb_spec (E + n) (1024 - 53)) as [_|Hbig]; [reflexivity|lia].
      * lia.
Qed.


Lemma in_units_product (mx my : positive) (ex ey : Z) :
  -1074 <= ex -> -1074 <= ey ->
  in_units mx ex * in_units my ey = Zpos (mx * my) * 2 ^ (ex + ey + 2148).
Proof.
  intros Hx Hy. unfold in_units. rewrite Pos2Z.inj_mul.
  replace (ex + ey + 2148) with ((ex + 1074) + (ey + 1074)) by lia.
  rewrite (Z.pow_add_r 2 (ex + 1074) (ey + 1074)) by lia. ring.
Qed.

(** What the shifted mantissa keeps of a product that is at least 2^-K. *)
Lemma shifted_lower_bound (M : positive) (E K : Z) :
  let d := Zpos (digits2_pos M) in
  let n := Z.max (d + E - 53) (-1074) - E in
  - 2148 <= E -> 0 <= K <= 1074 -> 0 < n ->
  2 ^ (2148 - K) <= Zpos M * 2 ^ (E + 2148) ->
  2 ^ (1074 - K) <= Zpos M / 2 ^ n * 2 ^ (E + n + 1074).
Proof.
  cbv zeta. intros HE HK Hn Hlow.
  pose proof (digits2_pos_bounds M) as [Hlo Hhi].
  set (d := Zpos (digits2_pos M)) in *.
  set (n := Z.max (d + E - 53) (-1074) - E) in *.
  assert (Hpn : 0 < 2 ^ n) by (apply Z.pow_pos_nonneg; lia).
  destruct (Z_le_gt_dec (E + n) (- K)) as [Hdeep|Hshallow].
  - assert (HM : 2 ^ (- K - E) <= Zpos M).
    { assert (HP : 0 < 2 ^ (E + 2148)) by (apply Z.pow_pos_nonneg; lia).
      apply (Z.mul_le_mono_pos_r _ _ (2 ^ (E + 2148)) HP).
      rewrite <- Z.pow_add_r by lia.
      replace (- K - E + (E + 2148)) with (2148 - K) by lia. exact Hlow. }
    assert (Hq : 2 ^ (- K - (E + n)) <= Zpos M / 2 ^ n).
    { apply Z.div_le_lower_bound; [exact Hpn|].
      rewrite <- Z.pow_add_r by lia.
      replace (n + (- K - (E + n))) with (- K - E) by lia. exact HM. }
    replace (1074 - K) with ((- K - (E + n)) + (E + n + 1074)) by lia.
    rewrite Z.pow_add_r by lia.
    apply Z.mul_le_mono_nonneg_r; [apply Z.pow_nonneg; lia|exact Hq].
  - assert (Hnd : n = d - 53) by lia.
    assert (Hq : 1 <= Zpos M / 2 ^ n).
    { apply Z.div_le_lower_bound; [exact Hpn|].
      rewrite Z.mul_1_r.
      assert (2 ^ n <= 2 ^ (d - 1)) by (apply Z.pow_le_mono_r; lia).
      lia. }
    assert (Hp : 2 ^ (1074 - K) <= 2 ^ (E + n + 1074))
      by (apply Z.pow_le_mono_r; lia).
    assert (Hpos : 0 < 2 ^ (E + n + 1074)) by (apply Z.pow_pos_nonneg; lia).
    nia.
Qed.

Lemma SFmul_unit_core (mx my : positive) (ex ey K : Z) :
  -1074 <= ex -> -1074 <= ey ->
  in_units mx ex * in_units my ey < 2 ^ 2148 ->
  0 <= K <= 1074 ->
  (SFmul 53 1024 (S754_finite false mx ex) (S754_finite false my ey)
   = S754_zero false \/
   unit_double 1074
     (SFmul 53 1024 (S754_finite false mx ex) (S754_finite false my ey))) /\
  (2 ^ (2148 - K) <= in_units mx ex * in_units my ey ->
   unit_double K
     (SFmul 53 1024 (S754_finite false mx ex) (S754_finite false my ey))).
Proof.
  intros Hex Hey Hup HK.
  rewrite in_units_product in * by assumption.
  cbn [SFmul xorb].
  set (M := (mx * my)%positive) in *. set (E := ex + ey) in *.
  pose proof (digits2_pos_bounds M) as [Hlo Hhi].
  assert (HP : 0 < 2 ^ (E + 2148)) by (apply Z.pow_pos_nonneg; lia).
  assert (Hsq : 2 ^ 2148 = 2 ^ 1074 * 2 ^ 1074)
    by (rewrite <- Z.pow_add_r by lia; reflexivity).
  assert (HA : 0 < 2 ^ 1074) by (apply Z.pow_pos_nonneg; lia).
  assert (Hd : Zpos (digits2_pos M) + E <= 0).
  { assert (Hlt : 2 ^ (Zpos (digits2_pos M) - 1 + (E + 2148)) < 2 ^ 2148).
    { rewrite Z.pow_add_r by lia.
      apply Z.le_lt_trans with (Zpos M * 2 ^ (E + 2148)); [|exact Hup].
      apply Z.mul_le_mono_nonneg_r; [lia|exact Hlo]. }
    apply Z.pow_lt_mono_r_iff in Hlt; lia. }
  destruct (binary_round_aux_shape M E Hd) as [Hnone Hsome].
  cbv zeta in Hnone, Hsome.
  pose proof (shifted_lower_bound M E K) as Hshift. cbv zeta in Hshift.
  set (n := Z.max (Zpos (digits2_pos M) + E - 53) (-1074) - E) in *.
  destruct (Z_le_gt_dec n 0) as [Hn|Hn].
  - rewrite (Hnone Hn).
    assert (HE : -1074 <= E) by lia.
    assert (Hsplit : 2 ^ (E + 2148) = 2 ^ (E + 1074) * 2 ^ 1074).
    { rewrite <- Z.pow_add_r by lia. f_equal. lia. }
    assert (Hpe : 0 < 2 ^ (E + 1074)) by (apply Z.pow_pos_nonneg; lia).
    assert (Hbelow : in_units M E < 2 ^ 1074).
    { unfold in_units. rewrite Hsplit, Hsq in Hup.
      apply (Z.mul_lt_mono_pos_r (2 ^ 1074)); [exact HA|].
      rewrite <- Z.mul_assoc. exact Hup. }
    split.
    + right. right. exists M, E. split; [reflexivity|]. split; [exact HE|].
      split; [|exact Hbelow].
      change (2 ^ (1074 - 1074)) with 1. unfold in_units. nia.
    + intros Hlow. right. exists M, E. split; [reflexivity|].
      split; [exact HE|]. split; [|exact Hbelow].
      unfold in_units.
      apply (Z.mul_le_mono_pos_r _ _ (2 ^ 1074) HA).
      rewrite <- Z.pow_add_r by lia. rewrite <- Z.mul_assoc, <- Hsplit.
      replace (1074 - K + 1074) with (2148 - K) by lia. exact Hlow.
  - destruct (Hsome ltac:(lia)) as [m [Hm Hcases]].
    assert (He' : -1074 <= E + n <= -53) by lia.
    assert (Hpe : 0 < 2 ^ (E + n + 1074)) by (apply Z.pow_pos_nonneg; lia).
    assert (Htop : 2 ^ 53 * 2 ^ (E + n + 1074) <= 2 ^ 1074).
    { rewrite <- Z.pow_add_r by lia. apply Z.pow_le_mono_r; lia. }
    assert (Hq0 : 0 <= Zpos M / 2 ^ n)
      by (apply Z.div_pos; [lia|apply Z.pow_pos_nonneg; lia]).
    assert (Hlower : 2 ^ (2148 - K) <= Zpos M * 2 ^ (E + 2148) ->
                     2 ^ (1074 - K) <= m * 2 ^ (E + n + 1074)).
    { intros Hlow.
      apply Z.le_trans with (Zpos M / 2 ^ n * 2 ^ (E + n + 1074)).
      - apply Hshift; lia.
      - apply Z.mul_le_mono_nonneg_r; lia. }
    assert (Hone : 1 <= 2 ^ (1074 - K)) by (apply (Z.pow_le_mono_r 2 0); lia).
    destruct Hcases as [[Hz Hr]|[[mf [Hmf [Hlt Hr]]]|[Hc Hr]]]; rewrite Hr.
    + split; [left; reflexivity|].
      intros Hlow. specialize (Hlower Hlow). rewrite Hz in Hlower. lia.
    + assert (Hbelow : in_units mf (E + n) < 2 ^ 1074).
      { unfold in_units. rewrite Hmf.
        apply Z.lt_le_trans with (2 ^ 53 * 2 ^ (E + n + 1074)); [|exact Htop].
        apply Z.mul_lt_mono_pos_r; [exact Hpe|exact Hlt]. }
      split.
      * right. right. exists mf, (E + n). split; [reflexivity|].
        split; [lia|]. split; [|exact Hbelow].
        change (2 ^ (1074 - 1074)) with 1. unfold in_units. nia.
      * intros Hlow. right. exists mf, (E + n). split; [reflexivity|].
        split; [lia|]. split; [|exact Hbelow].
        unfold in_units. rewrite Hmf. apply Hlower. exact Hlow.
    + destruct (Z.eq_dec (E + n) (-53)) as [Hexact|Hless].
      * replace (E + n + 1) with (-52) by lia.
        split; [right|intros _]; left; reflexivity.
      * assert (Hval : in_units (2 ^ 52) (E + n + 1) = m * 2 ^ (E + n + 1074)).
        { unfold in_units. rewrite Hc.
          replace (E + n + 1 + 1074) with (1 + (E + n + 1074)) by lia.
          rewrite (Z.pow_add_r 2 1 (E + n + 1074)) by lia.
          rewrite Z.mul_assoc. reflexivity. }
        assert (Hbelow : in_units (2 ^ 52) (E + n + 1) < 2 ^ 1074).
        { rewrite Hval, Hc. rewrite <- Z.pow_add_r by lia.
          apply Z.pow_lt_mono_r; lia. }
        split.
        -- right. right. exists (2 ^ 52)%positive, (E + n + 1).
           split; [reflexivity|]. split; [lia|]. split; [|exact Hbelow].
           change (2 ^ (1074 - 1074)) with 1. rewrite Hval, Hc.
           assert (0 < 2 ^ 53) by reflexivity. nia.
        -- intros Hlow. right. exists (2 ^ 52)%positive, (E + n + 1).
           split; [reflexivity|]. split; [lia|]. split; [|exact Hbelow].
           rewrite Hval. apply Hlower. exact Hlow.
Qed.


Lemma one_double_units : in_units (2 ^ 52) (-52) = 2 ^ 1074.
Proof. vm_compute. reflexivity. Qed.

Lemma unit_double_mono (j k : Z) (f : spec_float) :
  j <= k -> unit_double j f -> unit_double k f.
Proof.
  intros Hjk [Hone|[m [e [Hf [He [Hlo Hhi]]]]]]; [left; exact Hone|].
  right. exists m, e. split; [exact Hf|]. split; [exact He|].
  split; [|exact Hhi].
  apply Z.le_trans with (2 ^ (1074 - j)); [|exact Hlo].
  apply Z.pow_le_mono_r; lia.
Qed.

(** A double of the unit interval, by mantissa and exponent. *)
Lemma unit_double_rep (k : Z) (f : spec_float) :
  0 <= k -> unit_double k f ->
  exists m e,
    f = S754_finite false m e /\ -1074 <= e /\
    2 ^ (1074 - k) <= in_units m e <= 2 ^ 1074 /\
    (in_units m e = 2 ^ 1074 -> f = one_double).
Proof.
  intros Hk [Hone|[m [e [Hf [He [Hlo Hhi]]]]]].
  - exists (2 ^ 52)%positive, (-52). split; [exact Hone|]. split; [lia|].
    rewrite one_double_units. split; [|intros _; exact Hone].
    split; [apply Z.pow_le_mono_r; lia|lia].
  - exists m, e. split; [exact Hf|]. split; [exact He|].
    split; [lia|]. intros Heq. lia.
Qed.

Lemma SFmul_units (j k : Z) (x y : spec_float) :
  0 <= j <= 1074 -> 0 <= k <= 1074 ->
  unit_double j x -> unit_double k y ->
  (SFmul 53 1024 x y = S754_zero false \/ unit_double 1074 (SFmul 53 1024 x y)) /\
  (j + k <= 1074 -> unit_double (j + k) (SFmul 53 1024 x y)).
Proof.
  intros Hj Hk Hx Hy.
  destruct (unit_double_rep j x ltac:(lia) Hx)
    as [mx [ex [Hfx [Hex [[Hxlo Hxhi] Hxone]]]]].
  destruct (unit_double_rep k y ltac:(lia) Hy)
    as [my [ey [Hfy [Hey [[Hylo Hyhi] Hyone]]]]].
  assert (HA : 0 < 2 ^ 1074) by (apply Z.pow_pos_nonneg; lia).
  assert (Hsq : 2 ^ 2148 = 2 ^ 1074 * 2 ^ 1074)
    by (rewrite <- Z.pow_add_r by lia; reflexivity).
  assert (Hjpos : 0 < 2 ^ (1074 - j)) by (apply Z.pow_pos_nonneg; lia).
  assert (Hkpos : 0 < 2 ^ (1074 - k)) by (apply Z.pow_pos_nonneg; lia).
  destruct (Z.eq_dec (in_units mx ex) (2 ^ 1074)) as [Hx1|Hx1];
    [destruct (Z.eq_dec (in_units my ey) (2 ^ 1074)) as [Hy1|Hy1]|].
  - rewrite (Hxone Hx1), (Hyone Hy1).
    assert (Hprod : SFmul 53 1024 one_double one_double = one_double)
      by (vm_compute; reflexivity).
    rewrite Hprod. split; [right|intros _]; left; reflexivity.
  - subst x y.
    assert (Hup : in_units mx ex * in_units my ey < 2 ^ 2148).
    { rewrite Hsq, Hx1. apply Z.mul_lt_mono_pos_l; lia. }
    destruct (SFmul_unit_core mx my ex ey 1074 Hex Hey Hup ltac:(lia))
      as [Hweak _].
    split; [exact Hweak|]. intros Hjk.
    apply (SFmul_unit_core mx my ex ey (j + k) Hex Hey Hup ltac:(lia)).
    replace (2148 - (j + k)) with ((1074 - j) + (1074 - k)) by lia.
    rewrite Z.pow_add_r by lia.
    apply Z.mul_le_mono_nonneg; lia.
  - subst x y.
    assert (Hup : in_units mx ex * in_units my ey < 2 ^ 2148).
    { rewrite Hsq.
      apply Z.le_lt_trans with (in_units mx ex * 2 ^ 1074).
      - apply Z.mul_le_mono_nonneg_l; lia.
      - apply Z.mul_lt_mono_pos_r; lia. }
    destruct (SFmul_unit_core mx my ex ey 1074 Hex Hey Hup ltac:(lia))
      as [Hweak _].
    split; [exact Hweak|]. intros Hjk.
    apply (SFmul_unit_core mx my ex ey (j + k) Hex Hey Hup ltac:(lia)).
    replace (2148 - (j + k)) with ((1074 - j) + (1074 - k)) by lia.
    rewrite Z.pow_add_r by lia.
    apply Z.mul_le_mono_nonneg; lia.
Qed.

Lemma graded_one (b : Z) : graded b one_double.
Proof. split; [intros _|right]; left; reflexivity. Qed.

Lemma graded_mono (b b' : Z) (f : spec_float) :
  b <= b' -> graded b f -> graded b' f.
Proof.
  intros Hb [Hunit Hweak]. split; [|exact Hweak].
  intros Hle. apply (unit_double_mono b b'); [exact Hb|]. apply Hunit. lia.
Qed.

Lemma graded_mul (b1 b2 : Z) (x y : spec_float) :
  0 <= b1 -> 0 <= b2 -> graded b1 x -> graded b2 y ->
  graded (b1 + b2) (SFmul 53 1024 x y).
Proof.
  intros H1 H2 [Hxu Hxw] [Hyu Hyw]. split.
  - intros Hle.
    apply (SFmul_units b1 b2 x y); try lia; [apply Hxu|apply Hyu]; lia.
  - destruct Hxw as [Hx|Hx]; destruct Hyw as [Hy|Hy].
    + subst x y. left. reflexivity.
    + subst x. left.
      destruct (unit_double_rep 1074 y ltac:(lia) Hy) as [m [e [Hf _]]].
      subst y. reflexivity.
    + subst y. left.
      destruct (unit_double_rep 1074 x ltac:(lia) Hx) as [m [e [Hf _]]].
      subst x. reflexivity.
    + apply (SFmul_units 1074 1074 x y); try lia; assumption.
Qed.

Lemma unit_double_check_ok (k : Z) (f : spec_float) :
  unit_double_check k f = true -> unit_double k f.
Proof.
  destruct f as [s|s| |s m e]; try discriminate.
  destruct s; [discriminate|]. cbn [unit_double_check].
  intros H. apply orb_true_iff in H. destruct H as [H|H].
  - apply andb_true_iff in H. destruct H as [Hm He].
    apply Pos.eqb_eq in Hm. apply Z.eqb_eq in He. subst. left. reflexivity.
  - apply andb_true_iff in H. destruct H as [H Hhi].
    apply andb_true_iff in H. destruct H as [He Hlo].
    apply Z.leb_le in He. apply Z.leb_le in Hlo. apply Z.ltb_lt in Hhi.
    right. exists m, e. split; [reflexivity|]. split; [exact He|].
    split; assumption.
Qed.

Lemma factors_check_ok (counts : list Z) (c : Z) :
  factors_check counts = true -> In c counts ->
  unit_double 3 (Num.fdiv (F := spec_float) (Num.of_int c) (Num.of_int 16)).
Proof.
  intros Hall Hin. unfold factors_check in Hall.
  rewrite forallb_forall in Hall.
  apply unit_double_check_ok. apply Hall. exact Hin.
Qed.

Lemma factors_check_even : factors_check [2; 4; 6; 8; 10; 12; 14; 16] = true.
Proof. vm_compute. reflexivity. Qed.

Lemma factor_graded (c : Z) :
  0 < c <= 16 -> c mod 2 = 0 ->
  graded 3 (Num.fdiv (F := spec_float) (Num.of_int c) (Num.of_int 16)).
Proof.
  intros Hc Heven.
  assert (Hin : In c [2; 4; 6; 8; 10; 12; 14; 16]).
  { cbn [In]. Z.to_euclidean_division_equations. lia. }
  pose proof (factors_check_ok _ c factors_check_even Hin) as Hunit.
  split; [intros _; exact Hunit|].
  right. apply (unit_double_mono 3 1074); [lia|exact Hunit].
Qed.

Lemma of_int_one : Num.of_int (F := spec_float) 1 = one_double.
Proof. vm_compute. reflexivity. Qed.

Lemma graded_num_mono (b b' : Z) (x : Num.num spec_float) :
  b <= b' -> graded_num b x -> graded_num b' x.
Proof.
  intros Hb [Hint|[f [Hf Hg]]]; [left; exact Hint|].
  right. exists f. split; [exact Hf|]. apply (graded_mono b b'); assumption.
Qed.

Lemma graded_num_mul (b1 b2 : Z) (x y : Num.num spec_float) :
  0 <= b1 -> 0 <= b2 -> graded_num b1 x -> graded_num b2 y ->
  graded_num (b1 + b2) (Num.mul x y).
Proof.
  intros H1 H2 [Hx|[f [Hx Hf]]] [Hy|[g [Hy Hg]]]; subst x y.
  - left. reflexivity.
  - right. eexists. split; [reflexivity|].
    change (Num.fmul (Num.of_int 1) g)
      with (SFmul 53 1024 (Num.of_int (F := spec_float) 1) g).
    rewrite of_int_one.
    apply (graded_mul b1 b2); try assumption. apply graded_one.
  - right. eexists. split; [reflexivity|].
    change (Num.fmul f (Num.of_int 1))
      with (SFmul 53 1024 f (Num.of_int (F := spec_float) 1)).
    rewrite of_int_one.
    apply (graded_mul b1 b2); try assumption. apply graded_one.
  - right. eexists. split; [reflexivity|].
    apply (graded_mul b1 b2); assumption.
Qed.

(** The graded doubles as rationals. *)
Lemma finite_value_units (m : positive) (e : Z) :
  -1074 <= e ->
  (inject_Z (Zpos m) * 2 ^ e * inject_Z (2 ^ 1074) == inject_Z (in_units m e))%Q.
Proof.
  intros He. unfold in_units.
  rewrite inject_Z_mult, !Zpower_Qpower by lia.
  replace (e + 1074) with (e + 1074)%Z by reflexivity.
  rewrite (Qpower_plus (inject_Z 2) e 1074) by discriminate.
  change (inject_Z 2) with 2%Q. ring.
Qed.

Lemma unit_double_value (k : Z) (f : spec_float) :
  0 <= k <= 1074 -> unit_double k f ->
  exists q, float_value f = Some q /\ (0 < q)%Q /\ (q <= 1)%Q.
Proof.
  intros Hk Hf.
  destruct (unit_double_rep k f ltac:(lia) Hf)
    as [m [e [Hrep [He [[Hlo Hhi] _]]]]].
  subst f. cbn [float_value]. eexists. split; [reflexivity|].
  pose proof (finite_value_units m e He) as Hval.
  assert (HA : (0 < inject_Z (2 ^ 1074))%Q).
  { change 0%Q with (inject_Z 0). rewrite <- Zlt_Qlt.
    apply Z.pow_pos_nonneg; lia. }
  assert (Hpos : 0 < in_units m e).
  { apply Z.lt_le_trans with (2 ^ (1074 - k)); [|exact Hlo].
    apply Z.pow_pos_nonneg; lia. }
  split.
  - apply (Qmult_lt_r _ _ (inject_Z (2 ^ 1074)) HA).
    rewrite Hval, Qmult_0_l.
    change 0%Q with (inject_Z 0). rewrite <- Zlt_Qlt. exact Hpos.
  - apply (Qmult_le_r _ _ (inject_Z (2 ^ 1074)) HA).
    rewrite Hval, Qmult_1_l. rewrite <- Zle_Qle. exact Hhi.
Qed.

Lemma graded_num_value (b : Z) (x : Num.num spec_float) :
  0 <= b -> graded_num b x ->
  exists q,
    double_value x = Some q /\ (0 <= q)%Q /\ (q <= 1)%Q /\
    (b <= 1074 -> (0 < q)%Q).
Proof.
  intros Hb [Hx|[f [Hx [Hunit Hweak]]]]; subst x.
  - exists (inject_Z 1). split; [reflexivity|].
    split; [discriminate|]. split; [discriminate|]. intros _. reflexivity.
  - cbn [double_value]. destruct Hweak as [Hz|Hw].
    + subst f. exists 0%Q. split; [reflexivity|].
      split; [discriminate|]. split; [discriminate|].
      intros Hle. specialize (Hunit Hle).
      destruct (unit_double_rep b _ Hb Hunit) as [m [e [Hf _]]]. discriminate.
    + destruct (unit_double_value 1074 f ltac:(lia) Hw) as [q [Hq [H0 H1]]].
      exists q. split; [exact Hq|]. split; [apply Qlt_le_weak; exact H0|].
      split; [exact H1|]. intros _. exact H0.
Qed.

End Binary64.

(** ** The probability of the characteristic in double precision *)

Section DoubleProbability.

Variable a : DCA.DifferentialCryptanalysis.

Hypothesis Hsize : DCA.data_size a = 16.

Hypothesis Hmax : forall delta_x, 0 <= delta_x < 16 ->
  DCA.get_max_delta_y a delta_x = Ok (max_delta_y_of a delta_x) /\
  0 <= max_delta_y_of a delta_x < 16.

Hypothesis Hcell : forall delta_x, 0 < delta_x < 16 ->
  exists row c,
    get (DCA.difference_distribution a) delta_x = Some row /\
    get row (max_delta_y_of a delta_x) = Some c /\
    0 < c <= 16 /\ c mod 2 = 0.

Hypothesis Hperm : forall v, exists u, SPN.permute (DCA.sp_network a) v = Ok u.

Lemma pair_probability_graded (u : Z) :
  exists v q,
    DCA.get_output_difference a u = Ok v /\
    DCA.get_difference_pair_probability (F := spec_float) a u v = Ok q /\
    graded_num 12 q.
Proof.
  eexists.
  assert (Hnib : forall k, 0 <= k < 4 ->
            nibble (fold_left
                      (fun acc i => Z.lor acc (Z.shiftl (predicted_nibble a u i) (4 * i)))
                      [0; 1; 2; 3] 0) k = predicted_nibble a u k).
  { intros k Hk.
    destruct (get_output_difference_nibble a Hsize Hmax u k Hk) as [v [Hv Hn]].
    rewrite (get_output_difference_placed a Hsize Hmax) in Hv.
    injection Hv as <-. exact Hn. }
  set (v := fold_left _ _ 0) in *.
  destruct (for_each_inv
    (fun (pre : list Z) (q : Num.num spec_float) =>
       graded_num (3 * Z.of_nat (length pre)) q)
    (fun probability i =>
       let delta_x := Z.land (Z.shiftr u (i * 4)) 15 in
       let delta_y := Z.land (Z.shiftr v (i * 4)) 15 in
       if (delta_x =? 0) && (delta_y =? 0) then Ok probability
       else
         row <- item (DCA.difference_distribution a) delta_x ;;
         c <- item row delta_y ;;
         q <- Num.truediv (F := spec_float) c (DCA.data_size a) ;;
         Ok (Num.mul probability q))
    (range 4) (Num.PyInt 1)) as [q [Hq Hin]].
  - left. reflexivity.
  - intros pre i acc post Heq Hacc.
    apply range_prefix in Heq. destruct Heq as [_ Hi].
    assert (Hgrow : 3 * Z.of_nat (length (pre ++ [i]))
                    = 3 * Z.of_nat (length pre) + 3).
    { rewrite length_app. cbn [length]. lia. }
    rewrite Hgrow.
    cbv zeta. rewrite (Z.mul_comm i 4). fold (nibble u i) (nibble v i).
    rewrite (Hnib i Hi). unfold predicted_nibble.
    pose proof (nibble_range u i) as Hr.
    destruct (Z.ltb_spec 0 (nibble u i)) as [Hact|Hinact].
    + destruct (Z.eqb_spec (nibble u i) 0) as [?|_]; [lia|]. cbn [andb].
      destruct (Hcell (nibble u i) ltac:(lia)) as [row [c [Hrow [Hc [Hcr Heven]]]]].
      unfold item. rewrite Hrow. cbn [bind]. rewrite Hc. cbn [bind].
      unfold Num.truediv. rewrite Hsize. change (16 =? 0) with false. cbn [bind].
      eexists. split; [reflexivity|].
      apply graded_num_mul; [lia|lia|exact Hacc|].
      right. eexists. split; [reflexivity|].
      apply factor_graded; assumption.
    + replace (nibble u i) with 0 by lia. cbn [Z.eqb andb].
      eexists. split; [reflexivity|].
      apply (graded_num_mono (3 * Z.of_nat (length pre))); [lia|exact Hacc].
  - exists q. split; [apply (get_output_difference_placed a Hsize Hmax)|].
    split; [exact Hq|exact Hin].
Qed.

Lemma characteristic_graded (delta_p : Z) :
  exists u p,
    DCA.get_differential_characteristic (F := spec_float) a delta_p = Ok (u, p) /\
    graded_num
      (12 * Z.of_nat (length (range (SPN.rounds (DCA.sp_network a) - 1)))) p.
Proof.
  unfold DCA.get_differential_characteristic.
  destruct (for_each_inv
    (fun (pre : list Z) (st : Z * Num.num spec_float) =>
       graded_num (12 * Z.of_nat (length pre)) (snd st))
    (fun (st : Z * Num.num spec_float) (_ : Z) =>
       let (u, probability) := st in
       v <- DCA.get_output_difference a u ;;
       q <- DCA.get_difference_pair_probability (F := spec_float) a u v ;;
       u <- SPN.permute (DCA.sp_network a) v ;;
       Ok (u, Num.mul probability q))
    (range (SPN.rounds (DCA.sp_network a) - 1)) (delta_p, Num.PyInt 1))
    as [[u p] [Hres Hin]].
  - left. reflexivity.
  - intros pre i [u probability] post _ Hacc. cbn [snd] in Hacc.
    destruct (pair_probability_graded u) as [v [q [Hv [Hq Hqr]]]].
    rewrite Hv. cbn [bind]. rewrite Hq. cbn [bind].
    destruct (Hperm v) as [u' Hu']. rewrite Hu'. cbn [bind].
    eexists. split; [reflexivity|]. cbn [snd].
    assert (Hgrow : 12 * Z.of_nat (length (pre ++ [i]))
                    = 12 * Z.of_nat (length pre) + 12).
    { rewrite length_app. cbn [length]. lia. }
    rewrite Hgrow. apply graded_num_mul; [lia|lia|exact Hacc|exact Hqr].
  - exists u, p. split; [exact Hres|exact Hin].
Qed.

End DoubleProbability.

Lemma built_cell_even
  (ks : list Z) (sub perm : dict Z) (net : SPN.SP_Network) (delta_x : Z) :
  SPN.init ks sub perm = Ok net ->
  len sub = 16 ->
  values_below sub (len sub) ->
  0 < delta_x < 16 ->
  let a := DCA.mkDC net (ddt_table net) (SPN.data_size net) in
  exists row c,
    get (DCA.difference_distribution a) delta_x = Some row /\
    get row (max_delta_y_of a delta_x) = Some c /\
    0 < c <= 16 /\ c mod 2 = 0.
Proof.
  intros Hinit Hlen Hval Hdx. cbv zeta.
  pose proof (built_data_size ks sub perm net Hinit Hlen) as Hsize.
  destruct (built_cell ks sub perm net Hinit Hlen Hval delta_x Hdx)
    as [row [c [Hrow [Hc Hcr]]]].
  exists row, c. split; [exact Hrow|]. split; [exact Hc|]. split; [exact Hcr|].
  destruct (built_max ks sub perm net Hinit Hlen delta_x ltac:(lia))
    as [_ [Hmy _]].
  cbn [DCA.difference_distribution] in Hrow. unfold ddt_table in Hrow.
  rewrite (get_tabulate (fun d => ddt_row net d)) in Hrow
    by (apply in_range; rewrite Hsize; lia).
  injection Hrow as <-. unfold ddt_row in Hc.
  rewrite (get_tabulate (fun d => ddt_count net delta_x d)) in Hc
    by (apply in_range; rewrite Hsize; exact Hmy).
  injection Hc as <-.
  apply (count_even ks sub perm net Hinit 4 Hlen); [lia|].
  change (2 ^ 4) with 16. lia.
Qed.

(** C4, amended.  For every input difference and every 16-bit cipher whose
    substitution table has its values in the nibble domain (a bijective
    table in particular) and whose permutation table is defined on 1 .. 16,
    [get_differential_characteristic] returns, and the probability it
    returns, computed in IEEE 754 double precision as the code does, is
    the [int] 1 or a finite double q with 0 <= q <= 1; with at most 90
    rounds it is positive: every factor is an even count over 16, at least
    2^-3, so the product of the twelve factors of every round stays above
    the smallest positive double. *)
Theorem characteristic_probability_double_bounds
  (ks : list Z) (sub perm : dict Z) (net : SPN.SP_Network) (delta_p : Z) :
  SPN.init ks sub perm = Ok net ->
  len sub = 16 ->
  values_below sub (len sub) ->
  perm_defined net ->
  exists a u p q,
    DCA.calculate_difference_distribution (DCA.init net) = Ok a /\
    DCA.get_differential_characteristic (F := spec_float) a delta_p = Ok (u, p) /\
    double_value p = Some q /\
    (0 <= q)%Q /\ (q <= 1)%Q /\
    (SPN.rounds net <= 90 -> (0 < q)%Q).
Proof.
  intros Hinit Hlen Hval Hperm.
  set (a := DCA.mkDC net (ddt_table net) (SPN.data_size net)).
  destruct (characteristic_graded a) with (delta_p := delta_p)
    as [u [p [Hres Hgraded]]].
  - apply (built_data_size ks sub perm net Hinit Hlen).
  - intros delta_x Hdx.
    destruct (built_max ks sub perm net Hinit Hlen delta_x Hdx) as [H1 [H2 _]].
    split; assumption.
  - intros delta_x Hdx.
    apply (built_cell_even ks sub perm net delta_x Hinit Hlen Hval Hdx).
  - intros v. destruct (permute_bits net Hperm v) as [u [Hu _]].
    exists u. exact Hu.
  - assert (Hb : 0 <= 12 * Z.of_nat
                           (length (range (SPN.rounds (DCA.sp_network a) - 1))))
      by lia.
    destruct (graded_num_value _ p Hb Hgraded) as [q [Hq [H0 [H1 Hpos]]]].
    exists a, u, p, q. split; [apply calculate_difference_distribution_table|].
    split; [exact Hres|]. split; [exact Hq|]. split; [exact H0|].
    split; [exact H1|].
    intros Hrounds. apply Hpos.
    rewrite length_range. unfold a. cbn [DCA.sp_network]. lia.
Qed.

Lemma characteristic_probability_double_bounds_witness :
  exists a u p q,
    DCA.calculate_difference_distribution (DCA.init main_network) = Ok a /\
    DCA.get_differential_characteristic (F := spec_float) a 0x0B00 = Ok (u, p) /\
    double_value p = Some q /\
    (0 <= q)%Q /\ (q <= 1)%Q /\
    (SPN.rounds main_network <= 90 -> (0 < q)%Q).
Proof.
  apply (characteristic_probability_double_bounds
           main_keys main_substitution main_permutation main_network 0x0B00).
  - vm_compute. reflexivity.
  - vm_compute. reflexivity.
  - apply values_below_check_ok. vm_compute. reflexivity.
  - apply perm_defined_check_ok. vm_compute. reflexivity.
Defined.

(** ** Decryption against encryption *)

(** C1, the code diverges.  [decrypt] undoes the substitution with the
    inverse table but applies the permutation table forwards, as [encrypt]
    does.  With the identity substitution, zero round keys and the
    permutation that moves every position to the next one (a bijection of
    1 .. 16), the plaintext 1 encrypts to 2 and 2 decrypts to 4, not 1. *)
Theorem decrypt_applies_permutation_forwards :
  exists net,
    SPN.init [0; 0; 0] identity_substitution rotation_permutation = Ok net /\
    SPN.encrypt net 1 = Ok 2 /\
    SPN.decrypt net 2 = Ok 4 /\
    SPN.permute net 1 = Ok 2 /\
    SPN.permute net 2 = Ok 4.
Proof.
  eexists. split; [vm_compute; reflexivity|].
  repeat split; vm_compute; reflexivity.
Qed.

Section RoundTrip.

Lemma fold_set_fresh {V : Type} (l : list (Z * V)) :
  forall d, NoDup (Py.keys d ++ map fst l) ->
    fold_left (fun d kv => set d (fst kv) (snd kv)) l d = d ++ l.
Proof.
  induction l as [|[k v] l IH]; intros d Hnd; simpl.
  - rewrite app_nil_r. reflexivity.
  - simpl in Hnd. rewrite set_fresh.
    + rewrite IH.
      * rewrite <- app_assoc. reflexivity.
      * unfold Py.keys in *. rewrite map_app. simpl. rewrite <- app_assoc. exact Hnd.
    + apply NoDup_remove_2 in Hnd. intros Hin. apply Hnd.
      apply in_or_app. left. exact Hin.
Qed.

Lemma of_items_nodup {V : Type} (l : list (Z * V)) :
  NoDup (map fst l) -> of_items l = l.
Proof.
  intros Hnd. unfold of_items. rewrite fold_set_fresh; [reflexivity | exact Hnd].
Qed.

Lemma get_of_in {V : Type} (d : dict V) (k : Z) (v : V) :
  NoDup (Py.keys d) -> In (k, v) d -> get d k = Some v.
Proof.
  induction d as [|[k0 v0] d IH]; simpl; intros Hnd Hin; [contradiction|].
  inversion Hnd as [|? ? Hk0 Hnd']. subst.
  destruct Hin as [Heq|Hin].
  - inversion Heq. subst. rewrite Z.eqb_refl. reflexivity.
  - destruct (Z.eqb_spec k0 k) as [->|Hne].
    + exfalso. apply Hk0. unfold Py.keys.
      change k with (fst (k, v)). apply in_map. exact Hin.
    + apply IH; assumption.
Qed.

Variables (ks : list Z) (sub perm : dict Z) (net : SPN.SP_Network).
Hypothesis Hinit : SPN.init ks sub perm = Ok net.
Hypothesis Hbij : sub_bijective sub.

Lemma bijective_data_size : SPN.data_size net = 16.
Proof.
  destruct Hbij as [_ [_ [_ Hlen]]].
  apply (built_data_size ks sub perm net Hinit Hlen).
Qed.

(** The inverse table undoes the table on every nibble value. *)
Lemma sbox_inverse (g : Z) :
  0 <= g < 16 -> SPN.sbox net (SPN.sbox net g false) true = g.
Proof.
  intros Hg. destruct Hbij as [Hwf [Hinj [Hnib Hlen]]].
  destruct (init_fields ks sub perm net Hinit) as [_ [Hs [Hi _]]].
  assert (Hkey : In g (Py.keys sub)).
  { apply (NoDup_length_incl Hwf (l' := range 16)).
    - rewrite length_range. unfold Py.keys. rewrite length_map.
      unfold len in Hlen. lia.
    - intros k Hk. unfold Py.keys in Hk. apply in_map_iff in Hk.
      destruct Hk as [[k0 v0] [Hk0 Hin]]. simpl in Hk0. subst k0.
      unfold sub_in_nibbles in Hnib. rewrite Forall_forall in Hnib.
      apply Hnib in Hin. simpl in Hin. apply in_range. lia.
    - apply in_range. exact Hg. }
  unfold Py.keys in Hkey. apply in_map_iff in Hkey.
  destruct Hkey as [[g0 v] [Hg0 Hin]]. simpl in Hg0. subst g0.
  unfold SPN.sbox, get_default. rewrite Hs, Hi.
  rewrite (get_of_in sub g v Hwf Hin).
  rewrite of_items_nodup by (rewrite map_map; exact Hinj).
  assert (Hin' : In (v, g) (map (fun kv => (snd kv, fst kv)) sub)).
  { apply in_map_iff. exists (g, v). split; [reflexivity | exact Hin]. }
  rewrite (get_of_in _ v g); [reflexivity | | exact Hin'].
  unfold Py.keys. rewrite map_map. exact Hinj.
Qed.

Lemma bijective_in_nibbles : sub_in_nibbles sub.
Proof. destruct Hbij as [_ [_ [H _]]]. exact H. Qed.

Lemma bijective_width : SPN.data_size net mod 4 = 0.
Proof. rewrite bijective_data_size. reflexivity. Qed.

Lemma testbit_nibble (x k r : Z) :
  0 <= k -> 0 <= r -> Z.testbit (nibble x k) r = Z.testbit x (r + 4 * k) && (r <? 4).
Proof.
  intros Hk Hr. unfold nibble.
  rewrite Z.land_spec, Z.shiftr_spec, testbit_15 by lia. reflexivity.
Qed.

Lemma div_mod_4 (b : Z) : b mod 4 + 4 * (b / 4) = b.
Proof. pose proof (Z.div_mod b 4). lia. Qed.

(** [substitute] with the inverse table undoes [substitute]. *)
Lemma substitute_inverse (x : Z) :
  in_block net x ->
  exists y, SPN.substitute net x false = Ok y /\ SPN.substitute net y true = Ok x.
Proof.
  intros Hx. unfold in_block in Hx. rewrite bijective_data_size in Hx.
  destruct (substitute_bits ks sub perm net Hinit bijective_in_nibbles
              bijective_width x false) as [y [Hy Hyb]].
  destruct (substitute_bits ks sub perm net Hinit bijective_in_nibbles
              bijective_width y true) as [z [Hz Hzb]].
  rewrite bijective_data_size in Hyb, Hzb.
  exists y. split; [exact Hy|]. rewrite Hz. f_equal.
  assert (Hnib : forall k, 0 <= k < 4 ->
            nibble y k = SPN.sbox net (nibble x k) false).
  { intros k Hk. apply Z.bits_inj'. intros r Hr.
    rewrite testbit_nibble, Hyb by lia.
    destruct (Z.ltb_spec r 4) as [Hlt|Hge].
    - rewrite andb_true_r.
      destruct (Z.leb_spec 0 (r + 4 * k)); [|lia].
      destruct (Z.ltb_spec (r + 4 * k) 16); [|lia]. cbn [andb].
      replace ((r + 4 * k) / 4) with k
        by (apply Z.div_unique with (r := r); lia).
      replace ((r + 4 * k) mod 4) with r
        by (apply Z.mod_unique with (q := k); lia).
      reflexivity.
    - rewrite andb_false_r. symmetry.
      apply (testbit_above_bound _ 4); [|lia].
      apply (sbox_in_nibble ks sub perm net Hinit bijective_in_nibbles). }
  apply Z.bits_inj'. intros b Hb. rewrite Hzb.
  destruct (Z.leb_spec 0 b); [|lia]. cbn [andb].
  destruct (Z.ltb_spec b 16) as [Hlt|Hge]; cbn [andb].
  - assert (Hq : 0 <= b / 4 < 4).
    { split; [apply Z.div_pos; lia | apply Z.div_lt_upper_bound; lia]. }
    rewrite (Hnib (b / 4) Hq), sbox_inverse by apply nibble_range.
    pose proof (Z.mod_pos_bound b 4 ltac:(lia)) as Hr.
    rewrite testbit_nibble by lia.
    rewrite div_mod_4.
    destruct (Z.ltb_spec (b mod 4) 4); [|lia]. rewrite andb_true_r. reflexivity.
  - symmetry. apply (testbit_above_bound x 16); assumption.
Qed.

Hypothesis Hperm : perm_defined net.
Hypothesis Hinv : perm_involutive net.

(** With a permutation table that is its own inverse, [permute] undoes
    [permute]. *)
Lemma permute_involution (x : Z) :
  in_block net x ->
  exists y, SPN.permute net x = Ok y /\ SPN.permute net y = Ok x.
Proof.
  intros Hx. unfold in_block in Hx.
  destruct (permute_bits net Hperm x) as [y [Hy Hyb]].
  destruct (permute_bits net Hperm y) as [z [Hz Hzb]].
  exists y. split; [exact Hy|]. rewrite Hz. f_equal.
  set (N := SPN.data_size net) in *.
  apply Z.bits_inj'. intros b Hb. rewrite Hzb, Hyb.
  destruct (Z.leb_spec 0 b); [|lia]. cbn [andb].
  destruct (Z.ltb_spec b N) as [Hlt|Hge]; cbn [andb].
  - destruct (Hperm (N - b)) as [p [Hp Hpr]]; [fold N; lia|]. fold N in Hpr.
    assert (Hpa : perm_at net (N - b) = p).
    { unfold perm_at, get_default. rewrite Hp. reflexivity. }
    rewrite Hpa.
    destruct (Z.leb_spec 0 (N - p)); [|lia].
    destruct (Z.ltb_spec (N - p) N); [|lia]. cbn [andb].
    replace (N - (N - p)) with p by lia.
    rewrite <- Hpa, Hinv by (fold N; lia).
    f_equal. lia.
  - symmetry. apply (testbit_above_bound x N); assumption.
Qed.

End RoundTrip.

Section RoundTripRounds.

Lemma rev_seq (m : nat) :
  rev (seq 0 m) = map (fun j => (m - 1 - j)%nat) (seq 0 m).
Proof.
  induction m as [|m IH].
  - reflexivity.
  - rewrite seq_S at 1. rewrite rev_app_distr. simpl rev. simpl app.
    rewrite IH. simpl seq. simpl map. f_equal; [lia|].
    rewrite <- seq_shift, map_map. apply map_ext. intros j. lia.
Qed.

Lemma range3_down_rev (n : Z) : range3 (n - 1) (-1) (-1) = rev (range n).
Proof.
  rewrite range3_eq, range_eq. change (0 <? -1) with false. cbv iota.
  replace ((n - 1 - -1 - -1 - 1) / - -1) with n
    by (change (- -1) with 1; rewrite Z.div_1_r; lia).
  rewrite <- map_rev, rev_seq, map_map.
  apply map_ext_in. intros j Hj. apply in_seq in Hj. lia.
Qed.

(** Running the inverse steps in the opposite order undoes a loop. *)
Lemma for_each_rev_inverse (f g : Z -> Z -> res Z) (I : Z -> Prop) (l : list Z) :
  (forall i x, In i l -> I x -> exists y, f x i = Ok y /\ I y /\ g y i = Ok x) ->
  forall x, I x ->
    exists y, for_each l f x = Ok y /\ I y /\ for_each (rev l) g y = Ok x.
Proof.
  induction l as [|i l IH]; intros Hstep x Hx.
  - exists x. simpl. auto.
  - destruct (Hstep i x (or_introl eq_refl) Hx) as [x1 [Hf [Hx1 Hg]]].
    destruct (IH (fun j z Hj => Hstep j z (or_intror Hj)) x1 Hx1)
      as [y [Hy [Hyi Hback]]].
    exists y. simpl. rewrite Hf. cbn [bind].
    split; [exact Hy|]. split; [exact Hyi|].
    rewrite for_each_app, Hback. simpl. rewrite Hg. reflexivity.
Qed.

Variables (ks : list Z) (sub perm : dict Z) (net : SPN.SP_Network).
Hypothesis Hinit : SPN.init ks sub perm = Ok net.
Hypothesis Hbij : sub_bijective sub.
Hypothesis Hperm : perm_defined net.
Hypothesis Hinv : perm_involutive net.
Hypothesis Hkeys : keys_in_block ks (SPN.data_size net).
Hypothesis Hnonempty : ks <> [].

Lemma keymix_inverse (r x : Z) :
  - Z.of_nat (length ks) <= r < Z.of_nat (length ks) ->
  in_block net x ->
  exists y, SPN.keymix net r x = Ok y /\ in_block net y /\ SPN.keymix net r y = Ok x.
Proof.
  intros Hr Hx.
  destruct (keymix_in_block ks sub perm net Hinit Hkeys r x Hr Hx) as [y [Hy Hyb]].
  exists y. split; [exact Hy|]. split; [exact Hyb|].
  unfold SPN.keymix in *.
  destruct (list_item (SPN.keys net) r) as [k|e]; [|discriminate].
  simpl in *. injection Hy as <-.
  rewrite <- Z.lxor_assoc, Z.lxor_nilpotent, Z.lxor_0_l. reflexivity.
Qed.

Lemma substitute_inverse_in_block (x : Z) :
  in_block net x ->
  exists y, SPN.substitute net x false = Ok y /\ in_block net y /\
            SPN.substitute net y true = Ok x.
Proof.
  intros Hx.
  destruct (substitute_inverse ks sub perm net Hinit Hbij x Hx) as [y [Hy Hback]].
  exists y. split; [exact Hy|]. split; [|exact Hback].
  destruct (substitute_in_block ks sub perm net Hinit
              (bijective_in_nibbles sub Hbij)
              (bijective_width ks sub perm net Hinit Hbij) x false) as [y' [Hy' Hb]].
  rewrite Hy in Hy'. injection Hy' as <-. exact Hb.
Qed.

Lemma permute_involution_in_block (x : Z) :
  in_block net x ->
  exists y, SPN.permute net x = Ok y /\ in_block net y /\ SPN.permute net y = Ok x.
Proof.
  intros Hx.
  destruct (permute_involution net Hperm Hinv x Hx) as [y [Hy Hback]].
  exists y. split; [exact Hy|]. split; [|exact Hback].
  destruct (permute_in_block ks sub perm net Hinit Hperm x) as [y' [Hy' Hb]].
  rewrite Hy in Hy'. injection Hy' as <-. exact Hb.
Qed.

Lemma run_round_inverse (i x : Z) :
  0 <= i < Z.of_nat (length ks) -> in_block net x ->
  exists y, SPN.run_round net i x = Ok y /\ in_block net y /\
            SPN.run_reverse_round net i y = Ok x.
Proof.
  intros Hi Hx. unfold SPN.run_round, SPN.run_reverse_round.
  destruct (keymix_inverse i x ltac:(lia) Hx) as [a [Ha [Hab Haback]]].
  destruct (substitute_inverse_in_block a Hab) as [b [Hb [Hbb Hbback]]].
  destruct (permute_involution_in_block b Hbb) as [c [Hc [Hcb Hcback]]].
  exists c. rewrite Ha. cbn [bind]. rewrite Hb. cbn [bind].
  split; [exact Hc|]. split; [exact Hcb|].
  rewrite Hcback. cbn [bind]. rewrite Hbback. cbn [bind]. exact Haback.
Qed.

Lemma run_last_round_inverse (x : Z) :
  in_block net x ->
  exists y, SPN.run_last_round net x = Ok y /\ in_block net y /\
            SPN.run_reverse_last_round net y = Ok x.
Proof.
  intros Hx. unfold SPN.run_last_round, SPN.run_reverse_last_round.
  rewrite (rounds_eq ks sub perm net Hinit).
  pose proof (length_keys_pos ks sub perm net Hinit Hkeys Hnonempty) as Hl.
  destruct (keymix_inverse (Z.of_nat (length ks) - 1 - 1) x ltac:(lia) Hx)
    as [a [Ha [Hab Haback]]].
  destruct (substitute_inverse_in_block a Hab) as [b [Hb [Hbb Hbback]]].
  destruct (keymix_inverse (Z.of_nat (length ks) - 1) b ltac:(lia) Hbb)
    as [c [Hc [Hcb Hcback]]].
  exists c. rewrite Ha. cbn [bind]. rewrite Hb. cbn [bind].
  split; [exact Hc|]. split; [exact Hcb|].
  rewrite Hcback. cbn [bind]. rewrite Hbback. cbn [bind]. exact Haback.
Qed.

(** What the code does achieve: decryption undoes encryption when the
    permutation table is its own inverse, as the table of the driver is. *)
Lemma decrypt_encrypt_involutive_permutation (x : Z) :
  in_block net x ->
  exists c, SPN.encrypt net x = Ok c /\ SPN.decrypt net c = Ok x.
Proof.
  intros Hx. unfold SPN.encrypt, SPN.decrypt.
  destruct (for_each_rev_inverse
              (fun buffer i => SPN.run_round net i buffer)
              (fun buffer i => SPN.run_reverse_round net i buffer)
              (in_block net) (range (SPN.rounds net - 1))) with (x := x)
    as [y [Hy [Hyb Hback]]].
  - intros i z Hi Hz. apply in_range in Hi.
    rewrite (rounds_eq ks sub perm net Hinit) in Hi.
    apply run_round_inverse; [lia | exact Hz].
  - exact Hx.
  - destruct (run_last_round_inverse y Hyb) as [c [Hc [_ Hcback]]].
    exists c. rewrite Hy. cbn [bind]. split; [exact Hc|].
    rewrite Hcback. cbn [bind].
    replace (SPN.rounds net - 2) with (SPN.rounds net - 1 - 1) by lia.
    rewrite range3_down_rev. exact Hback.
Qed.

End RoundTripRounds.

Lemma distinct_ok (l : list Z) : distinct l = true -> NoDup l.
Proof.
  induction l as [|x l IH]; simpl; intros H; [constructor|].
  apply andb_prop in H. destruct H as [Hx Hl].
  constructor; [|apply IH; exact Hl].
  intros Hin. apply negb_true_iff in Hx.
  assert (Hex : existsb (Z.eqb x) l = true).
  { apply existsb_exists. exists x. split; [exact Hin | apply Z.eqb_refl]. }
  congruence.
Qed.

Lemma sub_bijective_check_ok (sub : dict Z) :
  sub_bijective_check sub = true -> sub_bijective sub.
Proof.
  unfold sub_bijective_check, sub_bijective. intros H.
  apply andb_prop in H. destruct H as [H Hlen].
  apply andb_prop in H. destruct H as [H Hnib].
  apply andb_prop in H. destruct H as [Hk Hv].
  split; [apply distinct_ok; exact Hk|].
  split; [apply distinct_ok; exact Hv|].
  split; [apply sub_in_nibbles_check_ok; exact Hnib | apply Z.eqb_eq; exact Hlen].
Qed.

Lemma perm_involutive_check_ok (net : SPN.SP_Network) :
  perm_involutive_check net = true -> perm_involutive net.
Proof.
  unfold perm_involutive_check, perm_involutive. intros H i Hi.
  rewrite forallb_forall in H. apply Z.eqb_eq. apply H.
  apply in_range2. lia.
Qed.

(** The cipher of the driver meets the conditions of the lemma above. *)
Example main_round_trip :
  exists c, SPN.encrypt main_network 782 = Ok c /\ SPN.decrypt main_network c = Ok 782.
Proof.
  apply (decrypt_encrypt_involutive_permutation
           main_keys main_substitution main_permutation main_network).
  - vm_compute. reflexivity.
  - apply sub_bijective_check_ok. vm_compute. reflexivity.
  - apply perm_defined_check_ok. vm_compute. reflexivity.
  - apply perm_involutive_check_ok. vm_compute. reflexivity.
  - apply keys_in_block_check_ok. vm_compute. reflexivity.
  - discriminate.
  - vm_compute. split; [discriminate | reflexivity].
Qed.

(** The driver's own run: five round keys and the input difference 0x0B00
    give the characteristic 0x0606 with the double 27 * 2^-10, which is
    27/1024. *)
Example main_characteristic :
  DCA.get_differential_characteristic (F := spec_float) main_analysis 0x0B00
  = Ok (0x0606, Num.PyFloat (S754_finite false (27 * 2 ^ 48) (-58))) /\
  exists q,
    double_value (Num.PyFloat (S754_finite false (27 * 2 ^ 48) (-58))) = Some q /\
    (q == 27 # 1024)%Q.
Proof.
  split; [vm_compute; reflexivity|].
  eexists. split; [reflexivity|]. vm_compute. reflexivity.
Qed.

(** The bound of 90 rounds cannot be raised: with a bijective table whose
    rows 4, 2 and 14 hold no count above 2, the identity permutation and 91
    rounds, the input difference 0x4444 loses the factor 2^-12 in each of
    the 90 rounds propagated, and the double product is 0.0; with 90 rounds
    it is 2^-1068. *)
Example characteristic_probability_bound_is_tight :
  sub_bijective flat_substitution /\
  (exists net a,
     SPN.init (repeat 0 92) flat_substitution identity_permutation = Ok net /\
     SPN.rounds net = 91 /\
     DCA.calculate_difference_distribution (DCA.init net) = Ok a /\
     DCA.get_differential_characteristic (F := spec_float) a 0x4444
     = Ok (0x4444, Num.PyFloat (S754_zero false))) /\
  (exists net a,
     SPN.init (repeat 0 91) flat_substitution identity_permutation = Ok net /\
     SPN.rounds net = 90 /\
     DCA.calculate_difference_distribution (DCA.init net) = Ok a /\
     DCA.get_differential_characteristic (F := spec_float) a 0x4444
     = Ok (0x4444, Num.PyFloat (S754_finite false 64 (-1074)))).
Proof.
  split; [apply sub_bijective_check_ok; vm_compute; reflexivity|].
  split.
  - eexists. eexists. split; [vm_compute; reflexivity|].
    split; [vm_compute; reflexivity|].
    split; [vm_compute; reflexivity|].
    vm_compute. reflexivity.
  - eexists. eexists. split; [vm_compute; reflexivity|].
    split; [vm_compute; reflexivity|].
    split; [vm_compute; reflexivity|].
    vm_compute. reflexivity.
Qed.

(** * Further properties of sp_network.py *)

Lemma perm_onto_check_ok (net : SPN.SP_Network) :
  perm_onto_check net = true -> perm_onto net.
Proof.
  unfold perm_onto_check, perm_onto. intros H p Hp.
  rewrite forallb_forall in H.
  assert (Hin : In p (range2 1 (SPN.data_size net + 1))) by (apply in_range2; lia).
  apply H in Hin. rename Hin into Hex. clear H.
  apply existsb_exists in Hex. rename Hex into H. destruct H as [i [Hi Hq]].
  apply in_range2 in Hi. exists i. split; [lia|].
  destruct (get (SPN.permutation net) i) as [q|]; [|discriminate].
  apply Z.eqb_eq in Hq. subst q. reflexivity.
Qed.

(** ** [keymix] *)

Lemma list_item_raises {A : Type} (l : list A) (i : Z) :
  i < - Z.of_nat (length l) \/ Z.of_nat (length l) <= i ->
  list_item l i = Raise IndexError.
Proof.
  intros Hi. unfold list_item.
  destruct (Z.ltb_spec i 0) as [Hneg|Hpos].
  - destruct (Z.ltb_spec (i + Z.of_nat (length l)) 0); [reflexivity | lia].
  - destruct (Z.ltb_spec i 0); [lia|].
    destruct (Z.leb_spec (Z.of_nat (length l)) i); [reflexivity | lia].
Qed.

(** X1. [keymix] raises [IndexError] exactly when the round index is
    outside the key list (negative indices count from the end); when it
    returns, applying it again with the same index gives the input back, and
    the XOR of two results is the XOR of the two inputs: the key cancels. *)
Theorem keymix_index_and_involution (net : SPN.SP_Network) (r x y : Z) :
  let n := Z.of_nat (length (SPN.keys net)) in
  (SPN.keymix net r x = Raise IndexError <-> (r < - n \/ n <= r)) /\
  (forall x', SPN.keymix net r x = Ok x' -> SPN.keymix net r x' = Ok x) /\
  (forall x' y', SPN.keymix net r x = Ok x' -> SPN.keymix net r y = Ok y' ->
     Z.lxor x' y' = Z.lxor x y).
Proof.
  intros n. unfold SPN.keymix.
  destruct (Z_lt_le_dec r (- n)) as [Hlow|Hlow];
    [|destruct (Z_lt_le_dec r n) as [Hin|Hhigh]].
  - rewrite list_item_raises by (fold n; lia). simpl.
    split; [split; [intros _; lia | reflexivity]|].
    split; intros; discriminate.
  - destruct (list_item_ok (SPN.keys net) r) as [k [Hk _]]; [fold n; lia|].
    rewrite Hk. simpl. split; [split; [discriminate | lia]|]. split.
    + intros x' Hx. injection Hx as <-.
      rewrite <- Z.lxor_assoc, Z.lxor_nilpotent, Z.lxor_0_l. reflexivity.
    + intros x' y' Hx Hy. injection Hx as <-. injection Hy as <-.
      rewrite (Z.lxor_comm k x), Z.lxor_assoc, <- (Z.lxor_assoc k k y).
      rewrite Z.lxor_nilpotent, Z.lxor_0_l. reflexivity.
  - rewrite list_item_raises by (fold n; lia). simpl.
    split; [split; [intros _; lia | reflexivity]|].
    split; intros; discriminate.
Qed.

(** ** Errors of [permute] and [substitute] *)

Lemma for_each_ok_all {A X : Type} (good : X -> Prop) (body : A -> X -> res A)
  (l : list X) :
  (forall acc x acc', In x l -> body acc x = Ok acc' -> good x) ->
  forall a r, for_each l body a = Ok r -> forall x, In x l -> good x.
Proof.
  induction l as [|x0 l IH]; intros Hgood a r Hr x Hx; [contradiction|].
  simpl in Hr. destruct (body a x0) as [a'|e] eqn:E; [|discriminate].
  destruct Hx as [<-|Hx].
  - exact (Hgood a x0 a' (or_introl eq_refl) E).
  - simpl in Hr. apply (IH (fun acc y acc' Hy => Hgood acc y acc' (or_intror Hy)) a' r Hr x Hx).
Qed.

Lemma range2_empty (a : Z) : range2 a a = [].
Proof. rewrite range2_eq, Z.sub_diag. reflexivity. Qed.

Lemma range2_app (a b c : Z) :
  a <= b <= c -> range2 a c = range2 a b ++ range2 b c.
Proof.
  intros H.
  remember (Z.to_nat (b - a)) as n eqn:Hn. revert a H Hn.
  induction n as [|n IH]; intros a H Hn.
  - assert (a = b) by lia. subst a. rewrite range2_empty. reflexivity.
  - rewrite (range2_cons a c), (range2_cons a b) by lia.
    simpl. f_equal. apply IH; lia.
Qed.

Section PermuteErrors.

Variable net : SPN.SP_Network.
Variable x : Z.

Let N := SPN.data_size net.

(** The entry of position [i] lets the loop of [permute] pass. *)
Let passes (i : Z) : Prop :=
  exists p, get (SPN.permutation net) i = Some p /\ p <= N.

Let body (output_data i : Z) : res Z :=
  p <- item (SPN.permutation net) i ;;
  b <- rshift x (N - p) ;;
  s <- lshift (Z.land b 1) (N - i) ;;
  Ok (Z.lor output_data s).

Lemma permute_body_ok (acc i acc' : Z) : body acc i = Ok acc' -> passes i.
Proof.
  unfold body, item, rshift. intros H.
  destruct (get (SPN.permutation net) i) as [p|] eqn:E; [|discriminate].
  cbn [bind] in H. exists p. split; [exact E|].
  destruct (Z.ltb_spec (N - p) 0); [discriminate | lia].
Qed.

Lemma permute_body_passes (acc i : Z) :
  i <= N -> passes i -> exists acc', body acc i = Ok acc'.
Proof.
  intros Hi [p [Hp Hle]]. unfold body, item, rshift, lshift. rewrite Hp. cbn [bind].
  destruct (Z.ltb_spec (N - p) 0); [lia|]. cbn [bind].
  destruct (Z.ltb_spec (N - i) 0); [lia|]. cbn [bind].
  eexists. reflexivity.
Qed.

Lemma permute_prefix_ok (j : Z) :
  j <= N + 1 ->
  (forall i, 1 <= i < j -> passes i) ->
  exists acc, for_each (range2 1 j) body 0 = Ok acc.
Proof.
  intros Hj Hall.
  destruct (for_each_inv (fun _ (_ : Z) => True) body (range2 1 j) 0 I)
    as [acc [Hacc _]].
  - intros pre i acc post Heq _.
    destruct (range2_split _ _ _ _ _ Heq) as [Hi _].
    destruct (permute_body_passes acc i ltac:(lia) (Hall i Hi)) as [acc' Hacc'].
    exists acc'. split; [exact Hacc' | exact I].
  - exists acc. exact Hacc.
Qed.

Lemma permute_returns_iff :
  (exists out, SPN.permute net x = Ok out) <-> (forall i, 1 <= i <= N -> passes i).
Proof.
  unfold SPN.permute. fold N. fold body. split.
  - intros [out Hout] i Hi.
    apply (for_each_ok_all passes body (range2 1 (N + 1))) with (a := 0) (r := out).
    + intros acc j acc' _ H. exact (permute_body_ok acc j acc' H).
    + exact Hout.
    + apply in_range2. lia.
  - intros Hall. apply permute_prefix_ok; [lia|].
    intros i Hi. apply Hall. lia.
Qed.

Lemma permute_first_failure (i0 : Z) (e : exn) :
  1 <= i0 <= N ->
  (forall i, 1 <= i < i0 -> passes i) ->
  (forall acc, body acc i0 = Raise e) ->
  SPN.permute net x = Raise e.
Proof.
  intros Hi0 Hbefore Hfail. unfold SPN.permute. fold N. fold body.
  rewrite (range2_app 1 i0 (N + 1)) by lia.
  rewrite for_each_app.
  destruct (permute_prefix_ok i0 ltac:(lia) Hbefore) as [acc Hacc].
  rewrite Hacc. cbn [bind]. rewrite (range2_cons i0 (N + 1)) by lia.
  simpl. rewrite Hfail. reflexivity.
Qed.

End PermuteErrors.

(** X2. [permute] returns exactly when the permutation table has an entry
    for every position 1 .. N and no entry exceeds N.  At the first
    position that fails, a missing entry is a [KeyError] and an entry above
    N, which makes the shift count negative, is a [ValueError]. *)
Theorem permute_error_behaviour (net : SPN.SP_Network) (x : Z) :
  let N := SPN.data_size net in
  let passes i := exists p, get (SPN.permutation net) i = Some p /\ p <= N in
  ((exists out, SPN.permute net x = Ok out) <-> (forall i, 1 <= i <= N -> passes i)) /\
  (forall i0, 1 <= i0 <= N -> (forall i, 1 <= i < i0 -> passes i) ->
     (get (SPN.permutation net) i0 = None -> SPN.permute net x = Raise KeyError) /\
     (forall p, get (SPN.permutation net) i0 = Some p -> N < p ->
        SPN.permute net x = Raise ValueError)).
Proof.
  intros N passes. split; [apply permute_returns_iff|].
  intros i0 Hi0 Hbefore. split.
  - intros Hnone. apply (permute_first_failure net x i0 KeyError Hi0 Hbefore).
    intros acc. unfold item. rewrite Hnone. reflexivity.
  - intros p Hp Hbig. apply (permute_first_failure net x i0 ValueError Hi0 Hbefore).
    intros acc. unfold item, rshift. rewrite Hp. cbn [bind].
    destruct (Z.ltb_spec (SPN.data_size net - p) 0); [reflexivity | subst N; lia].
Qed.

Lemma keymix_witness_network :
  SPN.keymix main_network 5 0 = Raise IndexError /\
  SPN.keymix main_network (-1) 7 = Ok 515.
Proof.
  split.
  - apply (proj1 (keymix_index_and_involution main_network 5 0 0)).
    vm_compute. right. discriminate.
  - apply (proj1 (proj2 (keymix_index_and_involution main_network (-1) 515 0))).
    vm_compute. reflexivity.
Defined.

Lemma permute_error_behaviour_witness :
  SPN.permute (SPN.mkSP [] [] [] [(1, 1); (2, 3)] 0 2) 1 = Raise ValueError /\
  SPN.permute (SPN.mkSP [] [] [] [(1, 1)] 0 2) 1 = Raise KeyError.
Proof.
  split.
  - apply (proj2 (proj2 (permute_error_behaviour
                           (SPN.mkSP [] [] [] [(1, 1); (2, 3)] 0 2) 1) 2
                   ltac:(vm_compute; split; discriminate)
                   ltac:(intros i Hi; assert (i = 1) as -> by lia;
                         exists 1; vm_compute; split; [reflexivity | discriminate]))
            3).
    + reflexivity.
    + vm_compute. reflexivity.
  - apply (proj1 (proj2 (permute_error_behaviour
                           (SPN.mkSP [] [] [] [(1, 1)] 0 2) 1) 2
                   ltac:(vm_compute; split; discriminate)
                   ltac:(intros i Hi; assert (i = 1) as -> by lia;
                         exists 1; vm_compute; split; [reflexivity | discriminate]))).
    reflexivity.
Defined.

Lemma bind_of_ok {A B : Type} (m : res A) (k : A -> res B) (a : A) :
  m = Ok a -> bind m k = k a.
Proof. intros ->. reflexivity. Qed.

Lemma range_nil (n : Z) : n <= 0 -> range n = [].
Proof.
  intros Hn. rewrite range_eq.
  replace (Z.to_nat n) with 0%nat by lia. reflexivity.
Qed.

Lemma range_snoc (n : Z) : 0 <= n -> range (n + 1) = range n ++ [n].
Proof.
  intros Hn. rewrite !range_eq.
  replace (Z.to_nat (n + 1)) with (Z.to_nat n + 1)%nat by lia.
  rewrite seq_app, map_app. simpl. f_equal. f_equal. lia.
Qed.

Section SubstituteErrors.

Variable net : SPN.SP_Network.

Let N := SPN.data_size net.

Hypothesis Hpos : 0 < N.
Hypothesis Hodd : N mod 4 <> 0.

Lemma substitute_raises (x : Z) (invert : bool) :
  SPN.substitute net x invert = Raise ValueError.
Proof.
  unfold SPN.substitute. fold N.
  set (m := (N + 3) / 4).
  assert (Hm : 4 * m - 3 <= N < 4 * m).
  { unfold m. pose proof (Z.div_mod (N + 3) 4 ltac:(lia)) as Hdm.
    pose proof (Z.mod_pos_bound (N + 3) 4 ltac:(lia)) as Hb.
    pose proof (Z.div_mod N 4 ltac:(lia)) as Hdn.
    pose proof (Z.mod_pos_bound N 4 ltac:(lia)) as Hbn.
    assert (Hne : (N + 3) mod 4 <> 3).
    { intros H3. apply Hodd.
      assert (Hq : N = 4 * ((N + 3) / 4)) by lia.
      rewrite Hq, Z.mul_comm. apply Z.mod_mul. lia. }
    lia. }
  assert (Hlist : range3 0 N 4 = map (fun j => 4 * j) (range m)).
  { rewrite range3_eq, range_eq. change (0 <? 4) with true. cbv iota.
    replace (N - 0 + 4 - 1) with (N + 3) by lia. fold m.
    rewrite map_map. apply map_ext. intros j. lia. }
  rewrite Hlist, for_each_map.
  replace m with (m - 1 + 1) by lia. rewrite range_snoc by lia.
  rewrite for_each_app.
  destruct (for_each_inv (fun _ (_ : Z) => True)
    (fun acc j =>
       g <- rshift x (N - 4 * j - 4) ;;
       let group := Z.land g 15 in
       let sbox_result := SPN.sbox net group invert in
       Ok (Z.lor (Z.shiftl acc 4) sbox_result))
    (range (m - 1)) 0 I) as [acc [Hacc _]].
  - intros pre j acc post Heq _. apply range_prefix in Heq. destruct Heq as [_ Hj].
    unfold rshift. destruct (Z.ltb_spec (N - 4 * j - 4) 0); [lia|].
    cbn [bind]. eexists. split; [reflexivity | exact I].
  - erewrite bind_of_ok by exact Hacc. cbn [bind for_each]. unfold rshift.
    destruct (Z.ltb_spec (N - 4 * (m - 1) - 4) 0); [reflexivity | lia].
Qed.

End SubstituteErrors.

(** X3. The constructor accepts tables whose common size is not a multiple
    of 4, but on such a network [substitute] raises [ValueError] (the last
    group needs a negative shift count), and with it every [encrypt] and
    every [decrypt], whatever the input and the round keys. *)
Theorem width_not_multiple_of_4_raises
  (ks : list Z) (sub perm : dict Z) (net : SPN.SP_Network) (x : Z) :
  SPN.init ks sub perm = Ok net ->
  ks <> [] ->
  len sub mod 4 <> 0 ->
  (forall invert, SPN.substitute net x invert = Raise ValueError) /\
  SPN.encrypt net x = Raise ValueError /\
  SPN.decrypt net x = Raise ValueError.
Proof.
  intros Hinit Hne Hodd.
  destruct (init_fields ks sub perm net Hinit) as [Hk [_ [_ [_ [Hr [Hd _]]]]]].
  assert (Hpos : 0 < SPN.data_size net).
  { rewrite Hd. unfold len in *. destruct sub; [simpl in Hodd; contradiction|].
    simpl length. lia. }
  rewrite <- Hd in Hodd.
  assert (Hsub : forall y invert, SPN.substitute net y invert = Raise ValueError)
    by (intros y invert; apply substitute_raises; assumption).
  assert (Hlen : 0 < Z.of_nat (length ks)) by (destruct ks; [contradiction | simpl; lia]).
  assert (Hmix : forall r y, - Z.of_nat (length ks) <= r < Z.of_nat (length ks) ->
            exists z, SPN.keymix net r y = Ok z).
  { intros r y Hrange. unfold SPN.keymix. rewrite Hk.
    destruct (list_item_ok ks r Hrange) as [k [Hitem _]].
    rewrite Hitem. simpl. eexists. reflexivity. }
  split; [intros invert; apply Hsub|]. split.
  - unfold SPN.encrypt.
    destruct (Z_lt_le_dec 0 (SPN.rounds net - 1)) as [Hmany|Hfew].
    + rewrite (range_split (SPN.rounds net - 1) 0) by lia.
      rewrite (range_nil 0) by lia. simpl. unfold SPN.run_round.
      destruct (Hmix 0 x ltac:(lia)) as [z Hz]. rewrite Hz. cbn [bind].
      rewrite Hsub. reflexivity.
    + rewrite range_nil by lia. simpl. unfold SPN.run_last_round.
      destruct (Hmix (SPN.rounds net - 1) x ltac:(lia)) as [z Hz].
      rewrite Hz. cbn [bind]. rewrite Hsub. reflexivity.
  - unfold SPN.decrypt, SPN.run_reverse_last_round.
    destruct (Hmix (SPN.rounds net) x ltac:(lia)) as [z Hz].
    rewrite Hz. cbn [bind]. rewrite Hsub. reflexivity.
Qed.

Lemma width_not_multiple_of_4_raises_witness :
  (forall invert,
     SPN.substitute (network_of [5] [(0, 1); (1, 0)] [(1, 2); (2, 1)]) 3 invert
     = Raise ValueError) /\
  SPN.encrypt (network_of [5] [(0, 1); (1, 0)] [(1, 2); (2, 1)]) 3 = Raise ValueError /\
  SPN.decrypt (network_of [5] [(0, 1); (1, 0)] [(1, 2); (2, 1)]) 3 = Raise ValueError.
Proof.
  apply (width_not_multiple_of_4_raises [5] [(0, 1); (1, 0)] [(1, 2); (2, 1)]).
  - vm_compute. reflexivity.
  - discriminate.
  - vm_compute. discriminate.
Defined.

(** ** [permute] on a bijective table *)

Lemma permute_one_to_one (net : SPN.SP_Network) (x y : Z) :
  perm_defined net ->
  perm_onto net ->
  in_block net x ->
  in_block net y ->
  SPN.permute net x = SPN.permute net y ->
  x = y.
Proof.
  intros Hdef Honto Hx Hy Heq. unfold in_block in *.
  set (N := SPN.data_size net) in *.
  destruct (permute_bits net Hdef x) as [a [Ha Hab]].
  destruct (permute_bits net Hdef y) as [b [Hb Hbb]].
  rewrite Ha, Hb in Heq. injection Heq as <-. fold N in Hab, Hbb.
  apply Z.bits_inj'. intros k Hk.
  destruct (Z_lt_le_dec k N) as [Hlt|Hge].
  - destruct (Honto (N - k)) as [i [Hi Hp]]; [fold N; lia|]. fold N in Hi.
    assert (Hpa : perm_at net i = N - k).
    { unfold perm_at, get_default. rewrite Hp. reflexivity. }
    pose proof (Hab (N - i)) as Hxa. pose proof (Hbb (N - i)) as Hya.
    replace (N - (N - i)) with i in Hxa, Hya by lia.
    rewrite Hpa in Hxa, Hya.
    replace (N - (N - k)) with k in Hxa, Hya by lia.
    destruct (Z.leb_spec 0 (N - i)); [|lia].
    destruct (Z.ltb_spec (N - i) N); [|lia].
    cbn [andb] in Hxa, Hya. congruence.
  - rewrite (testbit_above_bound x N k), (testbit_above_bound y N k) by assumption.
    reflexivity.
Qed.

Lemma permute_zero (net : SPN.SP_Network) :
  perm_defined net -> SPN.permute net 0 = Ok 0.
Proof.
  intros Hdef. destruct (permute_bits net Hdef 0) as [out [Hout Hbits]].
  rewrite Hout. f_equal. apply Z.bits_inj'. intros b Hb.
  rewrite Hbits, !Z.bits_0, andb_false_r. reflexivity.
Qed.

(** X4. With a permutation table that is defined on 1 .. N and reaches
    every position, [permute] loses nothing: two blocks with the same image
    are the same block. *)
Theorem permute_injective (net : SPN.SP_Network) (x y : Z) :
  perm_defined net ->
  perm_onto net ->
  in_block net x ->
  in_block net y ->
  SPN.permute net x = SPN.permute net y ->
  x = y.
Proof.
  intros Hdef Honto Hx Hy Heq.
  exact (permute_one_to_one net x y Hdef Honto Hx Hy Heq).
Qed.

Lemma permute_injective_witness : 782 = 782.
Proof.
  apply (permute_injective main_network 782 782).
  - apply perm_defined_check_ok. vm_compute. reflexivity.
  - apply perm_onto_check_ok. vm_compute. reflexivity.
  - vm_compute. split; [discriminate | reflexivity].
  - vm_compute. split; [discriminate | reflexivity].
  - reflexivity.
Defined.

(** ** Inverting [substitute], [encrypt] and [decrypt] *)

Section BothDirections.

Variables (ks : list Z) (sub perm : dict Z) (net : SPN.SP_Network).
Hypothesis Hinit : SPN.init ks sub perm = Ok net.
Hypothesis Hbij : sub_bijective sub.

(** The table undoes the inverse table on every nibble value. *)
Lemma sbox_inverse_back (g : Z) :
  0 <= g < 16 -> SPN.sbox net (SPN.sbox net g true) false = g.
Proof.
  intros Hg. destruct Hbij as [Hwf [Hinj [Hnib Hlen]]].
  destruct (init_fields ks sub perm net Hinit) as [_ [Hs [Hi _]]].
  assert (Hval : In g (map snd sub)).
  { apply (NoDup_length_incl Hinj (l' := range 16)).
    - rewrite length_range, length_map. unfold len in Hlen. lia.
    - intros v Hv. apply in_map_iff in Hv.
      destruct Hv as [[k0 v0] [Hv0 Hin]]. simpl in Hv0. subst v0.
      unfold sub_in_nibbles in Hnib. rewrite Forall_forall in Hnib.
      apply Hnib in Hin. simpl in Hin. apply in_range. lia.
    - apply in_range. exact Hg. }
  apply in_map_iff in Hval. destruct Hval as [[k g0] [Hg0 Hin]].
  simpl in Hg0. subst g0.
  unfold SPN.sbox, get_default. rewrite Hs, Hi.
  rewrite of_items_nodup by (rewrite map_map; exact Hinj).
  assert (Hin' : In (g, k) (map (fun kv => (snd kv, fst kv)) sub)).
  { apply in_map_iff. exists (k, g). split; [reflexivity | exact Hin]. }
  rewrite (get_of_in _ g k); [| unfold Py.keys; rewrite map_map; exact Hinj | exact Hin'].
  rewrite (get_of_in sub k g Hwf Hin). reflexivity.
Qed.

Lemma sbox_inverse_either (invert : bool) (g : Z) :
  0 <= g < 16 -> SPN.sbox net (SPN.sbox net g invert) (negb invert) = g.
Proof.
  destruct invert; simpl.
  - apply sbox_inverse_back.
  - apply (sbox_inverse ks sub perm net Hinit Hbij).
Qed.

Lemma substitute_undone (invert : bool) (x : Z) :
  in_block net x ->
  exists y, SPN.substitute net x invert = Ok y /\ in_block net y /\
            SPN.substitute net y (negb invert) = Ok x.
Proof.
  intros Hx.
  pose proof (bijective_in_nibbles sub Hbij) as Hnibbles.
  pose proof (bijective_width ks sub perm net Hinit Hbij) as Hwidth.
  pose proof (bijective_data_size ks sub perm net Hinit Hbij) as Hsize.
  destruct (substitute_in_block ks sub perm net Hinit Hnibbles Hwidth x invert)
    as [y [Hy Hyblock]].
  exists y. split; [exact Hy|]. split; [exact Hyblock|].
  unfold in_block in Hx. rewrite Hsize in Hx.
  destruct (substitute_bits ks sub perm net Hinit Hnibbles Hwidth x invert)
    as [y' [Hy' Hyb]].
  rewrite Hy in Hy'. injection Hy' as <-.
  destruct (substitute_bits ks sub perm net Hinit Hnibbles Hwidth y (negb invert))
    as [z [Hz Hzb]].
  rewrite Hsize in Hyb, Hzb. rewrite Hz. f_equal.
  assert (Hnib : forall k, 0 <= k < 4 ->
            nibble y k = SPN.sbox net (nibble x k) invert).
  { intros k Hk. apply Z.bits_inj'. intros r Hr.
    rewrite testbit_nibble, Hyb by lia.
    destruct (Z.ltb_spec r 4) as [Hlt|Hge].
    - rewrite andb_true_r.
      destruct (Z.leb_spec 0 (r + 4 * k)); [|lia].
      destruct (Z.ltb_spec (r + 4 * k) 16); [|lia]. cbn [andb].
      replace ((r + 4 * k) / 4) with k
        by (apply Z.div_unique with (r := r); lia).
      replace ((r + 4 * k) mod 4) with r
        by (apply Z.mod_unique with (q := k); lia).
      reflexivity.
    - rewrite andb_false_r. symmetry.
      apply (testbit_above_bound _ 4); [|lia].
      apply (sbox_in_nibble ks sub perm net Hinit Hnibbles). }
  apply Z.bits_inj'. intros b Hb. rewrite Hzb.
  destruct (Z.leb_spec 0 b); [|lia]. cbn [andb].
  destruct (Z.ltb_spec b 16) as [Hlt|Hge]; cbn [andb].
  - assert (Hq : 0 <= b / 4 < 4).
    { split; [apply Z.div_pos; lia | apply Z.div_lt_upper_bound; lia]. }
    rewrite (Hnib (b / 4) Hq), sbox_inverse_either by apply nibble_range.
    pose proof (Z.mod_pos_bound b 4 ltac:(lia)) as Hr.
    rewrite testbit_nibble by lia.
    rewrite div_mod_4.
    destruct (Z.ltb_spec (b mod 4) 4); [|lia]. rewrite andb_true_r. reflexivity.
  - symmetry. apply (testbit_above_bound x 16); assumption.
Qed.

End BothDirections.

(** X5. With a bijective substitution table, [substitute] in one direction
    followed by [substitute] in the other gives the block back, whichever
    direction comes first. *)
Theorem substitute_round_trip
  (ks : list Z) (sub perm : dict Z) (net : SPN.SP_Network) (x : Z) (invert : bool) :
  SPN.init ks sub perm = Ok net ->
  sub_bijective sub ->
  in_block net x ->
  exists y,
    SPN.substitute net x invert = Ok y /\
    in_block net y /\
    SPN.substitute net y (negb invert) = Ok x.
Proof.
  intros Hinit Hbij Hx.
  exact (substitute_undone ks sub perm net Hinit Hbij invert x Hx).
Qed.

Lemma substitute_round_trip_witness :
  exists y,
    SPN.substitute main_network 782 true = Ok y /\
    in_block main_network y /\
    SPN.substitute main_network y (negb true) = Ok 782.
Proof.
  apply (substitute_round_trip
           main_keys main_substitution main_permutation main_network 782 true).
  - vm_compute. reflexivity.
  - apply sub_bijective_check_ok. vm_compute. reflexivity.
  - vm_compute. split; [discriminate | reflexivity].
Defined.

Section DecryptThenEncrypt.

Variables (ks : list Z) (sub perm : dict Z) (net : SPN.SP_Network).
Hypothesis Hinit : SPN.init ks sub perm = Ok net.
Hypothesis Hbij : sub_bijective sub.
Hypothesis Hperm : perm_defined net.
Hypothesis Hinv : perm_involutive net.
Hypothesis Hkeys : keys_in_block ks (SPN.data_size net).
Hypothesis Hnonempty : ks <> [].

Lemma run_reverse_round_inverse (i y : Z) :
  0 <= i < Z.of_nat (length ks) -> in_block net y ->
  exists x, SPN.run_reverse_round net i y = Ok x /\ in_block net x /\
            SPN.run_round net i x = Ok y.
Proof.
  intros Hi Hy. unfold SPN.run_round, SPN.run_reverse_round.
  destruct (permute_involution_in_block ks sub perm net Hinit Hperm Hinv y Hy)
    as [a [Ha [Hab Haback]]].
  destruct (substitute_undone ks sub perm net Hinit Hbij true a Hab)
    as [b [Hb [Hbb Hbback]]].
  destruct (keymix_inverse ks sub perm net Hinit Hkeys i b ltac:(lia) Hbb)
    as [x [Hx [Hxb Hxback]]].
  exists x. rewrite Ha. cbn [bind]. rewrite Hb. cbn [bind].
  split; [exact Hx|]. split; [exact Hxb|].
  rewrite Hxback. cbn [bind]. simpl negb in Hbback. rewrite Hbback. cbn [bind].
  exact Haback.
Qed.

Lemma run_reverse_last_round_inverse (y : Z) :
  in_block net y ->
  exists x, SPN.run_reverse_last_round net y = Ok x /\ in_block net x /\
            SPN.run_last_round net x = Ok y.
Proof.
  intros Hy. unfold SPN.run_last_round, SPN.run_reverse_last_round.
  rewrite (rounds_eq ks sub perm net Hinit).
  pose proof (length_keys_pos ks sub perm net Hinit Hkeys Hnonempty) as Hl.
  destruct (keymix_inverse ks sub perm net Hinit Hkeys
              (Z.of_nat (length ks) - 1) y ltac:(lia) Hy) as [a [Ha [Hab Haback]]].
  destruct (substitute_undone ks sub perm net Hinit Hbij true a Hab)
    as [b [Hb [Hbb Hbback]]].
  destruct (keymix_inverse ks sub perm net Hinit Hkeys
              (Z.of_nat (length ks) - 1 - 1) b ltac:(lia) Hbb)
    as [x [Hx [Hxb Hxback]]].
  exists x. rewrite Ha. cbn [bind]. rewrite Hb. cbn [bind].
  split; [exact Hx|]. split; [exact Hxb|].
  rewrite Hxback. cbn [bind]. simpl negb in Hbback. rewrite Hbback. cbn [bind].
  exact Haback.
Qed.

Lemma encrypt_decrypt_involutive_permutation (c : Z) :
  in_block net c ->
  exists x, SPN.decrypt net c = Ok x /\ in_block net x /\ SPN.encrypt net x = Ok c.
Proof.
  intros Hc. unfold SPN.encrypt, SPN.decrypt.
  destruct (run_reverse_last_round_inverse c Hc) as [y [Hy [Hyb Hyback]]].
  rewrite Hy. cbn [bind].
  replace (SPN.rounds net - 2) with (SPN.rounds net - 1 - 1) by lia.
  rewrite range3_down_rev.
  destruct (for_each_rev_inverse
              (fun buffer i => SPN.run_reverse_round net i buffer)
              (fun buffer i => SPN.run_round net i buffer)
              (in_block net) (rev (range (SPN.rounds net - 1)))) with (x := y)
    as [x [Hx [Hxb Hback]]].
  - intros i z Hi Hz. apply in_rev, in_range in Hi.
    rewrite (rounds_eq ks sub perm net Hinit) in Hi.
    apply run_reverse_round_inverse; [lia | exact Hz].
  - exact Hyb.
  - exists x. split; [exact Hx|]. split; [exact Hxb|].
    rewrite rev_involutive in Hback. rewrite Hback. cbn [bind]. exact Hyback.
Qed.

End DecryptThenEncrypt.

(** X6. On a 16-bit cipher with a bijective substitution table, round keys
    inside the block range and a permutation table that is its own inverse
    (as the one of the driver), [decrypt] undoes [encrypt] on every block. *)
Theorem decrypt_after_encrypt
  (ks : list Z) (sub perm : dict Z) (net : SPN.SP_Network) (x : Z) :
  SPN.init ks sub perm = Ok net ->
  sub_bijective sub ->
  perm_defined net ->
  perm_involutive net ->
  keys_in_block ks (SPN.data_size net) ->
  ks <> [] ->
  in_block net x ->
  exists c, SPN.encrypt net x = Ok c /\ SPN.decrypt net c = Ok x.
Proof.
  intros Hinit Hbij Hperm Hinv Hkeys Hne Hx.
  exact (decrypt_encrypt_involutive_permutation
           ks sub perm net Hinit Hbij Hperm Hinv Hkeys Hne x Hx).
Qed.

Lemma decrypt_after_encrypt_witness :
  exists c, SPN.encrypt main_network 782 = Ok c /\ SPN.decrypt main_network c = Ok 782.
Proof.
  apply (decrypt_after_encrypt
           main_keys main_substitution main_permutation main_network).
  - vm_compute. reflexivity.
  - apply sub_bijective_check_ok. vm_compute. reflexivity.
  - apply perm_defined_check_ok. vm_compute. reflexivity.
  - apply perm_involutive_check_ok. vm_compute. reflexivity.
  - apply keys_in_block_check_ok. vm_compute. reflexivity.
  - discriminate.
  - vm_compute. split; [discriminate | reflexivity].
Defined.

(** X7. Under the same conditions [encrypt] undoes [decrypt]: every block
    is the ciphertext of the plaintext [decrypt] returns for it, so
    [encrypt] and [decrypt] are inverse bijections of the block range. *)
Theorem encrypt_after_decrypt
  (ks : list Z) (sub perm : dict Z) (net : SPN.SP_Network) (c : Z) :
  SPN.init ks sub perm = Ok net ->
  sub_bijective sub ->
  perm_defined net ->
  perm_involutive net ->
  keys_in_block ks (SPN.data_size net) ->
  ks <> [] ->
  in_block net c ->
  exists x, SPN.decrypt net c = Ok x /\ in_block net x /\ SPN.encrypt net x = Ok c.
Proof.
  intros Hinit Hbij Hperm Hinv Hkeys Hne Hc.
  exact (encrypt_decrypt_involutive_permutation
           ks sub perm net Hinit Hbij Hperm Hinv Hkeys Hne c Hc).
Qed.

Lemma encrypt_after_decrypt_witness :
  exists x,
    SPN.decrypt main_network 15580 = Ok x /\ in_block main_network x /\
    SPN.encrypt main_network x = Ok 15580.
Proof.
  apply (encrypt_after_decrypt
           main_keys main_substitution main_permutation main_network).
  - vm_compute. reflexivity.
  - apply sub_bijective_check_ok. vm_compute. reflexivity.
  - apply perm_defined_check_ok. vm_compute. reflexivity.
  - apply perm_involutive_check_ok. vm_compute. reflexivity.
  - apply keys_in_block_check_ok. vm_compute. reflexivity.
  - discriminate.
  - vm_compute. split; [discriminate | reflexivity].
Defined.

(** * Further properties of differential_cryptanalysis.py *)

(** ** Shape and entries of the difference distribution table *)

Section TableShape.

Variable net : SPN.SP_Network.

Let D := SPN.data_size net.
Let a := DCA.mkDC net (ddt_table net) D.

Lemma table_row (delta_x : Z) :
  0 <= delta_x < D ->
  get (DCA.difference_distribution a) delta_x = Some (ddt_row net delta_x).
Proof.
  intros Hdx. unfold a. cbn [DCA.difference_distribution]. unfold ddt_table.
  apply (get_tabulate (fun d => ddt_row net d)). apply in_range. exact Hdx.
Qed.

Lemma table_entry (delta_x delta_y : Z) :
  0 <= delta_x < D -> 0 <= delta_y < D ->
  table_at a delta_x delta_y = ddt_count net delta_x delta_y.
Proof.
  intros Hdx Hdy. unfold table_at. rewrite table_row by exact Hdx.
  unfold get_default, ddt_row.
  rewrite (get_tabulate (fun d => ddt_count net delta_x d))
    by (apply in_range; exact Hdy).
  reflexivity.
Qed.

Lemma table_entry_bounds (delta_x delta_y : Z) :
  0 <= D -> 0 <= ddt_count net delta_x delta_y <= D.
Proof.
  intros HD. unfold ddt_count.
  pose proof (count_if_le (fun x => output_difference net delta_x x =? delta_y)
                (range (SPN.data_size net))) as Hle.
  rewrite length_range in Hle.
  unfold count_if, D in *. lia.
Qed.

Lemma table_zero_row (delta_y : Z) :
  0 <= D -> ddt_count net 0 delta_y = if delta_y =? 0 then D else 0.
Proof.
  intros HD. unfold ddt_count.
  rewrite (count_if_ext_in _ (fun _ => delta_y =? 0)).
  - rewrite count_if_const, length_range. fold D.
    destruct (delta_y =? 0); lia.
  - intros x _. unfold output_difference.
    rewrite Z.lxor_0_r, Z.lxor_nilpotent. apply Z.eqb_sym.
Qed.

(** Running the computation on its own result changes nothing. *)
Lemma calculate_again :
  DCA.calculate_difference_distribution a = Ok a.
Proof.
  unfold DCA.calculate_difference_distribution.
  apply bind_ok. exists (ddt_table net). split; [|reflexivity].
  change (DCA.data_size a) with D. change (DCA.sp_network a) with net.
  change (DCA.difference_distribution a) with (ddt_table net).
  destruct (for_each_inv
    (fun _ dd => dd = ddt_table net)
    (fun dd delta_x =>
       let dd := set dd delta_x [] in
       for_each (range D)
         (fun dd delta_y =>
            dd <- DCA.set_cell dd delta_x delta_y 0 ;;
            for_each (range D)
              (fun dd x =>
                 let y := SPN.sbox net x false in
                 let x2 := Z.lxor x delta_x in
                 let y2 := SPN.sbox net x2 false in
                 let pred_delta_y := Z.lxor y y2 in
                 if pred_delta_y =? delta_y then
                   row <- item dd delta_x ;;
                   c <- item row delta_y ;;
                   DCA.set_cell dd delta_x delta_y (c + 1)
                 else Ok dd)
              dd)
         dd)
    (range D) (ddt_table net)) as [r [Hr Hinv]].
  - reflexivity.
  - intros pre delta_x acc post Heq Hacc. subst acc.
    apply range_prefix in Heq. destruct Heq as [_ Hdx].
    cbv zeta. unfold D. rewrite row_loop. fold D.
    eexists. split; [reflexivity|].
    apply set_unchanged. apply (table_row delta_x Hdx).
  - rewrite Hinv in Hr. exact Hr.
Qed.

End TableShape.

(** X8. Whatever the substitution table, [calculate_difference_distribution]
    on a fresh analysis returns; the table has the rows 0 .. D-1 in this
    order, every row has the columns 0 .. D-1 in this order, every count
    lies between 0 and D, and the network and the size are unchanged. *)
Theorem ddt_shape_and_bounds (net : SPN.SP_Network) :
  let D := SPN.data_size net in
  exists a,
    DCA.calculate_difference_distribution (DCA.init net) = Ok a /\
    DCA.sp_network a = net /\ DCA.data_size a = D /\
    Py.keys (DCA.difference_distribution a) = range D /\
    (forall delta_x, 0 <= delta_x < D ->
       exists row,
         get (DCA.difference_distribution a) delta_x = Some row /\
         Py.keys row = range D /\
         (forall delta_y, 0 <= delta_y < D ->
            exists c, get row delta_y = Some c /\ 0 <= c <= D)).
Proof.
  intros D. exists (DCA.mkDC net (ddt_table net) D).
  split; [apply calculate_difference_distribution_table|].
  split; [reflexivity|]. split; [reflexivity|]. split.
  - cbn [DCA.difference_distribution]. unfold ddt_table.
    apply (keys_tabulate (fun d => ddt_row net d)).
  - intros delta_x Hdx. exists (ddt_row net delta_x).
    split; [apply table_row; exact Hdx|]. split.
    + unfold ddt_row. apply (keys_tabulate (fun d => ddt_count net delta_x d)).
    + intros delta_y Hdy. exists (ddt_count net delta_x delta_y). split.
      * unfold ddt_row. apply (get_tabulate (fun d => ddt_count net delta_x d)).
        apply in_range. exact Hdy.
      * apply table_entry_bounds. fold D. lia.
Qed.

(** X9. Row 0 of the table: the input difference 0 always gives the output
    difference 0, so the cell (0, 0) holds D and every other cell of the
    row holds 0, for every substitution table. *)
Theorem ddt_zero_row (net : SPN.SP_Network) (delta_y : Z) :
  0 <= delta_y < SPN.data_size net ->
  exists a,
    DCA.calculate_difference_distribution (DCA.init net) = Ok a /\
    table_at a 0 delta_y = if delta_y =? 0 then SPN.data_size net else 0.
Proof.
  intros Hdy. exists (DCA.mkDC net (ddt_table net) (SPN.data_size net)).
  split; [apply calculate_difference_distribution_table|].
  rewrite table_entry by lia. apply table_zero_row. lia.
Qed.

Lemma ddt_zero_row_witness :
  exists a,
    DCA.calculate_difference_distribution (DCA.init main_network) = Ok a /\
    table_at a 0 5 = if 5 =? 0 then SPN.data_size main_network else 0.
Proof.
  apply (ddt_zero_row main_network 5).
  vm_compute. split; [discriminate | reflexivity].
Defined.

(** X10. Computing the table a second time, on the analysis the first
    computation returned, returns the same analysis: the rows are reset and
    refilled in place. *)
Theorem calculate_difference_distribution_idempotent (net : SPN.SP_Network) :
  exists a,
    DCA.calculate_difference_distribution (DCA.init net) = Ok a /\
    DCA.calculate_difference_distribution a = Ok a.
Proof.
  exists (DCA.mkDC net (ddt_table net) (SPN.data_size net)).
  split; [apply calculate_difference_distribution_table | apply calculate_again].
Qed.

(** ** A bijective table never maps a non-zero difference to zero *)

Section BijectiveTable.

Variables (ks : list Z) (sub perm : dict Z) (net : SPN.SP_Network).
Hypothesis Hinit : SPN.init ks sub perm = Ok net.
Hypothesis Hbij : sub_bijective sub.

Let a := DCA.mkDC net (ddt_table net) (SPN.data_size net).

Lemma bijective_len : len sub = 16.
Proof. destruct Hbij as [_ [_ [_ H]]]. exact H. Qed.

Lemma bijective_values_below : values_below sub (len sub).
Proof.
  rewrite bijective_len. pose proof (bijective_in_nibbles sub Hbij) as H.
  unfold sub_in_nibbles, values_below in *. rewrite Forall_forall in *.
  intros kv Hkv. apply H in Hkv. lia.
Qed.

Lemma sbox_one_to_one (x y : Z) :
  0 <= x < 16 -> 0 <= y < 16 ->
  SPN.sbox net x false = SPN.sbox net y false -> x = y.
Proof.
  intros Hx Hy Heq.
  rewrite <- (sbox_inverse ks sub perm net Hinit Hbij x Hx).
  rewrite <- (sbox_inverse ks sub perm net Hinit Hbij y Hy).
  rewrite Heq. reflexivity.
Qed.

Lemma column_zero_count (delta_x : Z) :
  0 < delta_x < 16 -> ddt_count net delta_x 0 = 0.
Proof.
  intros Hdx. unfold ddt_count.
  rewrite (bijective_data_size ks sub perm net Hinit Hbij).
  rewrite (count_if_ext_in _ (fun _ => false)).
  - apply (count_if_const false).
  - intros x Hx. apply in_range in Hx. unfold output_difference.
    apply Z.eqb_neq. intros H0. apply Z.lxor_eq in H0.
    assert (Hpartner : 0 <= Z.lxor x delta_x < 16).
    { apply (lxor_in_block x delta_x 4); simpl; lia. }
    apply sbox_one_to_one in H0; [|lia|exact Hpartner].
    assert (Hz : Z.lxor x (Z.lxor x delta_x) = 0)
      by (rewrite <- H0; apply Z.lxor_nilpotent).
    rewrite <- Z.lxor_assoc, Z.lxor_nilpotent, Z.lxor_0_l in Hz. lia.
Qed.

Lemma max_delta_y_nonzero (delta_x : Z) :
  0 < delta_x < 16 -> max_delta_y_of a delta_x <> 0.
Proof.
  intros Hdx Hzero.
  destruct (built_cell ks sub perm net Hinit bijective_len bijective_values_below
              delta_x Hdx) as [row [c [Hrow [Hc Hpos]]]].
  fold a in Hrow, Hc. rewrite Hzero in Hc.
  unfold a in Hrow. cbn [DCA.difference_distribution] in Hrow.
  unfold ddt_table in Hrow.
  rewrite (get_tabulate (fun d => ddt_row net d)) in Hrow
    by (apply in_range; rewrite (bijective_data_size ks sub perm net Hinit Hbij); lia).
  injection Hrow as <-. unfold ddt_row in Hc.
  rewrite (get_tabulate (fun d => ddt_count net delta_x d)) in Hc
    by (apply in_range; rewrite (bijective_data_size ks sub perm net Hinit Hbij); lia).
  injection Hc as <-. rewrite column_zero_count in Hpos by exact Hdx. lia.
Qed.

End BijectiveTable.

(** X11. For a bijective substitution table, column 0 of every row other
    than row 0 is empty: two different inputs never have the same output. *)
Theorem ddt_bijective_column_zero
  (ks : list Z) (sub perm : dict Z) (net : SPN.SP_Network) (delta_x : Z) :
  SPN.init ks sub perm = Ok net ->
  sub_bijective sub ->
  0 < delta_x < 16 ->
  exists a,
    DCA.calculate_difference_distribution (DCA.init net) = Ok a /\
    table_at a delta_x 0 = 0.
Proof.
  intros Hinit Hbij Hdx.
  exists (DCA.mkDC net (ddt_table net) (SPN.data_size net)).
  split; [apply calculate_difference_distribution_table|].
  pose proof (bijective_data_size ks sub perm net Hinit Hbij) as Hsize.
  rewrite table_entry by (rewrite Hsize; lia).
  apply (column_zero_count ks sub perm net Hinit Hbij delta_x Hdx).
Qed.

Lemma ddt_bijective_column_zero_witness :
  exists a,
    DCA.calculate_difference_distribution (DCA.init main_network) = Ok a /\
    table_at a 11 0 = 0.
Proof.
  apply (ddt_bijective_column_zero
           main_keys main_substitution main_permutation main_network 11).
  - vm_compute. reflexivity.
  - apply sub_bijective_check_ok. vm_compute. reflexivity.
  - lia.
Defined.

(** ** Active S-boxes *)

Section ActiveBoxes.

Lemma low_nibbles_zero (x : Z) :
  (forall k, 0 <= k < 4 -> nibble x k = 0) <-> x mod 2 ^ 16 = 0.
Proof.
  split.
  - intros Hall. apply Z.bits_inj'. intros b Hb. rewrite Z.bits_0.
    destruct (Z_lt_le_dec b 16) as [Hlt|Hge].
    + rewrite Z.mod_pow2_bits_low by lia.
      assert (Hq : 0 <= b / 4 < 4).
      { split; [apply Z.div_pos; lia | apply Z.div_lt_upper_bound; lia]. }
      pose proof (Z.mod_pos_bound b 4 ltac:(lia)) as Hr.
      pose proof (testbit_nibble x (b / 4) (b mod 4) ltac:(lia) ltac:(lia)) as Hn.
      rewrite (Hall (b / 4) Hq), Z.bits_0, div_mod_4 in Hn.
      destruct (Z.ltb_spec (b mod 4) 4); [|lia].
      rewrite andb_true_r in Hn. symmetry. exact Hn.
    + apply Z.mod_pow2_bits_high. lia.
  - intros Hmod k Hk. apply Z.bits_inj'. intros r Hr.
    rewrite testbit_nibble, Z.bits_0 by lia.
    destruct (Z.ltb_spec r 4) as [Hlt|Hge]; [|apply andb_false_r].
    rewrite andb_true_r.
    rewrite <- (Z.mod_pow2_bits_low x 16 (r + 4 * k)) by lia.
    rewrite Hmod. apply Z.bits_0.
Qed.

Lemma in_get_active_sboxes (x i : Z) :
  In i (DCA.get_active_sboxes x) <-> (1 <= i <= 4 /\ nibble x (4 - i) <> 0).
Proof.
  rewrite get_active_sboxes_filter, in_map_iff. split.
  - intros [k [Hk Hin]]. apply filter_In in Hin. destruct Hin as [Hin Hact].
    apply Z.ltb_lt in Hact. cbn [In] in Hin. subst i.
    replace (4 - (4 - k)) with k by lia. split; lia.
  - intros [Hi Hact]. exists (4 - i). split; [lia|].
    apply filter_In. split; [cbn [In]; lia|].
    apply Z.ltb_lt. pose proof (nibble_range x (4 - i)). lia.
Qed.

Lemma get_active_sboxes_same (x y : Z) :
  (forall k, 0 <= k < 4 -> (nibble x k = 0 <-> nibble y k = 0)) ->
  DCA.get_active_sboxes x = DCA.get_active_sboxes y.
Proof.
  intros H. rewrite !get_active_sboxes_filter. f_equal.
  apply filter_ext_in. intros k Hk.
  assert (Hk' : 0 <= k < 4) by (cbn [In] in Hk; lia).
  specialize (H k Hk').
  pose proof (nibble_range x k). pose proof (nibble_range y k).
  destruct (Z.ltb_spec 0 (nibble x k)), (Z.ltb_spec 0 (nibble y k)); try reflexivity; lia.
Qed.

Lemma get_active_sboxes_sorted (x : Z) :
  StronglySorted (fun i j => j < i) (DCA.get_active_sboxes x).
Proof.
  pose proof (get_active_sboxes_cases x) as H.
  unfold active_lists in H. simpl in H.
  repeat (destruct H as [<-|H];
          [repeat (constructor; try lia);
           repeat (match goal with |- Forall _ _ => constructor; try lia end)|]).
  contradiction.
Qed.

End ActiveBoxes.

(** X12. [get_active_sboxes] lists the position i (1 for the most
    significant nibble of a 16-bit block, 4 for the least significant)
    exactly when that nibble is non-zero, in strictly decreasing order; it
    reads the low 16 bits only, so the list is empty exactly when they are
    all zero. *)
Theorem get_active_sboxes_characterised (input_data : Z) :
  (forall i, In i (DCA.get_active_sboxes input_data)
             <-> (1 <= i <= 4 /\ nibble input_data (4 - i) <> 0)) /\
  StronglySorted (fun i j => j < i) (DCA.get_active_sboxes input_data) /\
  (DCA.get_active_sboxes input_data = [] <-> input_data mod 2 ^ 16 = 0).
Proof.
  split; [intros i; apply in_get_active_sboxes|].
  split; [apply get_active_sboxes_sorted|].
  rewrite <- low_nibbles_zero. split.
  - intros Hnil k Hk.
    destruct (Z.eq_dec (nibble input_data k) 0) as [Hz|Hnz]; [exact Hz | exfalso].
    assert (Hin : In (4 - k) (DCA.get_active_sboxes input_data)).
    { apply in_get_active_sboxes. replace (4 - (4 - k)) with k by lia. split; lia. }
    rewrite Hnil in Hin. exact Hin.
  - intros Hall.
    destruct (DCA.get_active_sboxes input_data) as [|i rest] eqn:E; [reflexivity|].
    assert (Hin : In i (DCA.get_active_sboxes input_data)) by (rewrite E; left; reflexivity).
    apply in_get_active_sboxes in Hin. destruct Hin as [Hi Hnz].
    exfalso. apply Hnz. apply Hall. lia.
Qed.

(** ** [get_delta_p] *)

Lemma nibble_shifted (w j k : Z) :
  0 <= w < 16 -> 0 <= j -> 0 <= k ->
  nibble (Z.shiftl w (4 * j)) k = if j =? k then w else 0.
Proof.
  intros Hw Hj Hk.
  pose proof (nibble_of_placed (fun _ => w) [j] k (fun _ => Hw)) as Hn.
  cbn [fold_left existsb] in Hn. rewrite Z.lor_0_l, orb_false_r in Hn.
  apply Hn; [|exact Hk].
  intros i [Hi|[]]. lia.
Qed.

Lemma sorted_singleton (l : list Z) (t : Z) :
  StronglySorted (fun i j => j < i) l ->
  (forall i, In i l <-> i = t) ->
  l = [t].
Proof.
  intros Hs Hin.
  destruct l as [|x rest].
  - exfalso. apply (proj2 (Hin t) eq_refl).
  - assert (Hx : x = t) by (apply Hin; left; reflexivity).
    subst x. f_equal.
    destruct rest as [|y rest']; [reflexivity|].
    exfalso.
    assert (Hy : y = t) by (apply Hin; right; left; reflexivity).
    inversion Hs as [|? ? _ Hall]; subst.
    inversion Hall as [|? ? Hlt _]; subst. lia.
Qed.

(** X13. On a 16-bit analysis [get_delta_p] places a non-zero nibble
    [delta_x] at the S-box [target_sbox] (1 is the leftmost): for a target
    among 1 .. 4 the result fits the block, its only non-zero nibble is the
    target's and [get_active_sboxes] returns just the target.  A target
    above 4 makes the shift count negative, a [ValueError]; a target below
    1 shifts the nibble out of the block, so no S-box is active. *)
Theorem get_delta_p_selects_sbox
  (a : DCA.DifferentialCryptanalysis) (delta_x target_sbox : Z) :
  DCA.data_size a = 16 ->
  0 < delta_x < 16 ->
  (1 <= target_sbox <= 4 ->
     exists delta_p,
       DCA.get_delta_p a delta_x target_sbox = Ok delta_p /\
       0 <= delta_p < 2 ^ 16 /\
       (forall k, 0 <= k < 4 ->
          nibble delta_p k = if k =? 4 - target_sbox then delta_x else 0) /\
       DCA.get_active_sboxes delta_p = [target_sbox]) /\
  (4 < target_sbox ->
     DCA.get_delta_p a delta_x target_sbox = Raise ValueError) /\
  (target_sbox <= 0 ->
     exists delta_p,
       DCA.get_delta_p a delta_x target_sbox = Ok delta_p /\
       2 ^ 16 <= delta_p /\
       DCA.get_active_sboxes delta_p = []).
Proof.
  intros Hsize Hdx.
  unfold DCA.get_delta_p, lshift. rewrite Hsize.
  split; [|split].
  - intros Ht.
    destruct (Z.ltb_spec (16 - target_sbox * 4) 0) as [Hneg|_]; [lia|].
    replace (16 - target_sbox * 4) with (4 * (4 - target_sbox)) by lia.
    assert (Hnib : forall k, 0 <= k < 4 ->
              nibble (Z.shiftl delta_x (4 * (4 - target_sbox))) k
              = if k =? 4 - target_sbox then delta_x else 0).
    { intros k Hk. rewrite nibble_shifted by lia.
      rewrite (Z.eqb_sym k). reflexivity. }
    eexists. split; [reflexivity|]. split; [|split].
    + rewrite Z.shiftl_mul_pow2 by lia.
      assert (0 < 2 ^ (4 * (4 - target_sbox)) <= 2 ^ 12).
      { split; [apply Z.pow_pos_nonneg; lia|].
        apply Z.pow_le_mono_r; lia. }
      change (2 ^ 16) with (16 * 2 ^ 12). nia.
    + exact Hnib.
    + apply sorted_singleton; [apply get_active_sboxes_sorted|].
      intros i. rewrite in_get_active_sboxes. split.
      * intros [Hi Hne]. rewrite Hnib in Hne by lia.
        destruct (Z.eqb_spec (4 - i) (4 - target_sbox)); [lia|congruence].
      * intros ->. split; [lia|]. rewrite Hnib by lia.
        rewrite Z.eqb_refl. lia.
  - intros Ht.
    destruct (Z.ltb_spec (16 - target_sbox * 4) 0) as [_|Hge]; [reflexivity|lia].
  - intros Ht.
    destruct (Z.ltb_spec (16 - target_sbox * 4) 0) as [Hneg|_]; [lia|].
    replace (16 - target_sbox * 4) with (4 * (4 - target_sbox)) by lia.
    eexists. split; [reflexivity|]. split.
    + rewrite Z.shiftl_mul_pow2 by lia.
      assert (2 ^ 16 <= 2 ^ (4 * (4 - target_sbox)))
        by (apply Z.pow_le_mono_r; lia).
      nia.
    + destruct (DCA.get_active_sboxes _) as [|i rest] eqn:E; [reflexivity|].
      exfalso.
      assert (Hin : In i (DCA.get_active_sboxes
                            (Z.shiftl delta_x (4 * (4 - target_sbox)))))
        by (rewrite E; left; reflexivity).
      apply in_get_active_sboxes in Hin. destruct Hin as [Hi Hne].
      apply Hne. rewrite nibble_shifted by lia.
      destruct (Z.eqb_spec (4 - target_sbox) (4 - i)); [lia|reflexivity].
Qed.

Lemma get_delta_p_selects_sbox_witness :
  exists delta_p,
    DCA.get_delta_p main_analysis 11 2 = Ok delta_p /\
    DCA.get_active_sboxes delta_p = [2].
Proof.
  destruct (get_delta_p_selects_sbox main_analysis 11 2) as [H _];
    [reflexivity|lia|].
  destruct H as [d [Hd [_ [_ Ha]]]]; [lia|].
  exists d. split; assumption.
Defined.

(** ** [get_output_difference] on the table of a bijective S-box *)

Lemma placed_nibbles_in_block (w : Z -> Z) :
  (forall i, 0 <= w i < 16) ->
  0 <= fold_left (fun acc i => Z.lor acc (Z.shiftl (w i) (4 * i))) [0; 1; 2; 3] 0
    < 2 ^ 16.
Proof.
  intros Hw. apply bits_below_bound; [lia|].
  intros b Hb. rewrite testbit_fold_lor, Z.bits_0 in Hb.
  cbn [orb] in Hb. apply existsb_exists in Hb.
  destruct Hb as [i [Hi Hb]].
  assert (Hi4 : 0 <= i < 4) by (cbn [In] in Hi; lia).
  destruct (Z.ltb_spec b 0) as [Hneg|Hpos].
  { rewrite Z.testbit_neg_r in Hb by lia. discriminate. }
  split; [lia|].
  destruct (Z.ltb_spec b 16) as [Hlt|Hge]; [exact Hlt|exfalso].
  rewrite Z.shiftl_spec in Hb by lia.
  rewrite (testbit_above_bound (w i) 4) in Hb; [discriminate| |lia].
  change (2 ^ 4) with 16. apply Hw.
Qed.

Lemma no_active_sboxes (x : Z) :
  DCA.get_active_sboxes x = [] <-> x mod 2 ^ 16 = 0.
Proof.
  rewrite <- low_nibbles_zero. split.
  - intros He k Hk.
    destruct (Z.eq_dec (nibble x k) 0) as [Hz|Hnz]; [exact Hz|exfalso].
    assert (Hin : In (4 - k) (DCA.get_active_sboxes x)).
    { apply in_get_active_sboxes. split; [lia|].
      replace (4 - (4 - k)) with k by lia. exact Hnz. }
    rewrite He in Hin. exact Hin.
  - intros Hz.
    destruct (DCA.get_active_sboxes x) as [|i rest] eqn:E; [reflexivity|exfalso].
    assert (Hin : In i (DCA.get_active_sboxes x)) by (rewrite E; left; reflexivity).
    apply in_get_active_sboxes in Hin. destruct Hin as [Hi Hne].
    apply Hne, Hz. lia.
Qed.

Section OutputDifference.

Variables (ks : list Z) (sub perm : dict Z) (net : SPN.SP_Network).
Hypothesis Hinit : SPN.init ks sub perm = Ok net.
Hypothesis Hbij : sub_bijective sub.

Let a := DCA.mkDC net (ddt_table net) (SPN.data_size net).

Lemma bijective_analysis_size : DCA.data_size a = 16.
Proof. exact (bijective_data_size ks sub perm net Hinit Hbij). Qed.

Lemma bijective_max (delta_x : Z) :
  0 <= delta_x < 16 ->
  DCA.get_max_delta_y a delta_x = Ok (max_delta_y_of a delta_x) /\
  0 <= max_delta_y_of a delta_x < 16.
Proof.
  intros Hdx.
  destruct (built_max ks sub perm net Hinit (bijective_len sub Hbij) delta_x Hdx)
    as [H1 [H2 _]].
  split; assumption.
Qed.

Lemma get_output_difference_active (u : Z) :
  exists v,
    DCA.get_output_difference a u = Ok v /\
    0 <= v < 2 ^ 16 /\
    (forall k, 0 <= k < 4 -> nibble v k = predicted_nibble a u k) /\
    (forall k, 0 <= k < 4 -> (nibble v k = 0 <-> nibble u k = 0)).
Proof.
  pose proof (predicted_nibble_range a bijective_max u) as Hrange.
  exists (fold_left
            (fun acc i => Z.lor acc (Z.shiftl (predicted_nibble a u i) (4 * i)))
            [0; 1; 2; 3] 0).
  assert (Hnib : forall k, 0 <= k < 4 ->
            nibble (fold_left
                      (fun acc i =>
                         Z.lor acc (Z.shiftl (predicted_nibble a u i) (4 * i)))
                      [0; 1; 2; 3] 0) k
            = predicted_nibble a u k).
  { intros k Hk.
    rewrite (nibble_of_placed (predicted_nibble a u)); [|exact Hrange| |lia].
    - assert (Hin : existsb (fun i => i =? k) [0; 1; 2; 3] = true).
      { apply existsb_eqb_in. cbn [In]. lia. }
      rewrite Hin. reflexivity.
    - intros i Hi. cbn [In] in Hi. lia. }
  split; [apply (get_output_difference_placed a bijective_analysis_size bijective_max)|].
  split; [apply placed_nibbles_in_block; exact Hrange|].
  split; [exact Hnib|].
  intros k Hk. rewrite (Hnib k Hk). unfold predicted_nibble.
  pose proof (nibble_range u k) as Hu.
  destruct (Z.ltb_spec 0 (nibble u k)) as [Hpos|Hzero].
  - split; [|lia]. intros Hz. exfalso.
    apply (max_delta_y_nonzero ks sub perm net Hinit Hbij (nibble u k)); [lia|].
    exact Hz.
  - split; [lia|reflexivity].
Qed.

End OutputDifference.

(** X14. On the table of a bijective S-box [get_output_difference] returns
    a 16-bit value with the same active S-boxes as its argument: a zero
    nibble stays zero, and a non-zero nibble is replaced by the output
    difference [get_max_delta_y] selects for it, which is not zero. *)
Theorem get_output_difference_keeps_active_sboxes
  (ks : list Z) (sub perm : dict Z) (net : SPN.SP_Network) (u : Z) :
  SPN.init ks sub perm = Ok net ->
  sub_bijective sub ->
  exists a v,
    DCA.calculate_difference_distribution (DCA.init net) = Ok a /\
    DCA.get_output_difference a u = Ok v /\
    0 <= v < 2 ^ 16 /\
    DCA.get_active_sboxes v = DCA.get_active_sboxes u /\
    (forall k, 0 <= k < 4 -> nibble u k = 0 -> nibble v k = 0) /\
    (forall k, 0 <= k < 4 -> nibble u k <> 0 ->
       DCA.get_max_delta_y a (nibble u k) = Ok (nibble v k) /\ nibble v k <> 0).
Proof.
  intros Hinit Hbij.
  exists (DCA.mkDC net (ddt_table net) (SPN.data_size net)).
  destruct (get_output_difference_active ks sub perm net Hinit Hbij u)
    as [v [Hv [Hblock [Hnib Hzero]]]].
  exists v.
  split; [apply calculate_difference_distribution_table|].
  split; [exact Hv|]. split; [exact Hblock|].
  split; [apply get_active_sboxes_same; exact Hzero|].
  split.
  - intros k Hk Hz. apply Hzero; assumption.
  - intros k Hk Hnz.
    pose proof (nibble_range u k) as Hu.
    split.
    + rewrite (Hnib k Hk). unfold predicted_nibble.
      destruct (Z.ltb_spec 0 (nibble u k)) as [_|Hle]; [|lia].
      apply (bijective_max ks sub perm net Hinit Hbij). lia.
    + intros Hz. apply Hnz. apply Hzero; assumption.
Qed.

Lemma get_output_difference_keeps_active_sboxes_witness :
  exists a v,
    DCA.calculate_difference_distribution (DCA.init main_network) = Ok a /\
    DCA.get_output_difference a 0x0B00 = Ok v /\
    DCA.get_active_sboxes v = DCA.get_active_sboxes 0x0B00.
Proof.
  destruct (get_output_difference_keeps_active_sboxes
              main_keys main_substitution main_permutation main_network 0x0B00)
    as [a [v [Ha [Hv [_ [Hact _]]]]]].
  - vm_compute. reflexivity.
  - apply sub_bijective_check_ok. vm_compute. reflexivity.
  - exists a, v. split; [exact Ha|]. split; [exact Hv|exact Hact].
Defined.

(** ** Edge cases of [get_differential_characteristic] *)

(** X15. The characteristic of the zero difference is the zero difference
    with the probability 1, still the [int] the loop starts from: no S-box
    is active, so no table entry is read and no division takes place.  It
    holds for any number of rounds, with or without a table, once the
    permutation table is defined on the positions 1 .. N. *)
Theorem characteristic_of_zero_difference
  {F : Type} `{Num.FloatOps F} (a : DCA.DifferentialCryptanalysis) :
  perm_defined (DCA.sp_network a) ->
  DCA.get_differential_characteristic (F := F) a 0 = Ok (0, Num.PyInt 1).
Proof.
  intros Hperm. unfold DCA.get_differential_characteristic.
  destruct (for_each_inv
              (fun (_ : list Z) (st : Z * Num.num F) => st = (0, Num.PyInt 1))
              (fun (st : Z * Num.num F) (_ : Z) =>
                 let (u, probability) := st in
                 v <- DCA.get_output_difference a u ;;
                 q <- DCA.get_difference_pair_probability a u v ;;
                 u <- SPN.permute (DCA.sp_network a) v ;;
                 Ok (u, Num.mul probability q))
              (range (SPN.rounds (DCA.sp_network a) - 1))
              (0, Num.PyInt 1)) as [r [Hr Hinv]].
  - reflexivity.
  - intros pre x acc post _ ->.
    exists (0, Num.PyInt 1). split; [|reflexivity].
    change (DCA.get_output_difference a 0) with (@Ok Z 0).
    cbn [bind].
    change (DCA.get_difference_pair_probability a 0 0)
      with (@Ok (Num.num F) (Num.PyInt 1)).
    cbn [bind]. rewrite (permute_zero _ Hperm). reflexivity.
  - rewrite Hr. f_equal. exact Hinv.
Qed.

Lemma characteristic_of_zero_difference_witness :
  DCA.get_differential_characteristic (F := spec_float) main_analysis 0
  = Ok (0, Num.PyInt 1).
Proof.
  apply (characteristic_of_zero_difference main_analysis).
  apply perm_defined_check_ok. vm_compute. reflexivity.
Defined.

(** X16. [get_differential_characteristic] reads the table: on an analysis
    fresh from [__init__], whose table is empty, it raises [KeyError] as
    soon as one round is propagated and the difference has an active
    S-box. *)
Theorem characteristic_needs_table
  {F : Type} `{Num.FloatOps F} (net : SPN.SP_Network) (delta_p : Z) :
  2 <= SPN.rounds net ->
  16 <= SPN.data_size net ->
  DCA.get_active_sboxes delta_p <> [] ->
  DCA.get_differential_characteristic (F := F) (DCA.init net) delta_p
  = Raise KeyError.
Proof.
  intros Hrounds Hsize Hact.
  unfold DCA.get_differential_characteristic.
  cbn [DCA.sp_network DCA.init].
  rewrite (range_split (SPN.rounds net - 1) 0) by lia.
  rewrite (range_nil 0) by lia. cbn [app for_each].
  assert (Hout : DCA.get_output_difference (DCA.init net) delta_p = Raise KeyError).
  { unfold DCA.get_output_difference.
    destruct (DCA.get_active_sboxes delta_p) as [|i rest] eqn:E; [congruence|].
    assert (Hin : In i (DCA.get_active_sboxes delta_p))
      by (rewrite E; left; reflexivity).
    apply in_get_active_sboxes in Hin. destruct Hin as [Hi _].
    cbn [for_each DCA.data_size DCA.init].
    unfold rshift.
    destruct (Z.ltb_spec (SPN.data_size net - i * 4) 0) as [Hneg|_]; [lia|].
    cbn [bind]. reflexivity. }
  rewrite Hout. reflexivity.
Qed.

Lemma characteristic_needs_table_witness :
  DCA.get_differential_characteristic (F := spec_float)
    (DCA.init main_network) 0x0B00
  = Raise KeyError.
Proof.
  apply (characteristic_needs_table main_network 0x0B00).
  - vm_compute. discriminate.
  - vm_compute. discriminate.
  - vm_compute. discriminate.
Defined.

(** ** The characteristic of a non-zero difference *)

Section NonZeroCharacteristic.

Context {F : Type} `{Num.FloatOps F}.

Variables (ks : list Z) (sub perm : dict Z) (net : SPN.SP_Network).
Hypothesis Hinit : SPN.init ks sub perm = Ok net.
Hypothesis Hbij : sub_bijective sub.
Hypothesis Hperm : perm_defined net.
Hypothesis Honto : perm_onto net.

Let a := DCA.mkDC net (ddt_table net) (SPN.data_size net).

Lemma pair_probability_returns (u v : Z) :
  exists q, DCA.get_difference_pair_probability (F := F) a u v = Ok q.
Proof.
  pose proof (bijective_data_size ks sub perm net Hinit Hbij) as Hsize.
  unfold DCA.get_difference_pair_probability.
  destruct (for_each_inv (fun (_ : list Z) (_ : Num.num F) => True)
              (fun (probability : Num.num F) (i : Z) =>
                 let delta_x := Z.land (Z.shiftr u (i * 4)) 15 in
                 let delta_y := Z.land (Z.shiftr v (i * 4)) 15 in
                 if (delta_x =? 0) && (delta_y =? 0) then Ok probability
                 else
                   row <- item (DCA.difference_distribution a) delta_x ;;
                   c <- item row delta_y ;;
                   q <- Num.truediv c (DCA.data_size a) ;;
                   Ok (Num.mul probability q))
              (range 4) (Num.PyInt 1)) as [r [Hr _]].
  - exact I.
  - intros pre i acc post _ _. cbv zeta.
    replace (i * 4) with (4 * i) by lia.
    fold (nibble u i). fold (nibble v i).
    pose proof (nibble_range u i) as Hu. pose proof (nibble_range v i) as Hv.
    destruct ((nibble u i =? 0) && (nibble v i =? 0)).
    + exists acc. split; [reflexivity|exact I].
    + unfold item, a.
      rewrite (table_row net (nibble u i)) by (rewrite Hsize; exact Hu).
      cbn [bind]. unfold ddt_row.
      rewrite (get_tabulate (fun d => ddt_count net (nibble u i) d))
        by (apply in_range; rewrite Hsize; exact Hv).
      cbn [bind DCA.data_size]. rewrite Hsize.
      unfold Num.truediv. cbn [Z.eqb bind].
      eexists. split; [reflexivity|exact I].
  - exists r. exact Hr.
Qed.

Lemma characteristic_step (u : Z) :
  0 < u < 2 ^ 16 ->
  exists v q u',
    DCA.get_output_difference a u = Ok v /\
    DCA.get_difference_pair_probability (F := F) a u v = Ok q /\
    SPN.permute net v = Ok u' /\
    0 < u' < 2 ^ 16.
Proof.
  intros Hu.
  pose proof (bijective_data_size ks sub perm net Hinit Hbij) as Hsize.
  destruct (get_output_difference_active ks sub perm net Hinit Hbij u)
    as [v [Hv [Hblock [_ Hzero]]]].
  destruct (pair_probability_returns u v) as [q Hq].
  destruct (permute_in_block ks sub perm net Hinit Hperm v) as [u' [Hu' Hin]].
  unfold in_block in Hin. rewrite Hsize in Hin.
  exists v, q, u'. repeat split; try assumption; try lia.
  assert (Hvnz : v <> 0).
  { intros ->.
    assert (Hmod : u mod 2 ^ 16 = 0).
    { apply low_nibbles_zero. intros k Hk. apply Hzero; [exact Hk|].
      unfold nibble. rewrite Z.shiftr_0_l. reflexivity. }
    rewrite Z.mod_small in Hmod by lia. lia. }
  assert (Hne : u' <> 0).
  { intros ->. apply Hvnz.
    apply (permute_one_to_one net v 0 Hperm Honto).
    - unfold in_block. rewrite Hsize. exact Hblock.
    - unfold in_block. rewrite Hsize. lia.
    - rewrite Hu'. symmetry. apply permute_zero. exact Hperm. }
  lia.
Qed.

Lemma characteristic_nonzero (delta_p : Z) :
  0 < delta_p < 2 ^ 16 ->
  exists u p,
    DCA.get_differential_characteristic (F := F) a delta_p = Ok (u, p) /\
    0 < u < 2 ^ 16.
Proof.
  intros Hdp. unfold DCA.get_differential_characteristic.
  destruct (for_each_inv
              (fun (_ : list Z) (st : Z * Num.num F) => 0 < fst st < 2 ^ 16)
              (fun (st : Z * Num.num F) (_ : Z) =>
                 let (u, probability) := st in
                 v <- DCA.get_output_difference a u ;;
                 q <- DCA.get_difference_pair_probability a u v ;;
                 u <- SPN.permute (DCA.sp_network a) v ;;
                 Ok (u, Num.mul probability q))
              (range (SPN.rounds (DCA.sp_network a) - 1))
              (delta_p, Num.PyInt 1)) as [[u p] [Hr Hinv]].
  - exact Hdp.
  - intros pre x [u p] post _ Hu. cbn [fst] in Hu.
    destruct (characteristic_step u Hu) as [v [q [u' [Hv [Hq [Hu' Hrange]]]]]].
    exists (u', Num.mul p q). split; [|exact Hrange].
    rewrite Hv. cbn [bind]. rewrite Hq. cbn [bind].
    unfold a at 1. cbn [DCA.sp_network]. rewrite Hu'. reflexivity.
  - exists u, p. split; [exact Hr|exact Hinv].
Qed.

End NonZeroCharacteristic.

(** X17. For a bijective S-box and a permutation table that is a bijection
    of the positions, the characteristic of a non-zero 16-bit difference is
    again a non-zero 16-bit difference, whatever the number of rounds and
    the float arithmetic; so it has an active S-box and [perform_attack]
    returns a subkey for it on any list of pairs. *)
Theorem characteristic_of_nonzero_difference_is_attackable
  {F : Type} `{Num.FloatOps F}
  (ks : list Z) (sub perm : dict Z) (net : SPN.SP_Network) (delta_p : Z) :
  SPN.init ks sub perm = Ok net ->
  sub_bijective sub ->
  perm_defined net ->
  perm_onto net ->
  0 < delta_p < 2 ^ 16 ->
  exists a u p,
    DCA.calculate_difference_distribution (DCA.init net) = Ok a /\
    DCA.get_differential_characteristic (F := F) a delta_p = Ok (u, p) /\
    0 < u < 2 ^ 16 /\
    DCA.get_active_sboxes u <> [] /\
    (forall ciphertext_pairs, exists subkey,
       DCA.perform_attack a ciphertext_pairs u = Ok (Some subkey)).
Proof.
  intros Hinit Hbij Hperm Honto Hdp.
  pose proof (bijective_data_size ks sub perm net Hinit Hbij) as Hsize.
  destruct (characteristic_nonzero ks sub perm net Hinit Hbij Hperm Honto delta_p Hdp)
    as [u [p [Hchar Hu]]].
  exists (DCA.mkDC net (ddt_table net) (SPN.data_size net)), u, p.
  split; [apply calculate_difference_distribution_table|].
  split; [exact Hchar|]. split; [exact Hu|].
  assert (Hact : DCA.get_active_sboxes u <> []).
  { intros He. apply no_active_sboxes in He.
    rewrite Z.mod_small in He by lia. lia. }
  split; [exact Hact|].
  intros ciphertext_pairs.
  destruct (perform_attack_first_maximum
              (DCA.mkDC net (ddt_table net) (SPN.data_size net))
              Hsize Hsize ciphertext_pairs u Hact) as [i0 [_ [Hattack _]]].
  eexists. exact Hattack.
Qed.

Lemma characteristic_of_nonzero_difference_is_attackable_witness :
  exists a u p,
    DCA.calculate_difference_distribution (DCA.init main_network) = Ok a /\
    DCA.get_differential_characteristic (F := spec_float) a 0x0B00 = Ok (u, p) /\
    0 < u < 2 ^ 16.
Proof.
  destruct (characteristic_of_nonzero_difference_is_attackable (F := spec_float)
              main_keys main_substitution main_permutation main_network 0x0B00)
    as [a [u [p [Ha [Hchar [Hu _]]]]]].
  - vm_compute. reflexivity.
  - apply sub_bijective_check_ok. vm_compute. reflexivity.
  - apply perm_defined_check_ok. vm_compute. reflexivity.
  - apply perm_onto_check_ok. vm_compute. reflexivity.
  - lia.
  - exists a, u, p. split; [exact Ha|]. split; [exact Hchar|exact Hu].
Defined.

(** ** [perform_attack] without ciphertext pairs *)

Lemma first_candidate_16 :
  forallb
    (fun l => match l with
              | [] => true
              | _ :: _ => block_of analysis_16 l 1 =? 2 ^ (16 - 4 * last l 0)
              end)
    active_lists = true.
Proof. vm_compute. reflexivity. Qed.

Lemma first_candidate (a : DCA.DifferentialCryptanalysis) (x : Z) :
  DCA.data_size a = 16 ->
  DCA.get_active_sboxes x <> [] ->
  block_of a (DCA.get_active_sboxes x) 1
  = 2 ^ (16 - 4 * last (DCA.get_active_sboxes x) 0).
Proof.
  intros Hsize Hact.
  pose proof (get_active_sboxes_cases x) as Hin.
  pose proof first_candidate_16 as Hall.
  rewrite forallb_forall in Hall. specialize (Hall _ Hin).
  unfold block_of in *.
  rewrite (convert_to_block_data_size a analysis_16) by exact Hsize.
  destruct (DCA.get_active_sboxes x) as [|i rest]; [congruence|].
  apply Z.eqb_eq. exact Hall.
Qed.

(** X18. Without ciphertext pairs every count is 0 and [max] keeps the
    first candidate: [perform_attack] returns the block with the value 1 in
    the leftmost active S-box of the characteristic (the last entry of
    [get_active_sboxes]) and 0 elsewhere. *)
Theorem perform_attack_without_pairs
  (a : DCA.DifferentialCryptanalysis) (diff_characteristic : Z) :
  DCA.data_size a = 16 ->
  SPN.data_size (DCA.sp_network a) = 16 ->
  DCA.get_active_sboxes diff_characteristic <> [] ->
  DCA.perform_attack a [] diff_characteristic
  = Ok (Some (2 ^ (16 - 4 * last (DCA.get_active_sboxes diff_characteristic) 0))).
Proof.
  intros Hsize Hwidth Hact.
  destruct (perform_attack_first_maximum a Hsize Hwidth [] diff_characteristic Hact)
    as [i0 [Hi0 [Hattack [_ Hfirst]]]].
  assert (Hone : i0 = 1).
  { destruct (Z.eq_dec i0 1) as [He|Hne]; [exact He|exfalso].
    assert (H1 : 1 <= 1 < i0) by lia.
    specialize (Hfirst 1 H1).
    unfold count_of, DCA.count_pairs in Hfirst. cbn [for_each] in Hfirst. lia. }
  rewrite Hattack, Hone, (first_candidate a diff_characteristic Hsize Hact).
  reflexivity.
Qed.

Lemma perform_attack_without_pairs_witness :
  DCA.perform_attack main_analysis [] 0x0606
  = Ok (Some (2 ^ (16 - 4 * last (DCA.get_active_sboxes 0x0606) 0))).
Proof.
  apply (perform_attack_without_pairs main_analysis 0x0606).
  - reflexivity.
  - reflexivity.
  - vm_compute. discriminate.
Defined.

(** ** Partial decryption with the key of the last round *)

Lemma lxor_cancel_left (k x y : Z) : Z.lxor (Z.lxor k x) (Z.lxor k y) = Z.lxor x y.
Proof.
  apply Z.bits_inj'. intros n _. rewrite !Z.lxor_spec.
  destruct (Z.testbit k n), (Z.testbit x n), (Z.testbit y n); reflexivity.
Qed.

Lemma lxor_cancel_key (k z : Z) : Z.lxor (Z.lxor k z) k = z.
Proof.
  apply Z.bits_inj'. intros n _. rewrite !Z.lxor_spec.
  destruct (Z.testbit k n), (Z.testbit z n); reflexivity.
Qed.

Section LastRound.

Variables (ks : list Z) (sub perm : dict Z) (net : SPN.SP_Network).
Hypothesis Hinit : SPN.init ks sub perm = Ok net.
Hypothesis Hbij : sub_bijective sub.
Hypothesis Hkeys : keys_in_block ks (SPN.data_size net).
Hypothesis Hnonempty : ks <> [].

Lemma round_key (r : Z) :
  - Z.of_nat (length ks) <= r < Z.of_nat (length ks) ->
  exists k, list_item (SPN.keys net) r = Ok k /\ in_block net k.
Proof.
  intros Hr.
  destruct (init_fields ks sub perm net Hinit) as [Hk _]. rewrite Hk.
  destruct (list_item_ok ks r Hr) as [k [Hitem Hin]].
  exists k. split; [exact Hitem|].
  unfold keys_in_block in Hkeys. rewrite Forall_forall in Hkeys.
  apply Hkeys. exact Hin.
Qed.

Lemma last_round_undone (x : Z) :
  in_block net x ->
  exists k k' c,
    list_item (SPN.keys net) (SPN.rounds net) = Ok k /\
    list_item (SPN.keys net) (SPN.rounds net - 1) = Ok k' /\
    SPN.run_last_round net x = Ok c /\
    SPN.substitute net (Z.lxor c k) true = Ok (Z.lxor k' x).
Proof.
  intros Hx.
  destruct (init_fields ks sub perm net Hinit) as [_ [_ [_ [_ [Hrounds _]]]]].
  assert (Hlen : 0 < Z.of_nat (length ks)).
  { destruct ks; [congruence|]. cbn [length]. lia. }
  destruct (round_key (SPN.rounds net)) as [k [Hk Hkb]]; [lia|].
  destruct (round_key (SPN.rounds net - 1)) as [k' [Hk' Hkb']]; [lia|].
  assert (Hy : in_block net (Z.lxor k' x))
    by (apply lxor_in_block; assumption).
  destruct (substitute_undone ks sub perm net Hinit Hbij false (Z.lxor k' x) Hy)
    as [z [Hz [_ Hback]]].
  exists k, k', (Z.lxor k z).
  split; [exact Hk|]. split; [exact Hk'|]. split.
  - unfold SPN.run_last_round, SPN.keymix.
    rewrite Hk'. cbn [bind]. rewrite Hz. cbn [bind]. rewrite Hk. reflexivity.
  - rewrite lxor_cancel_key. exact Hback.
Qed.

End LastRound.

(** X19. With the key of the last round, [partial_decrypt] undoes the last
    key mixing and the last substitution: applied to [run_last_round x] it
    returns [x] mixed with the key before the last.  For two inputs the
    partial decryptions therefore differ by exactly the difference of the
    inputs, and [count_pairs] counts the pair for that difference. *)
Theorem partial_decrypt_with_last_key
  (ks : list Z) (sub perm : dict Z) (net : SPN.SP_Network)
  (a : DCA.DifferentialCryptanalysis) (x1 x2 : Z) :
  SPN.init ks sub perm = Ok net ->
  sub_bijective sub ->
  keys_in_block ks (SPN.data_size net) ->
  ks <> [] ->
  DCA.sp_network a = net ->
  in_block net x1 ->
  in_block net x2 ->
  exists k k' c1 c2,
    list_item (SPN.keys net) (SPN.rounds net) = Ok k /\
    list_item (SPN.keys net) (SPN.rounds net - 1) = Ok k' /\
    SPN.run_last_round net x1 = Ok c1 /\
    SPN.run_last_round net x2 = Ok c2 /\
    DCA.partial_decrypt a c1 k = Ok (Z.lxor k' x1) /\
    DCA.partial_decrypt a c2 k = Ok (Z.lxor k' x2) /\
    DCA.check_expected_difference (Z.lxor k' x1) (Z.lxor k' x2) (Z.lxor x1 x2)
    = true /\
    DCA.count_pairs a [(c1, c2)] k (Z.lxor x1 x2) = Ok 1.
Proof.
  intros Hinit Hbij Hkeys Hnonempty Hnet Hx1 Hx2.
  destruct (last_round_undone ks sub perm net Hinit Hbij Hkeys Hnonempty x1 Hx1)
    as [k [k' [c1 [Hk [Hk' [Hc1 Hp1]]]]]].
  destruct (last_round_undone ks sub perm net Hinit Hbij Hkeys Hnonempty x2 Hx2)
    as [k2 [k2' [c2 [Hk2 [Hk2' [Hc2 Hp2]]]]]].
  assert (k2 = k) by congruence. assert (k2' = k') by congruence. subst k2 k2'.
  assert (Hcheck : DCA.check_expected_difference
                     (Z.lxor k' x1) (Z.lxor k' x2) (Z.lxor x1 x2) = true).
  { unfold DCA.check_expected_difference. rewrite lxor_cancel_left.
    apply Z.eqb_refl. }
  exists k, k', c1, c2.
  repeat (split; [assumption|]).
  assert (Hd1 : DCA.partial_decrypt a c1 k = Ok (Z.lxor k' x1))
    by (unfold DCA.partial_decrypt; rewrite Hnet; exact Hp1).
  assert (Hd2 : DCA.partial_decrypt a c2 k = Ok (Z.lxor k' x2))
    by (unfold DCA.partial_decrypt; rewrite Hnet; exact Hp2).
  split; [exact Hd1|]. split; [exact Hd2|]. split; [exact Hcheck|].
  unfold DCA.count_pairs. cbn [for_each].
  rewrite Hd1. cbn [bind]. rewrite Hd2. cbn [bind]. rewrite Hcheck. reflexivity.
Qed.

Lemma partial_decrypt_with_last_key_witness :
  exists k k' c1 c2,
    list_item (SPN.keys main_network) (SPN.rounds main_network) = Ok k /\
    list_item (SPN.keys main_network) (SPN.rounds main_network - 1) = Ok k' /\
    SPN.run_last_round main_network 782 = Ok c1 /\
    SPN.run_last_round main_network 1034 = Ok c2 /\
    DCA.partial_decrypt main_analysis c1 k = Ok (Z.lxor k' 782) /\
    DCA.partial_decrypt main_analysis c2 k = Ok (Z.lxor k' 1034) /\
    DCA.check_expected_difference (Z.lxor k' 782) (Z.lxor k' 1034) (Z.lxor 782 1034)
    = true /\
    DCA.count_pairs main_analysis [(c1, c2)] k (Z.lxor 782 1034) = Ok 1.
Proof.
  apply (partial_decrypt_with_last_key
           main_keys main_substitution main_permutation main_network
           main_analysis 782 1034).
  - vm_compute. reflexivity.
  - apply sub_bijective_check_ok. vm_compute. reflexivity.
  - apply keys_in_block_check_ok. vm_compute. reflexivity.
  - discriminate.
  - reflexivity.
  - unfold in_block. vm_compute. split; [discriminate|reflexivity].
  - unfold in_block. vm_compute. split; [discriminate|reflexivity].
Defined.

(** ** [get_max_frequency_difference] *)

Section MaxFrequency.

Let state : Type := (option Z * option Z * Z)%type.

Let step (st : state) (cell : Z * Z * Z) : state :=
  if snd st <? snd cell
  then (Some (fst (fst cell)), Some (snd (fst cell)), snd cell)
  else st.

Lemma fold_filter {A X : Type} (p : X -> bool) (f : A -> X -> A) (l : list X) :
  forall a, fold_left f (filter p l) a
            = fold_left (fun acc x => if p x then f acc x else acc) l a.
Proof.
  induction l as [|x l IH]; intros a0; [reflexivity|].
  cbn [filter fold_left]. destruct (p x); [cbn [fold_left]|]; apply IH.
Qed.

Lemma get_max_frequency_difference_fold (a : DCA.DifferentialCryptanalysis) :
  DCA.get_max_frequency_difference a
  = fold_left step (counted_cells a) (None, None, 0).
Proof.
  unfold DCA.get_max_frequency_difference, counted_cells, cells.
  rewrite fold_filter.
  generalize (@None Z, @None Z, 0).
  induction (DCA.difference_distribution a) as [|[delta_x row] dd IH];
    intros st; [reflexivity|].
  cbn [fold_left flat_map fst snd]. rewrite fold_left_app, <- IH.
  f_equal. clear IH. revert st.
  induction row as [|[delta_y count] row IH]; intros st; [reflexivity|].
  cbn [fold_left map fst snd]. rewrite <- IH. f_equal.
  unfold skipped, step. cbn [fst snd].
  destruct ((delta_x =? 0) && (delta_y =? 0)); cbn [negb]; [reflexivity|].
  destruct st as [[ox oy] m]. reflexivity.
Qed.

Lemma fold_step_first_maximum (l : list (Z * Z * Z)) :
  forall (ox oy : option Z) (m : Z),
    (Forall (fun cell => snd cell <= m) l /\
     fold_left step l (ox, oy, m) = (ox, oy, m)) \/
    (exists pre delta_x delta_y count post,
       l = pre ++ (delta_x, delta_y, count) :: post /\
       fold_left step l (ox, oy, m) = (Some delta_x, Some delta_y, count) /\
       m < count /\
       Forall (fun cell => snd cell < count) pre /\
       Forall (fun cell => snd cell <= count) post).
Proof.
  induction l as [|[[dx dy] c] l IH]; intros ox oy m.
  - left. split; [constructor|reflexivity].
  - cbn [fold_left].
    assert (Hstep : step (ox, oy, m) (dx, dy, c)
                    = if m <? c then (Some dx, Some dy, c) else (ox, oy, m))
      by reflexivity.
    rewrite Hstep. clear Hstep.
    destruct (Z.ltb_spec m c) as [Hlt|Hge].
    + right.
      destruct (IH (Some dx) (Some dy) c)
        as [[Hall Hr]|[pre [dx' [dy' [c' [post [Hl [Hr [Hc [Hpre Hpost]]]]]]]]]].
      * exists [], dx, dy, c, l.
        split; [reflexivity|]. split; [exact Hr|]. split; [exact Hlt|].
        split; [constructor|exact Hall].
      * exists ((dx, dy, c) :: pre), dx', dy', c', post.
        split; [rewrite Hl; reflexivity|]. split; [exact Hr|].
        split; [lia|]. split; [|exact Hpost].
        constructor; [cbn [snd]; lia|exact Hpre].
    + destruct (IH ox oy m)
        as [[Hall Hr]|[pre [dx' [dy' [c' [post [Hl [Hr [Hc [Hpre Hpost]]]]]]]]]].
      * left. split; [|exact Hr]. constructor; [cbn [snd]; lia|exact Hall].
      * right. exists ((dx, dy, c) :: pre), dx', dy', c', post.
        split; [rewrite Hl; reflexivity|]. split; [exact Hr|].
        split; [exact Hc|]. split; [|exact Hpost].
        constructor; [cbn [snd]; lia|exact Hpre].
Qed.

Lemma max_frequency_cases (a : DCA.DifferentialCryptanalysis) :
  (Forall (fun cell => snd cell <= 0) (counted_cells a) /\
   DCA.get_max_frequency_difference a = (None, None, 0)) \/
  (exists pre delta_x delta_y count post,
     counted_cells a = pre ++ (delta_x, delta_y, count) :: post /\
     DCA.get_max_frequency_difference a = (Some delta_x, Some delta_y, count) /\
     0 < count /\
     Forall (fun cell => snd cell < count) pre /\
     Forall (fun cell => snd cell <= count) post).
Proof.
  rewrite get_max_frequency_difference_fold.
  apply fold_step_first_maximum.
Qed.

End MaxFrequency.

(** X21. [get_max_frequency_difference] returns the first cell, in the
    order of a nested iteration over the rows, that holds the largest count
    among the cells other than (0, 0): earlier cells are strictly smaller,
    later ones not larger.  When no such cell has a positive count, as on
    the empty table, it returns [(None, None, 0)]. *)
Theorem get_max_frequency_difference_first_maximum
  (a : DCA.DifferentialCryptanalysis) :
  (Forall (fun cell => snd cell <= 0) (counted_cells a) ->
   DCA.get_max_frequency_difference a = (None, None, 0)) /\
  (Exists (fun cell => 0 < snd cell) (counted_cells a) ->
   exists pre delta_x delta_y count post,
     counted_cells a = pre ++ (delta_x, delta_y, count) :: post /\
     DCA.get_max_frequency_difference a = (Some delta_x, Some delta_y, count) /\
     0 < count /\
     Forall (fun cell => snd cell < count) pre /\
     Forall (fun cell => snd cell <= count) post).
Proof.
  destruct (max_frequency_cases a)
    as [[Hall Hr]|[pre [dx [dy [c [post [Hl [Hr [Hc [Hpre Hpost]]]]]]]]]].
  - split; [intros _; exact Hr|].
    intros Hex. exfalso. apply Exists_exists in Hex.
    destruct Hex as [cell [Hin Hpos]].
    rewrite Forall_forall in Hall. specialize (Hall cell Hin). lia.
  - split.
    + intros Hall. exfalso. rewrite Forall_forall in Hall.
      assert (Hin : In (dx, dy, c) (counted_cells a))
        by (rewrite Hl; apply in_elt).
      specialize (Hall _ Hin). cbn [snd] in Hall. lia.
    + intros _. exists pre, dx, dy, c, post. repeat split; assumption.
Qed.

Lemma get_max_frequency_difference_first_maximum_witness :
  DCA.get_max_frequency_difference (DCA.init main_network) = (None, None, 0) /\
  exists pre delta_x delta_y count post,
    counted_cells main_analysis = pre ++ (delta_x, delta_y, count) :: post /\
    DCA.get_max_frequency_difference main_analysis
    = (Some delta_x, Some delta_y, count).
Proof.
  split.
  - apply (get_max_frequency_difference_first_maximum (DCA.init main_network)).
    constructor.
  - destruct (get_max_frequency_difference_first_maximum main_analysis)
      as [_ Hmax].
    destruct Hmax as [pre [dx [dy [c [post [Hl [Hr _]]]]]]].
    + apply Exists_exists. exists (1, 7, 2). split; [|cbn [snd]; lia].
      vm_compute. tauto.
    + exists pre, dx, dy, c, post. split; [exact Hl|exact Hr].
Defined.

(** ** The most frequent difference pair of a bijective S-box *)

Section MostFrequent.

Variables (ks : list Z) (sub perm : dict Z) (net : SPN.SP_Network).
Hypothesis Hinit : SPN.init ks sub perm = Ok net.
Hypothesis Hbij : sub_bijective sub.

Let a := DCA.mkDC net (ddt_table net) (SPN.data_size net).

Lemma in_cells (dd : dict (dict Z)) (delta_x delta_y count : Z) :
  In (delta_x, delta_y, count) (cells dd) <->
  exists row, In (delta_x, row) dd /\ In (delta_y, count) row.
Proof.
  unfold cells. rewrite in_flat_map. split.
  - intros [[dx row] [Hin Hcell]]. cbn [fst snd] in Hcell.
    apply in_map_iff in Hcell. destruct Hcell as [[dy c] [He Hrow]].
    cbn [fst snd] in He. inversion He; subst.
    exists row. split; assumption.
  - intros [row [Hin Hrow]]. exists (delta_x, row). split; [exact Hin|].
    cbn [fst snd]. apply in_map_iff. exists (delta_y, count).
    split; [reflexivity|exact Hrow].
Qed.

Lemma in_built_cells (delta_x delta_y count : Z) :
  In (delta_x, delta_y, count) (cells (ddt_table net)) <->
  (0 <= delta_x < 16 /\ 0 <= delta_y < 16 /\
   count = ddt_count net delta_x delta_y).
Proof.
  pose proof (bijective_data_size ks sub perm net Hinit Hbij) as Hsize.
  rewrite in_cells. unfold ddt_table, ddt_row. rewrite Hsize. split.
  - intros [row [Hin Hrow]].
    apply in_map_iff in Hin. destruct Hin as [dx [He Hdx]].
    apply pair_equal_spec in He. destruct He as [-> <-].
    apply in_map_iff in Hrow. destruct Hrow as [dy [He Hdy]].
    apply pair_equal_spec in He. destruct He as [-> <-].
    apply in_range in Hdx. apply in_range in Hdy.
    repeat split; lia.
  - intros [Hdx [Hdy ->]].
    exists (map (fun d => (d, ddt_count net delta_x d)) (range 16)). split.
    + apply in_map_iff. exists delta_x. split; [reflexivity|].
      apply in_range. exact Hdx.
    + apply in_map_iff. exists delta_y. split; [reflexivity|].
      apply in_range. exact Hdy.
Qed.

Lemma in_counted_cells (delta_x delta_y count : Z) :
  In (delta_x, delta_y, count) (counted_cells a) <->
  (0 <= delta_x < 16 /\ 0 <= delta_y < 16 /\
   (delta_x <> 0 \/ delta_y <> 0) /\
   count = ddt_count net delta_x delta_y).
Proof.
  unfold counted_cells, a. cbn [DCA.difference_distribution].
  rewrite filter_In, in_built_cells. unfold skipped. cbn [fst snd].
  destruct (Z.eqb_spec delta_x 0), (Z.eqb_spec delta_y 0); cbn [andb negb];
    intuition (try lia; try discriminate).
Qed.

Lemma most_frequent :
  exists delta_x delta_y count,
    DCA.get_max_frequency_difference a = (Some delta_x, Some delta_y, count) /\
    0 < delta_x < 16 /\ 0 < delta_y < 16 /\
    ddt_count net delta_x delta_y = count /\ 0 < count /\
    (forall dx dy, 0 <= dx < 16 -> 0 <= dy < 16 -> dx <> 0 \/ dy <> 0 ->
       ddt_count net dx dy <= count).
Proof.
  pose proof (bijective_data_size ks sub perm net Hinit Hbij) as Hsize.
  destruct (max_frequency_cases a)
    as [[Hall Hr]|[pre [dx [dy [c [post [Hl [Hr [Hc [Hpre Hpost]]]]]]]]]].
  - exfalso.
    destruct (built_cell ks sub perm net Hinit (bijective_len sub Hbij)
                (bijective_values_below sub Hbij) 1) as [row [c [Hrow [Hcell Hc]]]];
      [lia|].
    destruct (bijective_max ks sub perm net Hinit Hbij 1) as [_ Hmax]; [lia|].
    fold a in Hrow, Hcell, Hmax.
    assert (Hc' : c = ddt_count net 1 (max_delta_y_of a 1)).
    { pose proof (table_entry net 1 (max_delta_y_of a 1)) as Ht.
      unfold table_at, get_default in Ht. fold a in Ht.
      rewrite Hrow, Hcell in Ht. apply Ht; rewrite Hsize; lia. }
    rewrite Forall_forall in Hall.
    assert (Hin : In (1, max_delta_y_of a 1, c) (counted_cells a)).
    { apply in_counted_cells. repeat split; lia. }
    specialize (Hall _ Hin). cbn [snd] in Hall. lia.
  - exists dx, dy, c.
    assert (Hin : In (dx, dy, c) (counted_cells a))
      by (rewrite Hl; apply in_elt).
    apply in_counted_cells in Hin. destruct Hin as [Hdx [Hdy [Hnz Hcount]]].
    assert (Hx : dx <> 0).
    { intros ->. rewrite table_zero_row in Hcount by lia.
      destruct (Z.eqb_spec dy 0); lia. }
    assert (Hy : dy <> 0).
    { intros ->.
      rewrite (column_zero_count ks sub perm net Hinit Hbij dx) in Hcount by lia.
      lia. }
    split; [exact Hr|]. split; [lia|]. split; [lia|].
    split; [symmetry; exact Hcount|]. split; [exact Hc|].
    intros dx' dy' Hdx' Hdy' Hnz'.
    assert (Hin' : In (dx', dy', ddt_count net dx' dy') (counted_cells a)).
    { apply in_counted_cells. repeat split; try lia; try exact Hnz'. }
    rewrite Hl in Hin'. apply in_app_or in Hin'.
    rewrite Forall_forall in Hpre, Hpost.
    destruct Hin' as [Hin'|[He|Hin']].
    + specialize (Hpre _ Hin'). cbn [snd] in Hpre. lia.
    + inversion He. lia.
    + specialize (Hpost _ Hin'). cbn [snd] in Hpost. exact Hpost.
Qed.

End MostFrequent.

(** X22. On the table of a bijective S-box [get_max_frequency_difference]
    returns an input and an output difference that are both non-zero
    nibbles, with their positive table entry, which no other entry apart
    from (0, 0) exceeds. *)
Theorem most_frequent_difference_pair_nonzero
  (ks : list Z) (sub perm : dict Z) (net : SPN.SP_Network) :
  SPN.init ks sub perm = Ok net ->
  sub_bijective sub ->
  exists a delta_x delta_y count,
    DCA.calculate_difference_distribution (DCA.init net) = Ok a /\
    DCA.get_max_frequency_difference a = (Some delta_x, Some delta_y, count) /\
    0 < delta_x < 16 /\ 0 < delta_y < 16 /\
    table_at a delta_x delta_y = count /\ 0 < count /\
    (forall dx dy, 0 <= dx < 16 -> 0 <= dy < 16 -> dx <> 0 \/ dy <> 0 ->
       table_at a dx dy <= count).
Proof.
  intros Hinit Hbij.
  pose proof (bijective_data_size ks sub perm net Hinit Hbij) as Hsize.
  destruct (most_frequent ks sub perm net Hinit Hbij)
    as [dx [dy [c [Hr [Hdx [Hdy [Hcount [Hc Hmax]]]]]]]].
  exists (DCA.mkDC net (ddt_table net) (SPN.data_size net)), dx, dy, c.
  split; [apply calculate_difference_distribution_table|].
  split; [exact Hr|]. split; [exact Hdx|]. split; [exact Hdy|].
  split; [rewrite table_entry by (rewrite Hsize; lia); exact Hcount|].
  split; [exact Hc|].
  intros dx' dy' Hdx' Hdy' Hnz.
  rewrite table_entry by (rewrite Hsize; lia).
  apply Hmax; assumption.
Qed.

Lemma most_frequent_difference_pair_nonzero_witness :
  exists a delta_x delta_y count,
    DCA.calculate_difference_distribution (DCA.init main_network) = Ok a /\
    DCA.get_max_frequency_difference a = (Some delta_x, Some delta_y, count) /\
    0 < delta_x < 16 /\ 0 < delta_y < 16.
Proof.
  destruct (most_frequent_difference_pair_nonzero
              main_keys main_substitution main_permutation main_network)
    as [a [dx [dy [c [Ha [Hr [Hdx [Hdy _]]]]]]]].
  - vm_compute. reflexivity.
  - apply sub_bijective_check_ok. vm_compute. reflexivity.
  - exists a, dx, dy, c. repeat split; try assumption; lia.
Defined.

(** ** The candidates of [perform_attack] *)

Lemma confined_check_ok (b : DCA.DifferentialCryptanalysis)
  (lists : list (list Z)) (active_sboxes : list Z) (i : Z) :
  confined_check b lists = true ->
  In active_sboxes lists ->
  1 <= i < (2 ^ 4) ^ Z.of_nat (length active_sboxes) ->
  0 < block_of b active_sboxes i < 2 ^ 16 /\
  (forall k, 0 <= k < 4 -> nibble (block_of b active_sboxes i) k <> 0 ->
     In (4 - k) active_sboxes).
Proof.
  intros Hc Hact Hi. unfold confined_check in Hc.
  rewrite forallb_forall in Hc.
  specialize (Hc active_sboxes Hact).
  apply all_below_ok with (i := i) in Hc; [|lia].
  destruct (Z.eqb_spec i 0) as [?|_]; [lia|]. cbn [orb] in Hc. cbv zeta in Hc.
  apply andb_true_iff in Hc. destruct Hc as [Hrange Hnib].
  apply andb_true_iff in Hrange. destruct Hrange as [Hlo Hhi].
  apply Z.ltb_lt in Hlo. apply Z.ltb_lt in Hhi.
  split; [split; assumption|].
  intros k Hk Hne. rewrite forallb_forall in Hnib.
  assert (Hin : In k [0; 1; 2; 3]) by (cbn [In]; lia).
  specialize (Hnib k Hin). apply orb_true_iff in Hnib.
  destruct Hnib as [Hz|Hex]; [apply Z.eqb_eq in Hz; contradiction|].
  apply existsb_exists in Hex. destruct Hex as [s [Hs He]].
  apply Z.eqb_eq in He. rewrite He. exact Hs.
Qed.

Lemma confined_check_16 : confined_check analysis_16 active_lists = true.
Proof. vm_compute. reflexivity. Qed.

Lemma candidate_confined (a : DCA.DifferentialCryptanalysis) (x i : Z) :
  DCA.data_size a = 16 ->
  1 <= i < (2 ^ 4) ^ Z.of_nat (length (DCA.get_active_sboxes x)) ->
  0 < block_of a (DCA.get_active_sboxes x) i < 2 ^ 16 /\
  (forall k, 0 <= k < 4 -> nibble x k = 0 ->
     nibble (block_of a (DCA.get_active_sboxes x) i) k = 0).
Proof.
  intros Hsize Hi.
  assert (Hsame : block_of a (DCA.get_active_sboxes x) i
                  = block_of analysis_16 (DCA.get_active_sboxes x) i).
  { unfold block_of.
    rewrite (convert_to_block_data_size a analysis_16) by exact Hsize.
    reflexivity. }
  rewrite Hsame.
  destruct (confined_check_ok analysis_16 active_lists (DCA.get_active_sboxes x) i
              confined_check_16 (get_active_sboxes_cases x) Hi) as [Hrange Hnib].
  split; [exact Hrange|].
  intros k Hk Hz.
  destruct (Z.eq_dec (nibble (block_of analysis_16 (DCA.get_active_sboxes x) i) k) 0)
    as [He|Hne]; [exact He|exfalso].
  specialize (Hnib k Hk Hne). apply in_get_active_sboxes in Hnib.
  destruct Hnib as [_ Hnz]. apply Hnz.
  replace (4 - (4 - k)) with k by lia. exact Hz.
Qed.

(** X23. A subkey [perform_attack] returns is never 0, fits 16 bits, and
    is zero in every nibble where the characteristic is zero: its active
    S-boxes are among those of the characteristic. *)
Theorem perform_attack_result_confined
  (a : DCA.DifferentialCryptanalysis) (ciphertext_pairs : list (Z * Z))
  (diff_characteristic subkey : Z) :
  DCA.data_size a = 16 ->
  SPN.data_size (DCA.sp_network a) = 16 ->
  DCA.perform_attack a ciphertext_pairs diff_characteristic = Ok (Some subkey) ->
  0 < subkey < 2 ^ 16 /\
  (forall k, 0 <= k < 4 -> nibble diff_characteristic k = 0 -> nibble subkey k = 0) /\
  (forall i, In i (DCA.get_active_sboxes subkey) ->
     In i (DCA.get_active_sboxes diff_characteristic)).
Proof.
  intros Hsize Hwidth Hattack.
  destruct (DCA.get_active_sboxes diff_characteristic) as [|s rest] eqn:Hact.
  { rewrite (perform_attack_no_active a Hsize Hwidth ciphertext_pairs
               diff_characteristic Hact) in Hattack.
    discriminate. }
  assert (Hne : DCA.get_active_sboxes diff_characteristic <> [])
    by (rewrite Hact; discriminate).
  destruct (perform_attack_first_maximum a Hsize Hwidth ciphertext_pairs
              diff_characteristic Hne) as [i0 [Hi0 [Hres _]]].
  rewrite Hres in Hattack. injection Hattack as Hk.
  destruct (candidate_confined a diff_characteristic i0 Hsize Hi0)
    as [Hrange Hnib].
  rewrite Hk in Hrange, Hnib.
  split; [exact Hrange|]. split; [exact Hnib|].
  intros i Hin. apply in_get_active_sboxes in Hin. destruct Hin as [Hi Hnz].
  rewrite <- Hact. apply in_get_active_sboxes. split; [exact Hi|].
  intros Hz. apply Hnz. apply Hnib; [lia|exact Hz].
Qed.

Lemma perform_attack_result_confined_witness :
  0 < 1 < 2 ^ 16 /\
  (forall k, 0 <= k < 4 -> nibble 1 k = 0 -> nibble 1 k = 0) /\
  (forall i, In i (DCA.get_active_sboxes 1) -> In i (DCA.get_active_sboxes 1)).
Proof.
  apply (perform_attack_result_confined main_analysis [] 1 1).
  - reflexivity.
  - reflexivity.
  - vm_compute. reflexivity.
Defined.

(** ** The table of counts of [perform_attack] *)

Section Counts.

Variable a : DCA.DifferentialCryptanalysis.
Hypothesis Hsize : DCA.data_size a = 16.
Hypothesis Hwidth : SPN.data_size (DCA.sp_network a) = 16.

Lemma count_pairs_bounds (ciphertext_pairs : list (Z * Z))
  (subkey diff_characteristic : Z) :
  0 <= count_of a ciphertext_pairs diff_characteristic subkey
    <= Z.of_nat (length ciphertext_pairs).
Proof.
  unfold count_of, DCA.count_pairs.
  destruct (for_each_inv
    (fun (pre : list (Z * Z)) (c : Z) => 0 <= c <= Z.of_nat (length pre))
    (fun count (pair : Z * Z) =>
       let (ciphertext_1, ciphertext_2) := pair in
       p1 <- DCA.partial_decrypt a ciphertext_1 subkey ;;
       p2 <- DCA.partial_decrypt a ciphertext_2 subkey ;;
       Ok (count + (if DCA.check_expected_difference p1 p2 diff_characteristic
                    then 1 else 0)))
    ciphertext_pairs 0) as [c [Hc Hb]].
  - cbn [length]. lia.
  - intros pre [c1 c2] acc post _ Hacc.
    unfold DCA.partial_decrypt.
    destruct (substitute_returns a Hwidth (Z.lxor c1 subkey) true) as [p1 H1].
    destruct (substitute_returns a Hwidth (Z.lxor c2 subkey) true) as [p2 H2].
    rewrite H1, H2. cbn [bind]. eexists. split; [reflexivity|].
    rewrite length_app. cbn [length].
    destruct (DCA.check_expected_difference p1 p2 diff_characteristic); lia.
  - rewrite Hc. exact Hb.
Qed.

Lemma candidates_distinct (x : Z) :
  NoDup (map (block_of a (DCA.get_active_sboxes x))
           (range2 1 ((2 ^ 4) ^ Z.of_nat (length (DCA.get_active_sboxes x))))).
Proof.
  apply NoDup_map_NoDup_ForallPairs.
  - intros i j Hi Hj He.
    apply in_range2 in Hi. apply in_range2 in Hj.
    destruct (convert_to_block_index a Hsize x i Hi) as [_ Hbi].
    destruct (convert_to_block_index a Hsize x j Hj) as [_ Hbj].
    rewrite He in Hbi. lia.
  - unfold range2. rewrite range3_eq.
    apply Finite.Injective_map_NoDup; [|apply seq_NoDup].
    intros i j Hij. lia.
Qed.

End Counts.

(** X24. The dictionary of counts [perform_attack] builds has one entry
    per candidate: 16^n - 1 distinct subkeys for n active S-boxes.  The
    value stored for a subkey is the result of the count over the pairs,
    between 0 and the number of pairs. *)
Theorem subkey_counts_shape
  (a : DCA.DifferentialCryptanalysis) (ciphertext_pairs : list (Z * Z))
  (diff_characteristic : Z) :
  DCA.data_size a = 16 ->
  SPN.data_size (DCA.sp_network a) = 16 ->
  exists counts,
    DCA.subkey_counts a ciphertext_pairs diff_characteristic = Ok counts /\
    len counts
    = 16 ^ Z.of_nat (length (DCA.get_active_sboxes diff_characteristic)) - 1 /\
    wf counts /\
    (forall subkey count, get counts subkey = Some count ->
       DCA.count_pairs a ciphertext_pairs subkey diff_characteristic = Ok count /\
       0 <= count <= Z.of_nat (length ciphertext_pairs)).
Proof.
  intros Hsize Hwidth.
  eexists. split; [apply (subkey_counts_table a Hsize Hwidth)|].
  split; [|split].
  - unfold len. rewrite !length_map. unfold range2. rewrite range3_eq.
    rewrite length_map, length_seq. cbn [Z.ltb Z.compare].
    change (2 ^ 4) with 16.
    assert (0 < 16 ^ Z.of_nat (length (DCA.get_active_sboxes diff_characteristic)))
      by (apply Z.pow_pos_nonneg; lia).
    rewrite Z.div_1_r. lia.
  - unfold wf.
    rewrite (keys_tabulate (count_of a ciphertext_pairs diff_characteristic)).
    apply (candidates_distinct a Hsize).
  - intros subkey count Hget. apply get_in in Hget.
    apply in_map_iff in Hget. destruct Hget as [s [He _]].
    apply pair_equal_spec in He. destruct He as [-> <-].
    split; [apply (count_pairs_returns a Hwidth)|].
    apply (count_pairs_bounds a Hwidth).
Qed.

Lemma subkey_counts_shape_witness :
  exists counts,
    DCA.subkey_counts main_analysis [(0, 0); (1, 3)] 0x0606 = Ok counts /\
    len counts = 16 ^ Z.of_nat (length (DCA.get_active_sboxes 0x0606)) - 1.
Proof.
  destruct (subkey_counts_shape main_analysis [(0, 0); (1, 3)] 0x0606)
    as [counts [Hc [Hlen _]]].
  - reflexivity.
  - reflexivity.
  - exists counts. split; [exact Hc|exact Hlen].
Defined.

(** * Further edge cases of sp_network.py *)

(** ** A network without round keys *)

(** X25. [__init__] accepts an empty list of round keys; the network then
    has -1 rounds, and [keymix], [encrypt] and [decrypt] raise
    [IndexError] on every input. *)
Theorem no_round_keys_raises
  (sub perm : dict Z) (net : SPN.SP_Network) (r x : Z) :
  SPN.init [] sub perm = Ok net ->
  SPN.rounds net = -1 /\
  SPN.keymix net r x = Raise IndexError /\
  SPN.encrypt net x = Raise IndexError /\
  SPN.decrypt net x = Raise IndexError.
Proof.
  intros Hinit.
  destruct (init_fields [] sub perm net Hinit) as [Hk [_ [_ [_ [Hr _]]]]].
  cbn [length] in Hr. change (Z.of_nat 0 - 1) with (-1) in Hr.
  assert (Hmix : forall r' x', SPN.keymix net r' x' = Raise IndexError).
  { intros r' x'. unfold SPN.keymix. rewrite Hk.
    rewrite list_item_raises by (cbn [length]; lia). reflexivity. }
  split; [exact Hr|]. split; [apply Hmix|]. split.
  - unfold SPN.encrypt. rewrite Hr.
    change (range (-1 - 1)) with (@nil Z). cbn [for_each bind].
    unfold SPN.run_last_round. rewrite Hmix. reflexivity.
  - unfold SPN.decrypt, SPN.run_reverse_last_round. rewrite Hmix. reflexivity.
Qed.

Lemma no_round_keys_raises_witness :
  SPN.rounds (network_of [] main_substitution main_permutation) = -1 /\
  SPN.keymix (network_of [] main_substitution main_permutation) 0 782
  = Raise IndexError /\
  SPN.encrypt (network_of [] main_substitution main_permutation) 782
  = Raise IndexError /\
  SPN.decrypt (network_of [] main_substitution main_permutation) 782
  = Raise IndexError.
Proof.
  apply (no_round_keys_raises main_substitution main_permutation).
  vm_compute. reflexivity.
Defined.

(** ** Bits above the block width *)

Section HighBits.

Variable net : SPN.SP_Network.

Let N := SPN.data_size net.

Hypothesis HN : 0 <= N.

Lemma low_bits_agree (x x' m : Z) :
  x mod 2 ^ N = x' mod 2 ^ N -> m < N -> Z.testbit x m = Z.testbit x' m.
Proof.
  intros Hmod Hm.
  destruct (Z.ltb_spec m 0) as [Hneg|Hpos].
  { rewrite !Z.testbit_neg_r by lia. reflexivity. }
  rewrite <- (Z.mod_pow2_bits_low x N m) by lia.
  rewrite <- (Z.mod_pow2_bits_low x' N m) by lia.
  rewrite Hmod. reflexivity.
Qed.

Lemma lxor_low_bits (k x x' : Z) :
  x mod 2 ^ N = x' mod 2 ^ N -> (Z.lxor k x) mod 2 ^ N = (Z.lxor k x') mod 2 ^ N.
Proof.
  intros Hmod. apply Z.bits_inj'. intros m Hm.
  destruct (Z.ltb_spec m N) as [Hlt|Hge].
  - rewrite !Z.mod_pow2_bits_low by lia. rewrite !Z.lxor_spec.
    rewrite (low_bits_agree x x' m Hmod Hlt). reflexivity.
  - rewrite !Z.mod_pow2_bits_high by lia. reflexivity.
Qed.

Lemma substitute_low_bits (x x' : Z) (invert : bool) :
  x mod 2 ^ N = x' mod 2 ^ N ->
  SPN.substitute net x invert = SPN.substitute net x' invert.
Proof.
  intros Hmod. unfold SPN.substitute. fold N.
  apply for_each_ext_in. intros i acc Hin.
  assert (Hi : 0 <= i).
  { rewrite range3_eq in Hin. apply in_map_iff in Hin.
    destruct Hin as [j [Hj _]]. lia. }
  unfold rshift.
  destruct (Z.ltb_spec (N - i - 4) 0) as [Hneg|Hpos]; [reflexivity|].
  cbn [bind].
  assert (Hgroup : Z.land (Z.shiftr x (N - i - 4)) 15
                   = Z.land (Z.shiftr x' (N - i - 4)) 15).
  { apply Z.bits_inj'. intros b Hb.
    rewrite !Z.land_spec, !Z.shiftr_spec by lia.
    rewrite testbit_15 by lia.
    destruct (Z.ltb_spec b 4) as [Hlt|Hge].
    - rewrite (low_bits_agree x x' (b + (N - i - 4)) Hmod) by lia. reflexivity.
    - rewrite !andb_false_r. reflexivity. }
  rewrite Hgroup. reflexivity.
Qed.

Lemma keymix_substitute_low_bits {A : Type} (r x x' : Z) (invert : bool)
  (k : Z -> res A) :
  x mod 2 ^ N = x' mod 2 ^ N ->
  (buffer <- SPN.keymix net r x ;;
   buffer <- SPN.substitute net buffer invert ;; k buffer)
  = (buffer <- SPN.keymix net r x' ;;
     buffer <- SPN.substitute net buffer invert ;; k buffer).
Proof.
  intros Hmod. unfold SPN.keymix.
  destruct (list_item (SPN.keys net) r) as [key|e]; [|reflexivity].
  cbn [bind].
  rewrite (substitute_low_bits (Z.lxor key x) (Z.lxor key x') invert
             (lxor_low_bits key x x' Hmod)).
  reflexivity.
Qed.

Lemma encrypt_low_bits (x x' : Z) :
  x mod 2 ^ N = x' mod 2 ^ N -> SPN.encrypt net x = SPN.encrypt net x'.
Proof.
  intros Hmod. unfold SPN.encrypt.
  destruct (range (SPN.rounds net - 1)) as [|i rest].
  - cbn [for_each bind]. unfold SPN.run_last_round.
    apply keymix_substitute_low_bits. exact Hmod.
  - cbn [for_each]. unfold SPN.run_round at 1 3.
    rewrite (keymix_substitute_low_bits i x x' false _ Hmod). reflexivity.
Qed.

Lemma decrypt_low_bits (x x' : Z) :
  x mod 2 ^ N = x' mod 2 ^ N -> SPN.decrypt net x = SPN.decrypt net x'.
Proof.
  intros Hmod. unfold SPN.decrypt, SPN.run_reverse_last_round.
  rewrite (keymix_substitute_low_bits (SPN.rounds net) x x' true _ Hmod).
  reflexivity.
Qed.

End HighBits.

(** X26. [substitute], [encrypt] and [decrypt] read only the bits of their
    input inside the block: two inputs that agree modulo 2^N give the same
    result, or the same exception. *)
Theorem bits_above_the_block_are_ignored
  (ks : list Z) (sub perm : dict Z) (net : SPN.SP_Network) (x x' : Z) :
  SPN.init ks sub perm = Ok net ->
  x mod 2 ^ SPN.data_size net = x' mod 2 ^ SPN.data_size net ->
  (forall invert, SPN.substitute net x invert = SPN.substitute net x' invert) /\
  SPN.encrypt net x = SPN.encrypt net x' /\
  SPN.decrypt net x = SPN.decrypt net x'.
Proof.
  intros Hinit Hmod.
  assert (HN : 0 <= SPN.data_size net).
  { destruct (init_fields ks sub perm net Hinit) as [_ [_ [_ [_ [_ [Hd _]]]]]].
    rewrite Hd. unfold len. lia. }
  split; [|split].
  - intros invert. apply (substitute_low_bits net HN). exact Hmod.
  - apply (encrypt_low_bits net HN). exact Hmod.
  - apply (decrypt_low_bits net HN). exact Hmod.
Qed.

Lemma bits_above_the_block_are_ignored_witness :
  (forall invert, SPN.substitute main_network (782 + 2 ^ 16) invert
                  = SPN.substitute main_network 782 invert) /\
  SPN.encrypt main_network (782 + 2 ^ 16) = SPN.encrypt main_network 782 /\
  SPN.decrypt main_network (782 + 2 ^ 16) = SPN.decrypt main_network 782.
Proof.
  apply (bits_above_the_block_are_ignored
           main_keys main_substitution main_permutation main_network).
  - vm_compute. reflexivity.
  - vm_compute. reflexivity.
Defined.

(** * The display helpers of differential_cryptanalysis.py *)

(** ** [extract_subkey_bits] *)

Lemma list_eqb_eq (l l' : list Z) : list_eqb l l' = true -> l = l'.
Proof.
  revert l'. induction l as [|x l IH]; intros [|x' l'] H;
    try discriminate; [reflexivity|].
  cbn [list_eqb] in H. apply andb_true_iff in H. destruct H as [Hx Hl].
  apply Z.eqb_eq in Hx. rewrite Hx, (IH l' Hl). reflexivity.
Qed.

Lemma extract_check_ok (a : DCA.DifferentialCryptanalysis) (n v : Z) :
  extract_check a n = true ->
  0 <= v < n ->
  DCA.extract_subkey_bits a v = Ok (nonzero_nibbles v) /\
  String.length (PyStr.format_b 16 v) = 16%nat.
Proof.
  intros Hc Hv. unfold extract_check in Hc.
  apply all_below_ok with (i := v) in Hc; [|exact Hv].
  destruct (DCA.extract_subkey_bits a v) as [l|e]; [|discriminate].
  apply andb_true_iff in Hc. destruct Hc as [Hl Hlen].
  apply list_eqb_eq in Hl. apply Nat.eqb_eq in Hlen.
  rewrite Hl. split; [reflexivity|exact Hlen].
Qed.

Lemma extract_check_16 : extract_check analysis_16 (2 ^ 16) = true.
Proof. vm_compute. reflexivity. Qed.

Lemma nonzero_nibbles_active (x : Z) :
  nonzero_nibbles x
  = map (fun s => nibble x (4 - s)) (rev (DCA.get_active_sboxes x)).
Proof.
  rewrite get_active_sboxes_filter. unfold nonzero_nibbles. cbn [filter].
  assert (Hpos : forall k, (0 <? nibble x k) = negb (nibble x k =? 0)).
  { intros k. pose proof (nibble_range x k) as Hk.
    destruct (Z.ltb_spec 0 (nibble x k)), (Z.eqb_spec (nibble x k) 0);
      cbn [negb]; try reflexivity; lia. }
  rewrite !Hpos.
  destruct (nibble x 0 =? 0), (nibble x 1 =? 0), (nibble x 2 =? 0),
    (nibble x 3 =? 0); reflexivity.
Qed.

Lemma substring_beyond (s : String.string) (n m : nat) :
  (String.length s <= n)%nat -> String.substring n m s = String.EmptyString.
Proof.
  revert n m. induction s as [|c s IH]; intros n m Hn.
  - destruct n, m; reflexivity.
  - destruct n as [|n]; [cbn [String.length] in Hn; lia|].
    cbn [String.substring]. apply IH. cbn [String.length] in Hn. lia.
Qed.

Lemma range3_step4_wide (n : Z) :
  16 < n ->
  exists rest, range3 0 n 4 = [0; 4; 8; 12] ++ 16 :: rest.
Proof.
  intros Hn. unfold range3. change (0 <? 4) with true. cbv iota.
  pose proof (Z.div_le_lower_bound (n - 0 + 4 - 1) 4 5 ltac:(lia) ltac:(lia))
    as Hdiv.
  destruct (Z.to_nat ((n - 0 + 4 - 1) / 4)) as [|[|[|[|[|m]]]]] eqn:E; try lia.
  exists (count_from m 20 4). reflexivity.
Qed.

(** X27. On a 16-bit analysis and a 16-bit value [extract_subkey_bits]
    returns the non-zero nibbles of the value, most significant first:
    the nibbles at the active S-boxes, in ascending order of the S-box.
    On a wider block it raises [ValueError]: the formatted value has
    sixteen characters, so the fifth slice is empty. *)
Theorem extract_subkey_bits_nibbles
  (a : DCA.DifferentialCryptanalysis) (subkey_value : Z) :
  0 <= subkey_value < 2 ^ 16 ->
  (DCA.data_size a = 16 ->
     DCA.extract_subkey_bits a subkey_value = Ok (nonzero_nibbles subkey_value) /\
     nonzero_nibbles subkey_value
     = map (fun s => nibble subkey_value (4 - s))
         (rev (DCA.get_active_sboxes subkey_value))) /\
  (16 < DCA.data_size a ->
     DCA.extract_subkey_bits a subkey_value = Raise ValueError).
Proof.
  intros Hv.
  destruct (extract_check_ok analysis_16 (2 ^ 16) subkey_value extract_check_16 Hv)
    as [Hex Hlen].
  unfold DCA.extract_subkey_bits in Hex. cbv zeta in Hex.
  change (range3 0 (DCA.data_size analysis_16) 4) with [0; 4; 8; 12] in Hex.
  split.
  - intros Hsize. split; [|apply nonzero_nibbles_active].
    unfold DCA.extract_subkey_bits. cbv zeta. rewrite Hsize.
    change (range3 0 16 4) with [0; 4; 8; 12]. exact Hex.
  - intros Hsize. unfold DCA.extract_subkey_bits. cbv zeta.
    destruct (range3_step4_wide (DCA.data_size a) Hsize) as [rest Hrange].
    rewrite Hrange, for_each_app, Hex. cbn [bind for_each].
    unfold PyStr.slice at 1 2.
    rewrite (substring_beyond (PyStr.format_b 16 subkey_value))
      by (rewrite Hlen; cbn; lia).
    reflexivity.
Qed.

Lemma extract_subkey_bits_nibbles_witness :
  DCA.extract_subkey_bits main_analysis 0x0606 = Ok (nonzero_nibbles 0x0606) /\
  DCA.extract_subkey_bits (DCA.mkDC main_network [] 20) 0x0606 = Raise ValueError.
Proof.
  destruct (extract_subkey_bits_nibbles main_analysis 0x0606) as [H16 _];
    [lia|].
  destruct (extract_subkey_bits_nibbles (DCA.mkDC main_network [] 20) 0x0606)
    as [_ H20]; [lia|].
  split.
  - apply H16. reflexivity.
  - apply H20. cbn [DCA.data_size]. lia.
Defined.

(** ** [get_binary_rep_of_subkey] *)

Section BinaryRep.

Import Stdlib.Strings.String.

Variable subkey_value : Z.
Variable active_sboxes : list Z.

Let digits (i : Z) : string :=
  if existsb (Z.eqb i) active_sboxes
  then PyStr.format_b 4 (nibble subkey_value (4 - i))
  else masked_group.

Lemma format_check_ok (w : Z) :
  0 <= w < 16 ->
  PyStr.int_base2 (PyStr.format_b 4 w) = Ok w /\
  length (PyStr.format_b 4 w) = 4%nat.
Proof.
  intros Hw.
  assert (Hc : format_check = true) by (vm_compute; reflexivity).
  unfold format_check in Hc. rewrite forallb_forall in Hc.
  specialize (Hc w (proj2 (in_range 16 w) Hw)).
  destruct (PyStr.int_base2 (PyStr.format_b 4 w)) as [w'|e]; [|discriminate].
  apply andb_true_iff in Hc. destruct Hc as [He Hl].
  apply Z.eqb_eq in He. apply Nat.eqb_eq in Hl.
  rewrite He. split; [reflexivity|exact Hl].
Qed.

Lemma digits_length (i : Z) : length (digits i) = 4%nat.
Proof.
  unfold digits. destruct (existsb (Z.eqb i) active_sboxes); [|reflexivity].
  apply format_check_ok. apply nibble_range.
Qed.

Lemma four_characters (s : string) :
  length s = 4%nat ->
  exists c1 c2 c3 c4,
    s = String c1 (String c2 (String c3 (String c4 EmptyString))).
Proof.
  intros Hs.
  destruct s as [|c1 [|c2 [|c3 [|c4 [|c5 s]]]]]; try discriminate.
  exists c1, c2, c3, c4. reflexivity.
Qed.

Lemma get_binary_rep_of_subkey_digits :
  DCA.get_binary_rep_of_subkey subkey_value active_sboxes
  = ((((EmptyString ++ (digits 1 ++ separator)) ++ (digits 2 ++ separator))
      ++ (digits 3 ++ separator)) ++ (digits 4 ++ separator))%string.
Proof.
  unfold DCA.get_binary_rep_of_subkey.
  change (range2 1 5) with [1; 2; 3; 4]. cbn [fold_left]. cbv zeta.
  unfold digits, separator, masked_group, nibble.
  change (16 - 1 * 4) with (4 * (4 - 1)). change (16 - 2 * 4) with (4 * (4 - 2)).
  change (16 - 3 * 4) with (4 * (4 - 3)). change (16 - 4 * 4) with (4 * (4 - 4)).
  destruct (existsb (Z.eqb 1) active_sboxes), (existsb (Z.eqb 2) active_sboxes),
    (existsb (Z.eqb 3) active_sboxes), (existsb (Z.eqb 4) active_sboxes);
    reflexivity.
Qed.

Lemma get_binary_rep_of_subkey_slices :
  length (DCA.get_binary_rep_of_subkey subkey_value active_sboxes) = 20%nat /\
  forall i, 1 <= i <= 4 ->
    PyStr.slice (DCA.get_binary_rep_of_subkey subkey_value active_sboxes)
      (5 * (i - 1)) (5 * i - 1) = digits i /\
    PyStr.slice (DCA.get_binary_rep_of_subkey subkey_value active_sboxes)
      (5 * i - 1) (5 * i) = separator.
Proof.
  rewrite get_binary_rep_of_subkey_digits.
  destruct (four_characters (digits 1) (digits_length 1)) as [a1 [a2 [a3 [a4 E1]]]].
  destruct (four_characters (digits 2) (digits_length 2)) as [b1 [b2 [b3 [b4 E2]]]].
  destruct (four_characters (digits 3) (digits_length 3)) as [c1 [c2 [c3 [c4 E3]]]].
  destruct (four_characters (digits 4) (digits_length 4)) as [d1 [d2 [d3 [d4 E4]]]].
  rewrite E1, E2, E3, E4.
  split; [reflexivity|].
  intros i Hi.
  assert (Hcases : i = 1 \/ i = 2 \/ i = 3 \/ i = 4) by lia.
  destruct Hcases as [-> | [-> | [-> | ->]]];
    rewrite ?E1, ?E2, ?E3, ?E4; split; reflexivity.
Qed.

End BinaryRep.

(** X28. The text of [get_binary_rep_of_subkey] has 20 characters: four
    groups of four characters, each followed by a space.  The group of an
    S-box in [active_sboxes] reads back, in base 2, as the nibble of the
    subkey at that S-box; the group of any other S-box is [XXXX]. *)
Theorem get_binary_rep_of_subkey_groups
  (subkey_value : Z) (active_sboxes : list Z) :
  String.length (DCA.get_binary_rep_of_subkey subkey_value active_sboxes) = 20%nat /\
  forall i, 1 <= i <= 4 ->
    PyStr.slice (DCA.get_binary_rep_of_subkey subkey_value active_sboxes)
      (5 * i - 1) (5 * i) = separator /\
    (In i active_sboxes ->
       PyStr.int_base2
         (PyStr.slice (DCA.get_binary_rep_of_subkey subkey_value active_sboxes)
            (5 * (i - 1)) (5 * i - 1))
       = Ok (nibble subkey_value (4 - i))) /\
    (~ In i active_sboxes ->
       PyStr.slice (DCA.get_binary_rep_of_subkey subkey_value active_sboxes)
         (5 * (i - 1)) (5 * i - 1) = masked_group).
Proof.
  destruct (get_binary_rep_of_subkey_slices subkey_value active_sboxes)
    as [Hlen Hslices].
  split; [exact Hlen|].
  intros i Hi. destruct (Hslices i Hi) as [Hdigits Hsep].
  split; [exact Hsep|]. rewrite Hdigits.
  destruct (existsb (Z.eqb i) active_sboxes) eqn:Hin.
  - apply existsb_exists in Hin. destruct Hin as [s [Hs He]].
    apply Z.eqb_eq in He. subst s.
    split; [|intros Hnot; contradiction].
    intros _. apply format_check_ok. apply nibble_range.
  - split; [|reflexivity].
    intros Hs. exfalso.
    assert (Hex : existsb (Z.eqb i) active_sboxes = true).
    { apply existsb_exists. exists i. split; [exact Hs|apply Z.eqb_refl]. }
    congruence.
Qed.

(** ** The pairs of [generate_plaintext_and_ciphertext_pairs] *)

Lemma lxor_mod_pow2 (x y n : Z) :
  0 <= n -> Z.lxor x y mod 2 ^ n = Z.lxor (x mod 2 ^ n) (y mod 2 ^ n).
Proof.
  intros Hn. apply Z.bits_inj'. intros b Hb.
  destruct (Z.ltb_spec b n) as [Hlt|Hge].
  - rewrite Z.lxor_spec, !Z.mod_pow2_bits_low by lia.
    rewrite Z.lxor_spec. reflexivity.
  - rewrite Z.lxor_spec, !Z.mod_pow2_bits_high by lia. reflexivity.
Qed.

Section GeneratedPairs.

Variable a : DCA.DifferentialCryptanalysis.
Variable delta_p : Z.

Let net := DCA.sp_network a.

Let encrypted (plaintext_1 : Z) (pair : Z * Z) : Prop :=
  SPN.encrypt net plaintext_1 = Ok (fst pair) /\
  SPN.encrypt net (Z.lxor plaintext_1 delta_p) = Ok (snd pair).

Let body (ciphertext_pairs : list (Z * Z)) (plaintext_1 : Z)
  : res (list (Z * Z)) :=
  let plaintext_2 := Z.lxor plaintext_1 delta_p in
  ciphertext_1 <- SPN.encrypt (DCA.sp_network a) plaintext_1 ;;
  ciphertext_2 <- SPN.encrypt (DCA.sp_network a) plaintext_2 ;;
  Ok (append ciphertext_pairs (ciphertext_1, ciphertext_2)).

Lemma generate_loop_iff (draws : list Z) :
  forall acc r,
    for_each draws body acc = Ok r <->
    exists pairs, r = acc ++ pairs /\ Forall2 encrypted draws pairs.
Proof.
  induction draws as [|p draws IH]; intros acc r; cbn [for_each].
  - split.
    + intros H. injection H as <-. exists []. split; [|constructor].
      symmetry. apply app_nil_r.
    + intros [pairs [Hr Hall]]. inversion Hall; subst.
      rewrite app_nil_r. reflexivity.
  - unfold body at 1. cbv zeta. fold net. split.
    + intros H.
      destruct (SPN.encrypt net p) as [c1|e1] eqn:E1; [|discriminate].
      destruct (SPN.encrypt net (Z.lxor p delta_p)) as [c2|e2] eqn:E2;
        [|discriminate].
      cbn [bind] in H. apply IH in H. destruct H as [pairs [Hr Hall]].
      exists ((c1, c2) :: pairs). split.
      * rewrite Hr. unfold append. rewrite <- app_assoc. reflexivity.
      * constructor; [|exact Hall]. split; assumption.
    + intros [pairs [Hr Hall]].
      inversion Hall as [|p' c ds cs [Hc1 Hc2] Hrest]; subst.
      rewrite Hc1. cbn [bind]. rewrite Hc2. cbn [bind].
      apply IH. exists cs. split; [|exact Hrest].
      unfold append. rewrite <- app_assoc. destruct c. reflexivity.
Qed.

Lemma generate_pairs_iff (draws : list Z) (pairs : list (Z * Z)) :
  DCA.generate_plaintext_and_ciphertext_pairs a delta_p draws = Ok pairs <->
  Forall2 encrypted draws pairs.
Proof.
  unfold DCA.generate_plaintext_and_ciphertext_pairs.
  change (for_each draws body [] = Ok pairs <-> Forall2 encrypted draws pairs).
  rewrite (generate_loop_iff draws [] pairs). split.
  - intros [ps [Hr Hall]]. cbn [app] in Hr. subst ps. exact Hall.
  - intros Hall. exists pairs. split; [reflexivity|exact Hall].
Qed.

Variables (ks : list Z) (sub perm : dict Z).
Hypothesis Hinit : SPN.init ks sub perm = Ok net.
Hypothesis Hbij : sub_bijective sub.
Hypothesis Hperm : perm_defined net.
Hypothesis Hinv : perm_involutive net.
Hypothesis Hkeys : keys_in_block ks (SPN.data_size net).
Hypothesis Hnonempty : ks <> [].

Lemma pair_of_draw (p : Z) :
  in_block net p ->
  exists c1 c2,
    encrypted p (c1, c2) /\
    SPN.decrypt net c1 = Ok p /\
    SPN.decrypt net c2 = Ok (Z.lxor p (delta_p mod 2 ^ SPN.data_size net)).
Proof.
  intros Hp.
  pose proof (bijective_data_size ks sub perm net Hinit Hbij) as Hsize.
  assert (HN : 0 <= SPN.data_size net) by lia.
  assert (Hpos : 0 < 2 ^ SPN.data_size net) by (apply Z.pow_pos_nonneg; lia).
  assert (Hsame : Z.lxor p delta_p mod 2 ^ SPN.data_size net
                  = Z.lxor p (delta_p mod 2 ^ SPN.data_size net)).
  { rewrite lxor_mod_pow2 by exact HN.
    unfold in_block in Hp. rewrite (Z.mod_small p) by exact Hp. reflexivity. }
  assert (Hp2 : in_block net (Z.lxor p (delta_p mod 2 ^ SPN.data_size net))).
  { rewrite <- Hsame. unfold in_block. apply Z.mod_pos_bound. exact Hpos. }
  destruct (decrypt_encrypt_involutive_permutation
              ks sub perm net Hinit Hbij Hperm Hinv Hkeys Hnonempty p Hp)
    as [c1 [He1 Hd1]].
  destruct (decrypt_encrypt_involutive_permutation
              ks sub perm net Hinit Hbij Hperm Hinv Hkeys Hnonempty _ Hp2)
    as [c2 [He2 Hd2]].
  exists c1, c2. split; [split; [exact He1|]|split; [exact Hd1|exact Hd2]].
  cbn [snd]. rewrite <- He2.
  apply (encrypt_low_bits net HN).
  rewrite <- Hsame. symmetry. apply Z.mod_mod. lia.
Qed.

Lemma generate_pairs_decrypted (draws : list Z) :
  Forall (in_block net) draws ->
  exists pairs,
    Forall2 encrypted draws pairs /\
    (forall c1 c2, In (c1, c2) pairs ->
       exists p1 p2,
         SPN.decrypt net c1 = Ok p1 /\ SPN.decrypt net c2 = Ok p2 /\
         Z.lxor p1 p2 = delta_p mod 2 ^ SPN.data_size net).
Proof.
  induction 1 as [|p draws Hp _ IH].
  - exists []. split; [constructor|]. intros c1 c2 [].
  - destruct IH as [pairs [Hall Hdec]].
    destruct (pair_of_draw p Hp) as [c1 [c2 [Henc [Hd1 Hd2]]]].
    exists ((c1, c2) :: pairs). split; [constructor; assumption|].
    intros d1 d2 [He|Hin]; [|apply Hdec; exact Hin].
    injection He as <- <-.
    exists p, (Z.lxor p (delta_p mod 2 ^ SPN.data_size net)).
    split; [exact Hd1|]. split; [exact Hd2|].
    rewrite <- (Z.lxor_0_r p) at 1. rewrite lxor_cancel_left. apply Z.lxor_0_l.
Qed.

End GeneratedPairs.

(** X20.  [generate_plaintext_and_ciphertext_pairs] returns a list exactly
    when every encryption returns, and the list then holds one pair per
    drawn plaintext, in the order drawn: the encryptions of the plaintext
    and of the plaintext XOR [delta_p].  On a network built from a bijective
    S-box, a permutation table defined on 1 .. N that is its own inverse
    and a non-empty list of round keys inside the block, with the draws in
    the block as [random.randint] gives them, it returns, and the two
    members of every pair decrypt to plaintexts whose XOR is [delta_p]
    modulo 2^N: [delta_p] itself when [delta_p] lies in the block. *)
Theorem generate_pairs_differ_by_delta_p
  (a : DCA.DifferentialCryptanalysis) (delta_p : Z) (draws : list Z) :
  (forall pairs,
     DCA.generate_plaintext_and_ciphertext_pairs a delta_p draws = Ok pairs <->
     Forall2
       (fun plaintext_1 pair =>
          SPN.encrypt (DCA.sp_network a) plaintext_1 = Ok (fst pair) /\
          SPN.encrypt (DCA.sp_network a) (Z.lxor plaintext_1 delta_p)
          = Ok (snd pair))
       draws pairs) /\
  (forall ks sub perm,
     SPN.init ks sub perm = Ok (DCA.sp_network a) ->
     sub_bijective sub ->
     perm_defined (DCA.sp_network a) ->
     perm_involutive (DCA.sp_network a) ->
     keys_in_block ks (SPN.data_size (DCA.sp_network a)) ->
     ks <> [] ->
     Forall (in_block (DCA.sp_network a)) draws ->
     exists pairs,
       DCA.generate_plaintext_and_ciphertext_pairs a delta_p draws = Ok pairs /\
       length pairs = length draws /\
       (forall c1 c2, In (c1, c2) pairs ->
          exists p1 p2,
            SPN.decrypt (DCA.sp_network a) c1 = Ok p1 /\
            SPN.decrypt (DCA.sp_network a) c2 = Ok p2 /\
            Z.lxor p1 p2 = delta_p mod 2 ^ SPN.data_size (DCA.sp_network a) /\
            (in_block (DCA.sp_network a) delta_p -> Z.lxor p1 p2 = delta_p))).
Proof.
  split.
  - intros pairs. apply generate_pairs_iff.
  - intros ks sub perm Hinit Hbij Hperm Hinv Hkeys Hnonempty Hdraws.
    destruct (generate_pairs_decrypted a delta_p ks sub perm Hinit Hbij Hperm Hinv
                Hkeys Hnonempty draws Hdraws) as [pairs [Hall Hdec]].
    exists pairs. split; [apply generate_pairs_iff; exact Hall|].
    split; [symmetry; apply (Forall2_length Hall)|].
    intros c1 c2 Hin. destruct (Hdec c1 c2 Hin) as [p1 [p2 [H1 [H2 Hx]]]].
    exists p1, p2. split; [exact H1|]. split; [exact H2|].
    split; [exact Hx|].
    intros Hdp. rewrite Hx. apply Z.mod_small. exact Hdp.
Qed.

Lemma generate_pairs_differ_by_delta_p_witness :
  exists pairs,
    DCA.generate_plaintext_and_ciphertext_pairs main_analysis 0x0B00 [782; 5]
    = Ok pairs /\
    length pairs = 2%nat.
Proof.
  destruct (proj2 (generate_pairs_differ_by_delta_p main_analysis 0x0B00 [782; 5])
              main_keys main_substitution main_permutation)
    as [pairs [Hgen [Hlen _]]].
  - vm_compute. reflexivity.
  - apply sub_bijective_check_ok. vm_compute. reflexivity.
  - apply perm_defined_check_ok. vm_compute. reflexivity.
  - apply perm_involutive_check_ok. vm_compute. reflexivity.
  - apply keys_in_block_check_ok. vm_compute. reflexivity.
  - discriminate.
  - repeat constructor; vm_compute; try discriminate; reflexivity.
  - exists pairs. split; [exact Hgen|exact Hlen].
Defined.
